(** * rimless: handshake and RPC over postMessage

    A shallow embedding of [src/host.ts], [src/rpc.ts], [src/guest.ts] and
    [src/types.ts].  Every execution context (a window, a worker, a service
    worker) runs one event loop, so the code is modelled by explicit state
    passing over a record that holds what the closures of the source share:
    the event-listener table, the log of posted messages, the arrays of
    unsubscribe thunks, the promises and the host records. *)

From stdpp Require Import base option list strings pretty gmap.
From Stdlib Require Import ZArith Lia.

Local Set Warnings "-register-all".
Local Open Scope string_scope.
Local Open Scope list_scope.

(** ** JavaScript values carried by messages *)

Module Js.

(** Values that can occur in [event.data], as arguments, results and thrown
    errors.  Finite numbers are integers here; [JNaN] and [JInfinity] stand
    for the non-finite ones; [JFun] is a function value, opaque to JSON. *)
Inductive jsval : Type :=
| JUndefined
| JNull
| JBool (b : bool)
| JNum (z : Z)
| JNaN
| JInfinity (negative : bool)
| JStr (s : string)
| JArr (xs : list jsval)
| JObj (kvs : list (string * jsval))
| JFun (name : nat).

(** [!!v] *)
Definition truthy (v : jsval) : bool :=
  match v with
  | JUndefined | JNull | JNaN => false
  | JBool b => b
  | JNum z => negb (z =? 0)%Z
  | JStr s => negb (bool_decide (s = ""))
  | JInfinity _ | JArr _ | JObj _ | JFun _ => true
  end.

(** [a === b].  Arrays, objects and functions compare by reference; the two
    sides of every comparison in the source come from different messages (or
    from a message and a local value), so they are never the same reference. *)
Definition strict_eq (a b : jsval) : bool :=
  match a, b with
  | JUndefined, JUndefined => true
  | JNull, JNull => true
  | JBool x, JBool y => bool_decide (x = y)
  | JNum x, JNum y => (x =? y)%Z
  | JInfinity x, JInfinity y => bool_decide (x = y)
  | JStr x, JStr y => bool_decide (x = y)
  | _, _ => false
  end.

(** Property lookup in an association list of own properties. *)
Fixpoint assoc (k : string) (kvs : list (string * jsval)) : jsval :=
  match kvs with
  | [] => JUndefined
  | (k', v) :: rest => if bool_decide (k' = k) then v else assoc k rest
  end.

(** [v.k] on a value that is neither [null] nor [undefined]. *)
Definition prop (k : string) (v : jsval) : jsval :=
  match v with
  | JObj kvs => assoc k kvs
  | _ => JUndefined
  end.

(** [const { a, b, ... } = v] throws a TypeError on [null] and [undefined]
    and reads [undefined] for every field of another primitive. *)
Definition destructurable (v : jsval) : bool :=
  match v with
  | JUndefined | JNull => false
  | _ => true
  end.

(** [JSON.parse(JSON.stringify(v))].  [JSON.stringify] answers [undefined]
    for [undefined] and for a function, and [JSON.parse(undefined)] throws a
    SyntaxError: [None].  Inside an array such entries become [null], inside
    an object the property is dropped; non-finite numbers become [null]. *)
Fixpoint json_clone (v : jsval) : option jsval :=
  match v with
  | JUndefined | JFun _ => None
  | JNull => Some JNull
  | JBool b => Some (JBool b)
  | JNum z => Some (JNum z)
  | JNaN | JInfinity _ => Some JNull
  | JStr s => Some (JStr s)
  | JArr xs =>
      Some (JArr (map (fun x => match json_clone x with
                                | Some y => y
                                | None => JNull
                                end) xs))
  | JObj kvs =>
      Some (JObj ((fix props (l : list (string * jsval)) :=
                     match l with
                     | [] => []
                     | (k, x) :: rest =>
                         match json_clone x with
                         | Some y => (k, y) :: props rest
                         | None => props rest
                         end
                     end) kvs))
  end.

(** The clone of one array entry. *)
Definition clone_entry (x : jsval) : jsval :=
  match json_clone x with Some y => y | None => JNull end.

(** [JSON.parse(JSON.stringify(args))] for the rest-parameter array. *)
Definition clone_args (args : list jsval) : list jsval := map clone_entry args.


(** [Object.getOwnPropertyNames(v)]; a TypeError on [null] and [undefined]. *)
Definition index_names (n : nat) : list string :=
  map (fun i => pretty (N.of_nat i)) (seq 0 n) ++ ["length"].

Definition own_names (v : jsval) : option (list string) :=
  match v with
  | JUndefined | JNull => None
  | JObj kvs => Some (map fst kvs)
  | JArr xs => Some (index_names (length xs))
  | JStr s => Some (index_names (String.length s))
  | _ => Some []
  end.

(** [JSON.parse(JSON.stringify(v, names))]: an array replacer keeps, in every
    object reached, only the properties it lists. *)
Fixpoint json_clone_only (names : list string) (v : jsval) : option jsval :=
  match v with
  | JUndefined | JFun _ => None
  | JNull => Some JNull
  | JBool b => Some (JBool b)
  | JNum z => Some (JNum z)
  | JNaN | JInfinity _ => Some JNull
  | JStr s => Some (JStr s)
  | JArr xs =>
      Some (JArr (map (fun x => match json_clone_only names x with
                                | Some y => y
                                | None => JNull
                                end) xs))
  | JObj kvs =>
      Some (JObj ((fix props (l : list (string * jsval)) :=
                     match l with
                     | [] => []
                     | (k, x) :: rest =>
                         if bool_decide (k ∈ names) then
                           match json_clone_only names x with
                           | Some y => (k, y) :: props rest
                           | None => props rest
                           end
                         else props rest
                     end) kvs))
  end.

(** [JSON.parse(JSON.stringify(error, Object.getOwnPropertyNames(error)))] *)
Definition clone_error (e : jsval) : option jsval :=
  names ← own_names e; json_clone_only names e.

(** [f(...args)] needs an iterable: an array spreads its entries, a string
    its characters, anything else is a TypeError.  A missing [args] has
    already been replaced by the default [[]]. *)
Fixpoint chars (s : string) : list jsval :=
  match s with
  | EmptyString => []
  | String c rest => JStr (String c EmptyString) :: chars rest
  end.

Definition spread (args : jsval) : option (list jsval) :=
  match args with
  | JUndefined => Some []
  | JArr xs => Some xs
  | JStr s => Some (chars s)
  | _ => None
  end.

End Js.
Export Js.


(** ** Protocol constants ([types.ts]) *)

Module events.
Definition MESSAGE : string := "message".
End events.

Module actions.
Definition HANDSHAKE_REQUEST : string := "ANCHOR/HANDSHAKE_REQUEST".
Definition HANDSHAKE_REPLY : string := "ANCHOR/HANDSHAKE_REPLY".
Definition RPC_REQUEST : string := "ANCHOR/RPC_REQUEST".
Definition RPC_RESOLVE : string := "ANCHOR/RPC_RESOLVE".
Definition RPC_REJECT : string := "ANCHOR/RPC_REJECT".
End actions.

(** ** Objects of the platform *)

(** What [event.source] or the guest's [target] can be. *)
Inductive endpoint : Type :=
| EWindow (n : nat)          (* a WindowProxy: [w.window === w] *)
| EWorker (n : nat)          (* a Worker, or a worker's own global scope *)
| EServiceWorker (n : nat)   (* a ServiceWorker object *)
| EClient (id : string).     (* a Client of a service worker, with its [id] *)

#[global] Instance endpoint_eq_dec : EqDecision endpoint.
Proof. solve_decision. Defined.

(** [e.window === e] *)
Definition is_window (e : endpoint) : bool :=
  match e with EWindow _ => true | _ => false end.

(** [e instanceof ServiceWorker] *)
Definition is_service_worker (e : endpoint) : bool :=
  match e with EServiceWorker _ => true | _ => false end.

(** [(e as Client).id] *)
Definition client_id (e : endpoint) : jsval :=
  match e with EClient id => JStr id | _ => JUndefined end.

(** A [MessageEvent]: the fields the source reads. *)
Record event : Type := Event {
  data : jsval;
  source : option endpoint;
  origin : string;
}.

(** An [HTMLIFrameElement]: [getAttribute('src')] and [contentWindow]. *)
Record iframe : Type := IFrame {
  frame : nat;
  src : option string;
  contentWindow : option endpoint;
}.

#[global] Instance iframe_eq_dec : EqDecision iframe.
Proof. solve_decision. Defined.

(** [type Guest = HTMLIFrameElement | Worker | null]; [None] is [null]. *)
Inductive guest_target : Type :=
| GIframe (f : iframe)
| GWorker (n : nat).

#[global] Instance guest_target_eq_dec : EqDecision guest_target.
Proof. solve_decision. Defined.

Abbreviation Guest := (option guest_target).

(** [guest instanceof HTMLIFrameElement]; the test
    [typeof HTMLIFrameElement !== 'undefined'] in front of it holds wherever
    an iframe element exists. *)
Definition as_iframe (guest : Guest) : option iframe :=
  match guest with Some (GIframe f) => Some f | _ => None end.

(** The key of the [hosts] map: [Window | Worker | ServiceWorkerGlobalScope].
    The public [connect] uses the guest itself ([guest as Worker]) or
    [window]. *)
Inductive host_target : Type :=
| TWindow
| TGuest (g : guest_target)
| TServiceWorkerGlobalScope.

#[global] Instance host_target_eq_dec : EqDecision host_target.
Proof. solve_decision. Defined.

(** Objects with [addEventListener]/[removeEventListener].  In a window
    [self] and [window] are one object; the model keeps the name the source
    subscribes under. *)
Inductive receiver : Type :=
| RSelf                        (* [self] *)
| RTarget (t : host_target)    (* the target of a host record *)
| RAdapter (host : nat)        (* the [messageReceiver] object of a host
                                  record: its listeners are that record's
                                  [downstreamReceivers] *)
| RServiceWorkerContainer.     (* [navigator.serviceWorker] *)

#[global] Instance receiver_eq_dec : EqDecision receiver.
Proof. solve_decision. Defined.

(** [messageReceiver.postMessage] is there for a Worker only: the adapter
    object and [navigator.serviceWorker] have none, nor has an iframe
    element. *)
Definition has_postMessage (r : receiver) : bool :=
  match r with RTarget (TGuest (GWorker _)) => true | _ => false end.

(** One call of some [postMessage]. *)
Inductive channel : Type :=
| ViaReceiver (r : receiver)   (* [messageReceiver.postMessage] *)
| ViaGlobal                    (* [(self as any).postMessage] *)
| ViaEndpoint (e : endpoint).  (* [event.source.postMessage], [target.postMessage] *)

Record post : Type := Post {
  via : channel;
  payload : jsval;
  targetOrigin : option string;
}.

(** What a call of a schema function does: it returns (a promise that
    fulfils with) a value, or throws (rejects with) one. *)
Inductive outcome : Type :=
| Returned (v : jsval)
| Threw (e : jsval).

(** A promise that has settled. *)
Inductive settlement (A : Type) : Type :=
| Fulfilled (v : A)
| Rejected (e : jsval).
Arguments Fulfilled {A} v.
Arguments Rejected {A} e.

(** The function [createRPC] returns, with the variables it closes over;
    [rpc_listeners] is the address of the shared [listeners] array. *)
Record rpc : Type := Rpc {
  rpc_callName : jsval;
  rpc_connectionID : jsval;
  rpc_event : event;
  rpc_listeners : nat;
  rpc_messageReceiver : option receiver;
}.

(** ** External collaborators

    [helpers.ts], lodash and uuid are not part of the modelled files; the
    development is parametric in them. *)
Class Collaborators : Type := {
  (** [ISchema]: a nested object with functions at its leaves *)
  schema : Type;
  (** [get(schema, path)] of lodash when the value there is callable *)
  get : schema -> string -> option (list jsval -> outcome);
  extractMethods : schema -> list string;
  (** [JSON.parse(JSON.stringify(schema))] *)
  schema_json : schema -> jsval;
  isTrustedRemote : event -> bool;
  (** [isWorker()] is [isWorker None], [isWorker(guest)] is [isWorker (Some guest)] *)
  isWorker : Guest -> bool;
  getOriginFromURL : option string -> option string;
  (** the [n]-th identifier that [uuidv4()] hands out *)
  uuidv4 : nat -> string;
  (** the object [remote] of a connection, with proxies at its leaves *)
  remote_object : Type;
  (** [{ ...schema }] of the schema a message carries: a new object with
      the own properties of that value *)
  spread_object : jsval -> remote_object;
  (** [set(remote, path, rpc)] of lodash: the object once the function is
      put at the path *)
  set : remote_object -> jsval -> rpc -> remote_object;
}.

(** Identifiers are fresh and non-empty. *)
Class UuidFresh `{Collaborators} : Prop := {
  uuidv4_inj : forall m n, uuidv4 m = uuidv4 n -> m = n;
  uuidv4_truthy : forall n, uuidv4 n <> "";
}.

#[global] Instance endpoint_countable : Countable endpoint.
Proof.
  refine (inj_countable'
    (fun e => match e with
              | EWindow n => inl (inl n)
              | EWorker n => inl (inr n)
              | EServiceWorker n => inr (inl n)
              | EClient id => inr (inr id)
              end)
    (fun x => match x with
              | inl (inl n) => EWindow n
              | inl (inr n) => EWorker n
              | inr (inl n) => EServiceWorker n
              | inr (inr id) => EClient id
              end) _).
  by intros [].
Defined.

#[global] Instance iframe_countable : Countable iframe.
Proof.
  refine (inj_countable'
    (fun f => (frame f, src f, contentWindow f))
    (fun x => IFrame x.1.1 x.1.2 x.2) _).
  by intros [].
Defined.

#[global] Instance guest_target_countable : Countable guest_target.
Proof.
  refine (inj_countable'
    (fun g => match g with GIframe f => inl f | GWorker n => inr n end)
    (fun x => match x with inl f => GIframe f | inr n => GWorker n end) _).
  by intros [].
Defined.

#[global] Instance host_target_countable : Countable host_target.
Proof.
  refine (inj_countable'
    (fun t => match t with
              | TWindow => inl false
              | TServiceWorkerGlobalScope => inl true
              | TGuest g => inr g
              end)
    (fun x => match x with
              | inl false => TWindow
              | inl true => TServiceWorkerGlobalScope
              | inr g => TGuest g
              end) _).
  by intros [].
Defined.

(** ** The state of one execution context *)

(** A thunk [() => r.removeEventListener(events.MESSAGE, h)]: the receiver
    and the identity of the listener function. *)
Abbreviation unsubscribe := (receiver * nat)%type.

Section Model.
Context `{C : Collaborators}.

(** The [close] closure of a connection, host side ([host.ts]) and guest
    side ([guest.ts]). *)
Inductive close_fn : Type :=
| HostClose (unregisterRemote : nat) (unregisterLocal : list unsubscribe)
            (host : nat) (connectionID : string)
| GuestClose (listeners : receiver) (handleHandshakeResponse : nat)
             (unregisterRemote : nat) (unregisterLocal : list unsubscribe).

(** [IConnection]; [remote] is the object that holds the proxies. *)
Record IConnection : Type := Connection {
  remote : remote_object;
  close : close_fn;
  clientId : jsval;
}.

(** The two callbacks [host.connect] is given: the one of the public
    [connect], closing over its host record and the [resolve] of its
    promise, and the [resolve] that [serve] passes. *)
Inductive callback : Type :=
| ConnectCallback (host : nat) (resolve : nat)
| ServeResolve (resolve : nat).

(** The [listener] closure made by [host.connect]. *)
Record ConnectionListener : Type := Listener {
  listener_id : nat;
  listener_host : nat;
  listener_guest : Guest;
  listener_schema : schema;
  listener_callback : callback;
}.

(** The functions that get subscribed to message events. *)
Inductive handler : Type :=
| HandleCall (sch : schema) (methodName : string) (connectionID : jsval)
             (messageReceiver : option receiver)
| HandleResponse (callName connectionID : jsval) (callID : string)
                 (promise : nat)
| MainListener (host : nat)
| HandleHandshakeResponse (attempt : nat).

Record subscription : Type := Subscription {
  on : receiver;
  handler_id : nat;
  run : handler;
}.

(** A host record with the variables [findOrCreateHostFor] closes over.
    [connectionListeners] is a [Map] of [Set]s, iterated in insertion order;
    [connections] is an object read with [Object.values].  The record's
    [downstreamReceivers] are the subscriptions on its [RAdapter]. *)
Record host : Type := Host {
  target : host_target;
  mainListener_id : nat;                    (* the identity of [mainListener] *)
  pendingConnections : Z;
  connectionListeners : list (Guest * list ConnectionListener);
  connections : list (string * IConnection);
}.

(** The variables of one call of the guest's [connect]. *)
Record attempt : Type := Attempt {
  attempt_schema : schema;
  attempt_target : endpoint;
  attempt_listener : nat;                   (* the identity of [handleHandshakeResponse] *)
  interval : option nat;
  connected : bool;
  attempt_promise : nat;
}.

(** Timers: [setInterval] repeats [every] milliseconds. *)
Inductive timer_job : Type :=
| RetryHandshake (a : nat)
| TimeoutConnection (a : nat).

Record timer : Type := Timer {
  timer_id : nat;
  due : nat;
  every : option nat;
  job : timer_job;
}.

Record realm : Type := Realm {
  uuids : nat;                              (* identifiers drawn from [uuidv4] *)
  fresh : nat;                              (* next address of a closure, array or promise *)
  subscriptions : list subscription;        (* in subscription order *)
  posted : list post;                       (* every [postMessage], oldest first *)
  arrays : gmap nat (list unsubscribe);     (* the [listeners] arrays of [registerRemoteMethods] *)
  calls : gmap nat (settlement jsval);      (* settled promises of proxy calls *)
  invocations : list (string * list jsval); (* calls of schema functions *)
  hosts : gmap host_target nat;             (* the [hosts] map *)
  records : gmap nat host;                  (* host records by address *)
  handshakes : gmap nat (settlement IConnection); (* settled [connect] promises *)
  attempts : gmap nat attempt;
  timers : list timer;
  now : nat;                                (* milliseconds *)
}.

Definition empty_realm : realm :=
  Realm 0 0 [] [] ∅ ∅ [] ∅ ∅ ∅ ∅ [] 0.

(** Field updates. *)
Definition upd_uuids (f : _ -> _) (w : realm) : realm :=
  Realm (f (uuids w)) (fresh w) (subscriptions w) (posted w) (arrays w) (calls w) (invocations w) (hosts w) (records w) (handshakes w) (attempts w) (timers w) (now w).
Definition upd_fresh (f : _ -> _) (w : realm) : realm :=
  Realm (uuids w) (f (fresh w)) (subscriptions w) (posted w) (arrays w) (calls w) (invocations w) (hosts w) (records w) (handshakes w) (attempts w) (timers w) (now w).
Definition upd_subscriptions (f : _ -> _) (w : realm) : realm :=
  Realm (uuids w) (fresh w) (f (subscriptions w)) (posted w) (arrays w) (calls w) (invocations w) (hosts w) (records w) (handshakes w) (attempts w) (timers w) (now w).
Definition upd_posted (f : _ -> _) (w : realm) : realm :=
  Realm (uuids w) (fresh w) (subscriptions w) (f (posted w)) (arrays w) (calls w) (invocations w) (hosts w) (records w) (handshakes w) (attempts w) (timers w) (now w).
Definition upd_arrays (f : _ -> _) (w : realm) : realm :=
  Realm (uuids w) (fresh w) (subscriptions w) (posted w) (f (arrays w)) (calls w) (invocations w) (hosts w) (records w) (handshakes w) (attempts w) (timers w) (now w).
Definition upd_calls (f : _ -> _) (w : realm) : realm :=
  Realm (uuids w) (fresh w) (subscriptions w) (posted w) (arrays w) (f (calls w)) (invocations w) (hosts w) (records w) (handshakes w) (attempts w) (timers w) (now w).
Definition upd_invocations (f : _ -> _) (w : realm) : realm :=
  Realm (uuids w) (fresh w) (subscriptions w) (posted w) (arrays w) (calls w) (f (invocations w)) (hosts w) (records w) (handshakes w) (attempts w) (timers w) (now w).
Definition upd_hosts (f : _ -> _) (w : realm) : realm :=
  Realm (uuids w) (fresh w) (subscriptions w) (posted w) (arrays w) (calls w) (invocations w) (f (hosts w)) (records w) (handshakes w) (attempts w) (timers w) (now w).
Definition upd_records (f : _ -> _) (w : realm) : realm :=
  Realm (uuids w) (fresh w) (subscriptions w) (posted w) (arrays w) (calls w) (invocations w) (hosts w) (f (records w)) (handshakes w) (attempts w) (timers w) (now w).
Definition upd_handshakes (f : _ -> _) (w : realm) : realm :=
  Realm (uuids w) (fresh w) (subscriptions w) (posted w) (arrays w) (calls w) (invocations w) (hosts w) (records w) (f (handshakes w)) (attempts w) (timers w) (now w).
Definition upd_attempts (f : _ -> _) (w : realm) : realm :=
  Realm (uuids w) (fresh w) (subscriptions w) (posted w) (arrays w) (calls w) (invocations w) (hosts w) (records w) (handshakes w) (f (attempts w)) (timers w) (now w).
Definition upd_timers (f : _ -> _) (w : realm) : realm :=
  Realm (uuids w) (fresh w) (subscriptions w) (posted w) (arrays w) (calls w) (invocations w) (hosts w) (records w) (handshakes w) (attempts w) (f (timers w)) (now w).
Definition upd_now (f : _ -> _) (w : realm) : realm :=
  Realm (uuids w) (fresh w) (subscriptions w) (posted w) (arrays w) (calls w) (invocations w) (hosts w) (records w) (handshakes w) (attempts w) (timers w) (f (now w)).

(** *** Computations that may throw

    A computation runs on the realm and ends normally with a value or with a
    thrown error; either way it leaves the realm it has reached. *)
Inductive result (A : Type) : Type :=
| Ok (a : A) (w : realm)
| Thrown (error : string) (w : realm).
Arguments Ok {A} a w.
Arguments Thrown {A} error w.

Definition M (A : Type) : Type := realm -> result A.

#[global] Instance M_ret : MRet M := fun A a w => Ok a w.
#[global] Instance M_bind : MBind M := fun A B k m w =>
  match m w with
  | Ok a w' => k a w'
  | Thrown e w' => Thrown e w'
  end.

Definition throw {A} (e : string) : M A := fun w => Thrown e w.
Definition gets {A} (f : realm -> A) : M A := fun w => Ok (f w) w.
Definition modify (f : realm -> realm) : M unit := fun w => Ok tt (f w).

(** The realm a computation leaves. *)
Definition after {A} (x : result A) : realm :=
  match x with Ok _ w => w | Thrown _ w => w end.

(** Calling an [async] function: a throw inside it rejects the promise it
    returns, which nobody awaits. *)
Definition async (m : M unit) : M unit := fun w => Ok tt (after (m w)).

(** [for (const x of xs) body(x)] over a snapshot of [xs]. *)
Fixpoint for_each {A} (xs : list A) (body : A -> M unit) : M unit :=
  match xs with
  | [] => mret tt
  | x :: rest => body x;; for_each rest body
  end.

(** *** Platform operations *)

(** A new address. *)
Definition alloc : M nat :=
  fun w => Ok (fresh w) (upd_fresh S w).

(** [uuidv4()] *)
Definition uuid : M string :=
  fun w => Ok (uuidv4 (uuids w)) (upd_uuids S w).

(** [r.addEventListener(events.MESSAGE, h)] with a function [h] just
    created; answers the identity of [h]. *)
Definition addEventListener (r : receiver) (h : handler) : M nat :=
  id ← alloc;
  modify (upd_subscriptions (fun l => l ++ [Subscription r id h]));;
  mret id.

Definition is_subscription (r : receiver) (id : nat) (s : subscription) : bool :=
  bool_decide (on s = r) && bool_decide (handler_id s = id).

(** [r.removeEventListener(events.MESSAGE, h)] *)
Definition removeEventListener (r : receiver) (id : nat) : M unit :=
  modify (upd_subscriptions (filter (fun s => is_subscription r id s = false))).

(** [c.postMessage(payload)] and [c.postMessage(payload, targetOrigin)] *)
Definition postMessage (c : channel) (p : jsval) (o : option string) : M unit :=
  modify (upd_posted (fun l => l ++ [Post c p o])).

(** [listeners.forEach((unregister) => unregister())] *)
Definition unregister (listeners : list unsubscribe) : M unit :=
  for_each listeners (fun u => removeEventListener u.1 u.2).

(** Whether one of the thunks in [l] unsubscribes [s]. *)
Definition unsubscribed (l : list unsubscribe) (s : subscription) : bool :=
  existsb (fun u => is_subscription u.1 u.2 s) l.

(** An [Error] object as [Object.getOwnPropertyNames] sees it. *)
Definition error_object (message : string) : jsval :=
  JObj [("stack", JStr message); ("message", JStr message)].

(** ** [rpc.ts] *)

(** The [listeners] array of [registerLocalMethods] is filled while the
    methods are walked; [registerLocalMethods] answers the function that
    runs [unregister] on it. *)
Fixpoint subscribe_calls (sch : schema) (methods : list string)
    (connectionID : jsval) (messageReceiver : option receiver)
    (listeners : list unsubscribe) : M (list unsubscribe) :=
  match methods with
  | [] => mret listeners
  | methodName :: rest =>
      let r := default RSelf messageReceiver in
      id ← addEventListener r
             (HandleCall sch methodName connectionID messageReceiver);
      subscribe_calls sch rest connectionID messageReceiver
        (listeners ++ [(r, id)])
  end.

Definition registerLocalMethods (sch : schema) (methods : list string)
    (connectionID : jsval) (messageReceiver : option receiver)
  : M (list unsubscribe) :=
  subscribe_calls sch methods connectionID messageReceiver [].

(** The payload [handleCall] sends back. *)
Definition resolve_payload (callID callName connectionID error result : jsval)
  : jsval :=
  JObj [("action", JStr actions.RPC_RESOLVE); ("callID", callID);
        ("callName", callName); ("connectionID", connectionID);
        ("error", error); ("result", result)].

(** The [try]/[catch] of [handleCall]: the fields [result] and [error] of
    the payload.  The [catch] block itself throws when the error cannot be
    serialised. *)
Definition caught (e : jsval) : M (jsval * jsval) :=
  match clone_error e with
  | Some e' => mret (JNull, e')
  | None => throw "TypeError"
  end.

Definition run_method (sch : schema) (methodName : string) (args : jsval)
  : M (jsval * jsval) :=
  match spread args with
  | None => caught (error_object "args is not iterable")
  | Some xs =>
      match get sch methodName with
      | None => caught (error_object "get(...) is not a function")
      | Some f =>
          modify (upd_invocations (fun l => l ++ [(methodName, xs)]));;
          match f xs with
          | Returned v =>
              match json_clone v with
              | Some v' => mret (v', JNull)
              | None => caught (error_object "is not valid JSON")
              end
          | Threw e => caught e
          end
      end
  end.

(** Where [handleCall] sends its payload (lines 388-396): the channel and
    the target origin; [None] when reading [event.source.window] throws. *)
Definition response_channel (messageReceiver : option receiver) (ev : event)
  : option (channel * option string) :=
  match messageReceiver with
  | Some r =>
      if has_postMessage r then Some (ViaReceiver r, None)
      else if isWorker None then Some (ViaGlobal, None)
      else match source ev with
           | None => None
           | Some s => if is_window s then Some (ViaEndpoint s, Some (origin ev))
                       else Some (ViaEndpoint s, None)
           end
  | None =>
      if isWorker None then Some (ViaGlobal, None)
      else match source ev with
           | None => None
           | Some s => if is_window s then Some (ViaEndpoint s, Some (origin ev))
                       else Some (ViaEndpoint s, None)
           end
  end.

(** The five guards of [handleCall] (lines 363-367). *)
Definition accepts_call (methodName : string) (_connectionID : jsval)
    (ev : event) : bool :=
  strict_eq (prop "action" (data ev)) (JStr actions.RPC_REQUEST)
  && isTrustedRemote ev
  && (truthy (prop "callID" (data ev)) && truthy (prop "callName" (data ev)))
  && strict_eq (prop "callName" (data ev)) (JStr methodName)
  && strict_eq (prop "connectionID" (data ev)) _connectionID.

(** [args = []]: the default of the destructuring at line 360. *)
Definition call_args (ev : event) : jsval :=
  match prop "args" (data ev) with
  | JUndefined => JArr []
  | a => a
  end.

(** [handleCall] (lines 354-397), the body of the [async] function. *)
Definition handleCall (sch : schema) (methodName : string)
    (_connectionID : jsval) (messageReceiver : option receiver) (ev : event)
  : M unit :=
  if negb (destructurable (data ev)) then throw "TypeError"
  else
    let callID := prop "callID" (data ev) in
    let connectionID := prop "connectionID" (data ev) in
    let callName := prop "callName" (data ev) in
    let args := call_args ev in
    if negb (accepts_call methodName _connectionID ev) then mret tt
    else
      re ← run_method sch methodName args;
      let payload := resolve_payload callID callName connectionID re.2 re.1 in
      match response_channel messageReceiver ev with
      | Some (c, o) => postMessage c payload o
      | None => throw "TypeError"
      end.

(** The payload a proxy sends. *)
Definition request_payload (args : list jsval) (callID : string)
    (callName connectionID : jsval) : jsval :=
  JObj [("action", JStr actions.RPC_REQUEST); ("args", JArr (clone_args args));
        ("callID", JStr callID); ("callName", callName);
        ("connectionID", connectionID)].

(** Where a proxy sends its request (lines 484-494); [None] is the no-op
    branch. *)
Definition request_channel (messageReceiver : option receiver) (ev : event)
  : option (channel * option string) :=
  match messageReceiver with
  | Some r =>
      if has_postMessage r then Some (ViaReceiver r, None)
      else if isWorker None then Some (ViaGlobal, None)
      else match source ev with
           | Some s => if is_window s then Some (ViaEndpoint s, Some (origin ev))
                       else Some (ViaEndpoint s, None)
           | None => None
           end
  | None =>
      if isWorker None then Some (ViaGlobal, None)
      else match source ev with
           | Some s => if is_window s then Some (ViaEndpoint s, Some (origin ev))
                       else Some (ViaEndpoint s, None)
           | None => None
           end
  end.

(** A promise settles once: [resolve] and [reject] on a settled promise do
    nothing. *)
Definition settled {A} (promise : nat) (s : settlement A)
    (m : gmap nat (settlement A)) : gmap nat (settlement A) :=
  match m !! promise with
  | Some _ => m
  | None => <[promise := s]> m
  end.

(** [resolve(v)] and [reject(e)] of a proxy call's promise. *)
Definition settle_call (promise : nat) (s : settlement jsval) : M unit :=
  modify (upd_calls (settled promise s)).

(** The correlation guards of [handleResponse] (lines 452-456). *)
Definition accepts_response (_callName _connectionID : jsval)
    (callID : string) (ev : event) : bool :=
  isTrustedRemote ev
  && (truthy (prop "callID" (data ev)) && truthy (prop "callName" (data ev)))
  && strict_eq (prop "callName" (data ev)) _callName
  && strict_eq (prop "connectionID" (data ev)) _connectionID
  && strict_eq (prop "callID" (data ev)) (JStr callID).

(** [handleResponse] (lines 442-461) *)
Definition handleResponse (_callName _connectionID : jsval) (callID : string)
    (promise : nat) (ev : event) : M unit :=
  if negb (destructurable (data ev)) then throw "TypeError"
  else if negb (accepts_response _callName _connectionID callID ev) then mret tt
  else if strict_eq (prop "action" (data ev)) (JStr actions.RPC_RESOLVE)
  then settle_call promise (Fulfilled (prop "result" (data ev)))
  else if strict_eq (prop "action" (data ev)) (JStr actions.RPC_REJECT)
  then settle_call promise (Rejected (prop "error" (data ev)))
  else mret tt.

(** The settlement a response asks for (lines 459-460). *)
Definition response_settlement (ev : event) : option (settlement jsval) :=
  if strict_eq (prop "action" (data ev)) (JStr actions.RPC_RESOLVE)
  then Some (Fulfilled (prop "result" (data ev)))
  else if strict_eq (prop "action" (data ev)) (JStr actions.RPC_REJECT)
  then Some (Rejected (prop "error" (data ev)))
  else None.

(** [listeners.push(u)] on the array at address [a]. *)
Definition push (a : nat) (u : unsubscribe) : M unit :=
  modify (upd_arrays (fun m => <[a := default [] (m !! a) ++ [u]]> m)).

(** One call [rpc(...args)] of the function [createRPC] returns (lines
    437-496); answers the promise. *)
Definition createRPC (_callName _connectionID : jsval) (ev : event)
    (listeners : nat) (messageReceiver : option receiver) (args : list jsval)
  : M nat :=
  promise ← alloc;
  callID ← uuid;
  let payload := request_payload args callID _callName _connectionID in
  let r := default RSelf messageReceiver in
  id ← addEventListener r
         (HandleResponse _callName _connectionID callID promise);
  push listeners (r, id);;
  match request_channel messageReceiver ev with
  | Some (c, o) => postMessage c payload o
  | None => mret tt
  end;;
  mret promise.

Definition call (f : rpc) (args : list jsval) : M nat :=
  createRPC (rpc_callName f) (rpc_connectionID f) (rpc_event f)
    (rpc_listeners f) (rpc_messageReceiver f) args.

(** [methods.forEach] on a value received in a message: the default [[]]
    replaces [undefined]; only an array has [forEach]. *)
Definition method_list (methods : jsval) : option (list jsval) :=
  match methods with
  | JUndefined => Some []
  | JArr ms => Some ms
  | _ => None
  end.

(** The body of [methods.forEach] in [registerRemoteMethods] (lines
    519-528), over the method names in their order: [createRPC] makes the
    proxy of the name and [set] puts it into [remote] at that path. *)
Definition set_proxies (remote : remote_object) (methods : list jsval)
    (_connectionID : jsval) (ev : event) (listeners : nat)
    (messageReceiver : option receiver) : remote_object :=
  fold_left
    (fun remote methodName =>
       set remote methodName
         (Rpc methodName _connectionID ev listeners messageReceiver))
    methods remote.

(** [registerRemoteMethods] (lines 509-534): the object [remote], a copy
    of the remote schema [sch] into which [set] has put one proxy per method
    name, in the order of [methods], and the address of the [listeners]
    array that [unregisterRemote] walks. *)
Definition registerRemoteMethods (sch methods : jsval) (_connectionID : jsval)
    (ev : event) (messageReceiver : option receiver)
  : M (remote_object * nat) :=
  listeners ← alloc;
  modify (upd_arrays <[listeners := []]>);;
  match method_list methods with
  | None => throw "TypeError"
  | Some ms =>
      mret (set_proxies (spread_object sch) ms _connectionID ev listeners
              messageReceiver,
            listeners)
  end.

Definition unregisterRemote (listeners : nat) : M unit :=
  l ← gets (fun w => default [] (arrays w !! listeners));
  unregister l.

(** ** [host.ts] *)

(** [isValidTarget] (lines 34-41) *)
Definition isValidTarget (f : iframe) (ev : event) : bool :=
  let childURL := src f in
  let childOrigin := getOriginFromURL childURL in
  let hasProperOrigin := bool_decide (Some (origin ev) = childOrigin) in
  let hasProperSource := bool_decide (source ev = contentWindow f) in
  hasProperOrigin && hasProperSource.

(** Updates of the record at address [h]. *)
Definition upd_host (h : nat) (f : host -> host) : M unit :=
  modify (upd_records (alter f h)).

Definition set_pending (f : Z -> Z) (r : host) : host :=
  Host (target r) (mainListener_id r) (f (pendingConnections r))
       (connectionListeners r) (connections r).
Definition set_listeners (f : _ -> _) (r : host) : host :=
  Host (target r) (mainListener_id r) (pendingConnections r)
       (f (connectionListeners r)) (connections r).
Definition set_connections (f : _ -> _) (r : host) : host :=
  Host (target r) (mainListener_id r) (pendingConnections r)
       (connectionListeners r) (f (connections r)).

(** [connections[id] = c] and [delete connections[id]] *)
Fixpoint assign (id : string) (c : IConnection)
    (l : list (string * IConnection)) : list (string * IConnection) :=
  match l with
  | [] => [(id, c)]
  | (k, x) :: rest =>
      if bool_decide (k = id) then (k, c) :: rest else (k, x) :: assign id c rest
  end.

Fixpoint connection_at (id : string) (l : list (string * IConnection))
  : option IConnection :=
  match l with
  | [] => None
  | (k, x) :: rest =>
      if bool_decide (k = id) then Some x else connection_at id rest
  end.

Definition delete_key (id : string) (l : list (string * IConnection))
  : list (string * IConnection) :=
  filter (fun kc => kc.1 ≠ id) l.

(** The [messageReceiver] of a host record (lines 139-156): the adapter over
    [downstreamReceivers] when the target is a service-worker scope. *)
Definition host_messageReceiver (h : nat) (t : host_target) : option receiver :=
  match t with
  | TServiceWorkerGlobalScope => Some (RAdapter h)
  | _ => None
  end.

Definition handshake_reply (connectionID : string) (methods : list string)
    (sch : schema) : jsval :=
  JObj [("action", JStr actions.HANDSHAKE_REPLY);
        ("connectionID", JStr connectionID);
        ("methods", JArr (map JStr methods));
        ("schema", schema_json sch)].

(** [(guest as HTMLIFrameElement).contentWindow] for a guest that is not
    [null]: a worker has no such property. *)
Definition guest_contentWindow (g : guest_target) : option endpoint :=
  match g with GIframe f => contentWindow f | GWorker _ => None end.

(** [negotiateConnection] (lines 53-117) as made by
    [makeConnectionNegotiator guest { connections, messageReceiver }] for the
    record at [h]. *)
Definition negotiateConnection (guest : Guest) (h : nat)
    (messageReceiver : option receiver) (sch : schema) (ev : event)
  : M IConnection :=
  match source ev with
  | None => throw "missing event source"
  | Some s =>
      connectionID ← uuid;
      let worker := match guest with
                    | Some g => if isWorker (Some g)
                                then Some (RTarget (TGuest g)) else None
                    | None => None
                    end in
      let receiver := match worker with
                      | Some w => Some w
                      | None => messageReceiver
                      end in
      let localMethods := extractMethods sch in
      unregisterLocal ← registerLocalMethods sch localMethods
                          (JStr connectionID) receiver;
      rl ← registerRemoteMethods (prop "schema" (data ev))
             (prop "methods" (data ev)) (JStr connectionID) ev receiver;
      let payload := handshake_reply connectionID localMethods sch in
      match guest with
      | Some g =>
          if bool_decide (Some s = guest_contentWindow g)
          then postMessage (ViaEndpoint s) payload (Some "*")
          else postMessage (ViaEndpoint s) payload None
      | None => postMessage (ViaEndpoint s) payload None
      end;;
      let connection :=
        Connection rl.1 (HostClose rl.2 unregisterLocal h connectionID)
                   (if is_window s then JUndefined else client_id s) in
      upd_host h (set_connections (assign connectionID connection));;
      mret connection
  end.

(** [connection.close()] *)
Definition close_connection (c : IConnection) : M unit :=
  match close c with
  | HostClose listeners unregisterLocal h connectionID =>
      unregisterRemote listeners;;
      unregister unregisterLocal;;
      upd_host h (set_connections (delete_key connectionID))
  | GuestClose r handleHandshakeResponse listeners unregisterLocal =>
      removeEventListener r handleHandshakeResponse;;
      unregisterRemote listeners;;
      unregister unregisterLocal
  end.

(** [host.stop({ shouldCleanupConnections })] (lines 230-239) *)
Definition stop (h : nat) (shouldCleanupConnections : bool) : M unit :=
  r ← gets (fun w => records w !! h);
  match r with
  | None => mret tt
  | Some r =>
      (if shouldCleanupConnections
       then for_each (map snd (connections r)) close_connection
       else mret tt);;
      removeEventListener (RTarget (target r)) (mainListener_id r);;
      modify (upd_hosts (delete (target r)))
  end.

(** [connectionListeners.get(guest)] *)
Fixpoint listeners_for (guest : Guest)
    (m : list (Guest * list ConnectionListener))
  : option (list ConnectionListener) :=
  match m with
  | [] => None
  | (g, ls) :: rest =>
      if bool_decide (g = guest) then Some ls else listeners_for guest rest
  end.

(** A change of the [Set] stored under [guest]. *)
Definition in_set (guest : Guest)
    (f : list ConnectionListener -> list ConnectionListener)
    (m : list (Guest * list ConnectionListener))
  : list (Guest * list ConnectionListener) :=
  map (fun e => if bool_decide (e.1 = guest) then (e.1, f e.2) else e) m.

(** [resolve(connection)] of a [connect] promise. *)
Definition settle_handshake (promise : nat) (s : settlement IConnection)
  : M unit :=
  modify (upd_handshakes (settled promise s)).

(** [callback(connection)]: lines 268-274 for the public [connect], the
    promise's [resolve] for [serve]. *)
Definition run_callback (cb : callback) (connection : IConnection) : M unit :=
  match cb with
  | ConnectCallback h resolve =>
      r ← gets (fun w => records w !! h);
      match r with
      | Some r =>
          if bool_decide (pendingConnections r = 0%Z) then stop h false
          else mret tt
      | None => mret tt
      end;;
      settle_handshake resolve (Fulfilled connection)
  | ServeResolve resolve => settle_handshake resolve (Fulfilled connection)
  end.

(** The [listener] closure (lines 207-219) applied to an event and a
    negotiator. *)
Definition listener (l : ConnectionListener) (ev : event)
    (negotiate : schema -> event -> M IConnection) : M unit :=
  connection ← negotiate (listener_schema l) ev;
  upd_host (listener_host l) (set_pending (fun p => Z.max (p - 1) 0));;
  upd_host (listener_host l)
    (set_listeners
       (in_set (listener_guest l)
          (filter (fun x => listener_id x ≠ listener_id l))));;
  run_callback (listener_callback l) connection.

(** [host.connect] (lines 193-222) *)
Definition host_connect (h : nat) (guest : Guest) (sch : schema)
    (cb : callback) : M unit :=
  upd_host h (set_pending (fun p => (p + 1)%Z));;
  r ← gets (fun w => records w !! h);
  match r ≫= (fun r => listeners_for guest (connectionListeners r)) with
  | Some _ => mret tt
  | None => upd_host h (set_listeners (fun m => m ++ [(guest, [])]))
  end;;
  id ← alloc;
  upd_host h
    (set_listeners (in_set guest (fun ls => ls ++ [Listener id h guest sch cb]))).

(** [listener(event)] on a member of [downstreamReceivers]: only the
    handlers of [rpc.ts] subscribe to the adapter. *)
Definition downstream (f : handler) (ev : event) : M unit :=
  match f with
  | HandleCall sch methodName connectionID messageReceiver =>
      async (handleCall sch methodName connectionID messageReceiver ev)
  | HandleResponse callName connectionID callID promise =>
      handleResponse callName connectionID callID promise ev
  | _ => mret tt
  end.

(** One round of the loop over [connectionListeners] (lines 166-183). *)
Definition route (h : nat) (messageReceiver : option receiver) (ev : event)
    (guest : Guest) : M unit :=
  let serve_listeners :=
    ls ← gets (fun w => default []
                 (records w !! h ≫=
                  fun r => listeners_for guest (connectionListeners r)));
    for_each ls
      (fun l => listener l ev (negotiateConnection guest h messageReceiver)) in
  match as_iframe guest with
  | Some f => if negb (isValidTarget f ev) then mret tt else serve_listeners
  | None => serve_listeners
  end.

(** [mainListener] (lines 158-189), the body of the [async] function. *)
Definition mainListener (h : nat) (ev : event) : M unit :=
  if negb (truthy (data ev)) || negb (bool_decide (is_Some (source ev)))
     || negb (truthy (JStr (origin ev)))
  then throw "unknown message type"
  else
    r ← gets (fun w => records w !! h);
    match r with
    | None => mret tt
    | Some r =>
        if strict_eq (prop "action" (data ev)) (JStr actions.HANDSHAKE_REQUEST)
        then for_each (map fst (connectionListeners r))
               (route h (host_messageReceiver h (target r)) ev)
        else if bool_decide (target r = TServiceWorkerGlobalScope)
        then
          subs ← gets (fun w => filter (fun s => on s = RAdapter h)
                                       (subscriptions w));
          for_each subs (fun s => downstream (run s) ev)
        else mret tt
    end.

(** [findOrCreateHostFor] (lines 122-246) *)
Definition findOrCreateHostFor (t : host_target) : M nat :=
  foundHost ← gets (fun w => hosts w !! t);
  match foundHost with
  | Some h => mret h
  | None =>
      h ← alloc;
      id ← addEventListener (RTarget t) (MainListener h);
      modify (upd_records <[h := Host t id 0 [] []]>);;
      modify (upd_hosts <[t := h]>);;
      mret h
  end.

(** [host.disconnect] (lines 223-229) *)
Definition disconnect (h : nat) (connectionId : string) : M unit :=
  r ← gets (fun w => records w !! h);
  match r ≫= (fun r => connection_at connectionId (connections r)) with
  | Some connection => close_connection connection
  | None => mret tt
  end.

(** The public [connect] (lines 257-278); answers the promise it returns.
    A throw in this [async] function rejects that promise. *)
Definition connect (guest : Guest) (sch : schema) : M nat :=
  promise ← alloc;
  match guest with
  | None =>
      settle_handshake promise (Rejected (error_object "a target is required"));;
      mret promise
  | Some g =>
      let hostTarget := if isWorker (Some g) then TGuest g else TWindow in
      h ← findOrCreateHostFor hostTarget;
      host_connect h guest sch (ConnectCallback h promise);;
      mret promise
  end.

(** [serve] (lines 280-303): the server's record, and one turn of
    [connectionGenerator], which waits on a new promise. *)
Definition serve (hostTarget : host_target) : M nat :=
  findOrCreateHostFor hostTarget.

Definition next_connection (server : nat) (sch : schema) : M nat :=
  promise ← alloc;
  host_connect server None sch (ServeResolve promise);;
  mret promise.

(** ** [guest.ts] *)

Definition REQUEST_INTERVAL : nat := 600.
Definition TIMEOUT_INTERVAL : nat := 3000.

(** [setInterval], [setTimeout] and [clearInterval] *)
Definition setInterval (j : timer_job) (ms : nat) : M nat :=
  id ← alloc;
  modify (fun w => upd_timers (fun l => l ++ [Timer id (now w + ms) (Some ms) j]) w);;
  mret id.

Definition setTimeout (j : timer_job) (ms : nat) : M nat :=
  id ← alloc;
  modify (fun w => upd_timers (fun l => l ++ [Timer id (now w + ms) None j]) w);;
  mret id.

Definition clearInterval (id : option nat) : M unit :=
  modify (upd_timers (filter (fun t => Some (timer_id t) ≠ id))).

(** [listeners] and [messageReceiver] of [connect] (lines 17-20). *)
Definition guest_listeners (target : endpoint) : receiver :=
  if is_service_worker target then RServiceWorkerContainer else RSelf.

Definition guest_messageReceiver (target : endpoint) : option receiver :=
  if is_service_worker target then Some RServiceWorkerContainer else None.

Definition handshake_request (methods : list string) (sch : schema) : jsval :=
  JObj [("action", JStr actions.HANDSHAKE_REQUEST);
        ("methods", JArr (map JStr methods));
        ("schema", schema_json sch)].

Definition set_connected (b : bool) (a : attempt) : attempt :=
  Attempt (attempt_schema a) (attempt_target a) (attempt_listener a)
          (interval a) b (attempt_promise a).
Definition set_interval (i : option nat) (a : attempt) : attempt :=
  Attempt (attempt_schema a) (attempt_target a) (attempt_listener a)
          i (connected a) (attempt_promise a).

(** The guards of [handleHandshakeResponse] (lines 27-28). *)
Definition accepts_reply (target : endpoint) (ev : event) : bool :=
  strict_eq (prop "action" (data ev)) (JStr actions.HANDSHAKE_REPLY)
  && bool_decide (source ev = Some target).

(** [handleHandshakeResponse] (lines 26-59) of the call of [connect] whose
    variables are at [a]. *)
Definition handleHandshakeResponse (a : nat) (ev : event) : M unit :=
  att ← gets (fun w => attempts w !! a);
  match att with
  | None => mret tt
  | Some att =>
      if negb (destructurable (data ev)) then throw "TypeError"
      else if negb (accepts_reply (attempt_target att) ev) then mret tt
      else
        let sch := attempt_schema att in
        let messageReceiver := guest_messageReceiver (attempt_target att) in
        unregisterLocal ← registerLocalMethods sch (extractMethods sch)
                            (prop "connectionID" (data ev)) messageReceiver;
        rl ← registerRemoteMethods (prop "schema" (data ev))
               (prop "methods" (data ev)) (prop "connectionID" (data ev))
               ev messageReceiver;
        modify (upd_attempts (alter (set_connected true) a));;
        let connection :=
          Connection rl.1
            (GuestClose (guest_listeners (attempt_target att))
                        (attempt_listener att) rl.2 unregisterLocal)
            JUndefined in
        settle_handshake (attempt_promise att) (Fulfilled connection)
  end.

(** The callback of [setInterval] (lines 70-79). *)
Definition retry (a : nat) : M unit :=
  att ← gets (fun w => attempts w !! a);
  match att with
  | None => mret tt
  | Some att =>
      if connected att then clearInterval (interval att)
      else
        let sch := attempt_schema att in
        let payload := handshake_request (extractMethods sch) sch in
        if is_window (attempt_target att)
        then postMessage (ViaEndpoint (attempt_target att)) payload (Some "*")
        else postMessage (ViaEndpoint (attempt_target att)) payload None
  end.

(** The callback of [setTimeout] (lines 82-86). *)
Definition timeout (a : nat) : M unit :=
  att ← gets (fun w => attempts w !! a);
  match att with
  | None => mret tt
  | Some att =>
      if negb (connected att)
      then settle_handshake (attempt_promise att)
             (Rejected (JStr "connection timeout"))
      else mret tt
  end.

(** The guest's [connect] (lines 8-88); answers the promise it returns. *)
Definition guest_connect (sch : schema) (target : endpoint) : M nat :=
  promise ← alloc;
  a ← alloc;
  id ← addEventListener (guest_listeners target) (HandleHandshakeResponse a);
  modify (upd_attempts <[a := Attempt sch target id None false promise]>);;
  i ← setInterval (RetryHandshake a) REQUEST_INTERVAL;
  modify (upd_attempts (alter (set_interval (Some i)) a));;
  setTimeout (TimeoutConnection a) TIMEOUT_INTERVAL;;
  mret promise.

(** ** The event loop *)

(** A listener called by the platform: what it throws is reported and goes
    no further. *)
Definition dispatch_to (f : handler) (ev : event) : M unit :=
  async match f with
        | HandleCall sch methodName connectionID messageReceiver =>
            handleCall sch methodName connectionID messageReceiver ev
        | HandleResponse callName connectionID callID promise =>
            handleResponse callName connectionID callID promise ev
        | MainListener h => mainListener h ev
        | HandleHandshakeResponse a => handleHandshakeResponse a ev
        end.

(** A message event arrives at [r]: the listeners subscribed when the
    dispatch starts are called in subscription order, except those removed
    in the meantime. *)
Definition deliver (r : receiver) (ev : event) : M unit :=
  subs ← gets (fun w => filter (fun s => on s = r) (subscriptions w));
  for_each subs (fun s : subscription =>
    gets (fun w => existsb (is_subscription r (handler_id s)) (subscriptions w))
    ≫= fun still : bool => if still then dispatch_to (run s) ev else mret tt).

Definition run_job (j : timer_job) : M unit :=
  async match j with
        | RetryHandshake a => retry a
        | TimeoutConnection a => timeout a
        end.

(** A timer that is due: an interval is scheduled again, a timeout is
    spent; then its callback runs. *)
Definition reschedule (t : timer) (l : list timer) : list timer :=
  match every t with
  | Some ms =>
      map (fun x => if bool_decide (timer_id x = timer_id t)
                    then Timer (timer_id x) (due x + ms) (every x) (job x)
                    else x) l
  | None => filter (fun x => timer_id x ≠ timer_id t) l
  end.

Definition fire (t : timer) : M unit :=
  gets (fun w => existsb (fun x => bool_decide (timer_id x = timer_id t))
                   (timers w))
  ≫= fun active : bool =>
       if active then modify (upd_timers (reschedule t));; run_job (job t)
       else mret tt.

(** One millisecond passes: the clock moves and the timers now due fire in
    the order they were set. *)
Definition advance : M unit :=
  modify (upd_now S);;
  l ← gets (fun w => filter (fun t => due t = now w) (timers w));
  for_each l fire.

(** What happens in a context from outside: a message event arrives, or the
    program calls [close()] on the connection a [connect] promise has
    fulfilled with. *)
Inductive input : Type :=
| Message (r : receiver) (ev : event)
| CloseConnection (promise : nat).

Definition accept (i : input) : M unit :=
  match i with
  | Message r ev => deliver r ev
  | CloseConnection promise =>
      s ← gets (fun w => handshakes w !! promise);
      match s with
      | Some (Fulfilled connection) => close_connection connection
      | _ => mret tt
      end
  end.

(** [inbox t] lists what arrives during millisecond [t]. *)
Definition millisecond (inbox : nat -> list input) : M unit :=
  advance;;
  t ← gets now;
  for_each (inbox t) accept.

Fixpoint run_for (n : nat) (inbox : nat -> list input) : M unit :=
  match n with
  | 0 => mret tt
  | S k => run_for k inbox;; millisecond inbox
  end.

(** ** What a program and its environment can do to a context *)

Inductive command : Type :=
| Connect (guest : Guest) (sch : schema)
| Serve (t : host_target)
| NextConnection (server : nat) (sch : schema)
| Disconnect (h : nat) (connectionId : string)
| Stop (h : nat) (shouldCleanupConnections : bool)
| Call (f : rpc) (args : list jsval)
| GuestConnect (sch : schema) (target : endpoint)
| Elapse
| Arrive (i : input).

Definition exec (c : command) : M unit :=
  match c with
  | Connect guest sch => connect guest sch;; mret tt
  | Serve t => serve t;; mret tt
  | NextConnection server sch => next_connection server sch;; mret tt
  | Disconnect h connectionId => disconnect h connectionId
  | Stop h shouldCleanupConnections => stop h shouldCleanupConnections
  | Call f args => call f args;; mret tt
  | GuestConnect sch target => guest_connect sch target;; mret tt
  | Elapse => advance
  | Arrive i => accept i
  end.

(** A property of the realm that no step of the program breaks survives
    every elementary change the code makes: [StableFrame] lists the changes
    outside the host records, [StableGuest] the changes of the variables of
    a guest's [connect] and of the timers, [StableSettle] the settling of a
    [connect] promise,
    [StableUnsubscribe] the removal of a listener,
    [StableRecords] and [StableConnections] the
    changes of a host record. *)
Class StableFrame (P : realm -> Prop) : Prop := {
  stable_fresh : forall w, P w -> P (upd_fresh S w);
  stable_uuids : forall f w, P w -> P (upd_uuids f w);
  stable_subscribe : forall s w,
    P w -> P (upd_subscriptions (fun l => l ++ [s]) w);
  stable_posted : forall f w, P w -> P (upd_posted f w);
  stable_arrays : forall f w, P w -> P (upd_arrays f w);
  stable_calls : forall f w, P w -> P (upd_calls f w);
  stable_invocations : forall f w, P w -> P (upd_invocations f w);
  stable_hosts : forall f w, P w -> P (upd_hosts f w);
}.

Class StableGuest (P : realm -> Prop) : Prop := {
  stable_attempts : forall f w, P w -> P (upd_attempts f w);
  stable_timers : forall f w, P w -> P (upd_timers f w);
  stable_now : forall f w, P w -> P (upd_now f w);
}.

Class StableSettle (P : realm -> Prop) : Prop := {
  stable_settle : forall p s w, P w -> P (upd_handshakes (settled p s) w);
}.

Class StableUnsubscribe (P : realm -> Prop) : Prop := {
  stable_unsubscribe : forall r id w,
    P w ->
    P (upd_subscriptions (filter (fun s => is_subscription r id s = false)) w);
}.

Class StableRecords (P : realm -> Prop) : Prop := {
  stable_pending_up : forall h w,
    P w -> P (upd_records (alter (set_pending (fun p => (p + 1)%Z)) h) w);
  stable_pending_down : forall h w,
    P w -> P (upd_records (alter (set_pending (fun p => Z.max (p - 1) 0)) h) w);
  stable_new_set : forall h guest w,
    P w ->
    P (upd_records (alter (set_listeners (fun m => m ++ [(guest, [])])) h) w);
  stable_add_listener : forall h guest id sch cb w,
    P w ->
    P (upd_records
         (alter (set_listeners
                   (in_set guest (fun ls => ls ++ [Listener id h guest sch cb])))
                h) w);
  stable_delete_listener : forall h guest l w,
    P w ->
    P (upd_records
         (alter (set_listeners
                   (in_set guest (filter (fun x => listener_id x <> listener_id l))))
                h) w);
  stable_new_host : forall h t id w,
    P w -> P (upd_records <[h := Host t id 0 [] []]> w);
}.

Class StableConnections (P : realm -> Prop) : Prop := {
  stable_connections : forall f h w,
    P w -> P (upd_records (alter (set_connections f) h) w);
}.

(** The pending listeners of a guest are where [host.connect] put them:
    under their guest, in their host record. *)
Definition listeners_wf (w : realm) : Prop :=
  forall h r g ls l,
    records w !! h = Some r -> (g, ls) ∈ connectionListeners r -> l ∈ ls ->
    listener_guest l = g /\ listener_host l = h.

(** The set of pending listeners of [guest] in the record at [h] is [ls]. *)
Definition pending_listeners (h : nat) (guest : Guest)
    (ls : list ConnectionListener) (w : realm) : Prop :=
  exists r, records w !! h = Some r
            /\ listeners_for guest (connectionListeners r) = Some ls.

Definition preserves {A} (P : realm -> Prop) (m : M A) : Prop :=
  forall w, P w -> P (after (m w)).

(** The invariant of the counter of a host record. *)
Definition pending_nonneg (w : realm) : Prop :=
  forall h r, records w !! h = Some r -> (0 <= pendingConnections r)%Z.

(** ** A guest's call of [connect] in any context *)

(** An input that is not the reply the guest waits for. *)
Definition unmatched (target : endpoint) (i : input) : Prop :=
  match i with
  | Message r ev => accepts_reply target ev = false
  | CloseConnection _ => True
  end.

(** What arrives is a message, not a call of [close()]. *)
Definition is_message (i : input) : Prop :=
  match i with Message _ _ => True | CloseConnection _ => False end.

(** A message that is not the reply the guest waits for. *)
Definition other_message (target : endpoint) (i : input) : Prop :=
  is_message i /\ unmatched target i.

(** A computation that never throws. *)
Definition completes {A} (m : M A) : Prop :=
  forall w, exists a, m w = Ok a (after (m w)).

(** A settled promise stays as it is. *)
Definition settled_as (p : nat) (s : settlement IConnection) (w : realm)
  : Prop :=
  handshakes w !! p = Some s.

(** Whether the reply listener, and the retry timer, of the call of
    [connect] whose variables are at [a] are still there. *)
Definition listening (a : nat) (w : realm) : bool :=
  existsb (fun s => match run s with
                    | HandleHandshakeResponse a' => bool_decide (a' = a)
                    | _ => false
                    end) (subscriptions w).

Definition retrying (a : nat) (w : realm) : bool :=
  existsb (fun t => match job t with
                    | RetryHandshake a' => bool_decide (a' = a)
                    | _ => false
                    end) (timers w).

(** The promise a callback of [host.connect] settles. *)
Definition callback_promise (cb : callback) : nat :=
  match cb with ConnectCallback _ p | ServeResolve p => p end.

(** The timer of [setTimeout] in the call of [connect] at [a]. *)
Definition timeout_timer (a i T : nat) : timer :=
  Timer i T None (TimeoutConnection a).

(** At millisecond [k] the call of the guest's [connect] with its variables
    at [a] and its promise at [p] has had no reply: it is not connected, the
    promise is pending and no other closure holds it, and the timeout [i]
    is set for [T]. *)
Record awaiting (target : endpoint) (p a i T k : nat) (w : realm) : Prop := {
  aw_now : now w = k;
  aw_attempt : exists att,
    attempts w !! a = Some att /\ connected att = false
    /\ attempt_promise att = p /\ attempt_target att = target;
  aw_promise : handshakes w !! p = None;
  aw_others : forall a' att',
    attempts w !! a' = Some att' ->
    interval att' <> Some i /\ (a' <> a -> attempt_promise att' <> p);
  aw_callbacks : forall h r g ls l,
    records w !! h = Some r -> (g, ls) ∈ connectionListeners r -> l ∈ ls ->
    callback_promise (listener_callback l) <> p;
  aw_timer : forall t,
    t ∈ timers w -> timer_id t = i \/ job t = TimeoutConnection a ->
    t = timeout_timer a i T;
  aw_timer_set : timeout_timer a i T ∈ timers w;
}.

(** Another timer than the timeout [i] of the call at [a]. *)
Definition other_timer (a i : nat) (t : timer) : Prop :=
  timer_id t <> i /\ job t <> TimeoutConnection a.

(** The attempt a timer's callback closes over. *)
Definition job_attempt (j : timer_job) : nat :=
  match j with RetryHandshake a | TimeoutConnection a => a end.

(** The addresses in use in [w] are below [G], the promises of the pending
    listeners' callbacks below [F]. *)
Definition bounded (F G : nat) (w : realm) : Prop :=
  map_Forall (fun p _ => p < G) (handshakes w)
  /\ map_Forall (fun _ att =>
                   attempt_promise att < G
                   /\ from_option (fun j => j < G) True (interval att))
                (attempts w)
  /\ map_Forall (fun _ r =>
                   Forall (fun gl =>
                             Forall (fun l => callback_promise
                                                (listener_callback l) < F)
                                    gl.2)
                          (connectionListeners r))
                (records w)
  /\ Forall (fun t => timer_id t < G /\ job_attempt (job t) < G) (timers w).

(** The addresses in use are below the next address to be given out. *)
Definition allocated (w : realm) : Prop := bounded (fresh w) (fresh w) w.

(** The addresses in use have been allocated, the pending listeners before
    address [F]. *)
Definition allocated_from (F : nat) (w : realm) : Prop :=
  F <= fresh w /\ bounded F (fresh w) w.

(** Address [q] has been allocated. *)
Definition below (q : nat) (w : realm) : Prop := q < fresh w.

(** Two invariants at once. *)
Definition both (P Q : realm -> Prop) (w : realm) : Prop := P w /\ Q w.

(** The context [guest_connect] leaves: the promise is at the first new
    address, then the variables of the call, the listener, the interval and
    the timeout. *)
Definition called (sch : schema) (target : endpoint) (w : realm) : realm :=
  let p := fresh w in
  Realm (uuids w) (5 + p)
    (subscriptions w ++
     [Subscription (guest_listeners target) (2 + p)
        (HandleHandshakeResponse (1 + p))])
    (posted w) (arrays w) (calls w) (invocations w) (hosts w) (records w)
    (handshakes w)
    (alter (set_interval (Some (3 + p))) (1 + p)
       (<[1 + p := Attempt sch target (2 + p) None false p]> (attempts w)))
    ((timers w ++
      [Timer (3 + p) (now w + REQUEST_INTERVAL) (Some REQUEST_INTERVAL)
         (RetryHandshake (1 + p))]) ++
     [timeout_timer (1 + p) (4 + p) (now w + TIMEOUT_INTERVAL)])
    (now w).

(** The listener [s] is subscribed. *)
Definition subscribed (s : subscription) (w : realm) : Prop :=
  s ∈ subscriptions w.

(** A receiver that is not the target of a host record, as [self] and
    [navigator.serviceWorker], on which a guest's [connect] listens:
    [host.stop()] takes a listener away from the record's target only. *)
Definition guest_receiver (r : receiver) : Prop :=
  forall t, r <> RTarget t.

(** The call of the guest's [connect] with its variables at [a] has had no
    reply and its interval [j] is running: it is not connected, no other
    call holds [j], and the timers called [j] are that interval. *)
Record retrying_for (target : endpoint) (a j : nat) (w : realm) : Prop := {
  rt_attempt : exists att,
    attempts w !! a = Some att /\ connected att = false
    /\ attempt_target att = target;
  rt_others : forall a' att',
    attempts w !! a' = Some att' -> a' <> a -> interval att' <> Some j;
  rt_interval : forall t,
    t ∈ timers w -> timer_id t = j ->
    every t <> None /\ job t = RetryHandshake a;
  rt_timer : exists t, t ∈ timers w /\ timer_id t = j;
}.

(** A timer that is not a timeout called [j]. *)
Definition no_timeout (j : nat) (t : timer) : Prop :=
  timer_id t = j -> every t <> None.

(** The timers are [l]. *)
Definition timers_are (l : list timer) (w : realm) : Prop := timers w = l.

(** ** Listeners, connections and timers, for the statements about them *)

(** The listeners subscribed in [w] were given addresses below the next
    address to be given out. *)
Definition listeners_allocated (w : realm) : Prop :=
  Forall (fun s => handler_id s < fresh w) (subscriptions w).

(** The thunk that unsubscribes [s]. *)
Definition thunk (s : subscription) : unsubscribe := (on s, handler_id s).

(** The listeners [subs] have addresses from [n] on. *)
Definition allocated_since (n : nat) (subs : list subscription) : Prop :=
  Forall (fun s => n <= handler_id s) subs.

(** Calls made through proxies, one after the other. *)
Definition call_each (cs : list (rpc * list jsval)) : M unit :=
  for_each cs (fun fa => call fa.1 fa.2;; mret tt).

(** The [listeners] array that [close()] of a connection empties. *)
Definition connection_listeners (c : IConnection) : nat :=
  match close c with
  | HostClose listeners _ _ _ => listeners
  | GuestClose _ _ listeners _ => listeners
  end.

(** [f] is a proxy over the [listeners] array of the connection [c], as
    each proxy that [registerRemoteMethods] made for [c] is: every call
    through it pushes the thunk of its response listener there. *)
Definition proxy_of (c : IConnection) (f : rpc) : Prop :=
  rpc_listeners f = connection_listeners c.

(** The entry [kc] of the [connections] of the host at [h] is a connection
    that host negotiated, filed under its own identifier. *)
Definition owned_by (h : nat) (kc : string * IConnection) : Prop :=
  exists L locals, close kc.2 = HostClose L locals h kc.1.

(** The [connections] object of a record: one entry per identifier. *)
Definition connections_wf (h : nat) (r : host) : Prop :=
  NoDup (map fst (connections r)) /\ Forall (owned_by h) (connections r).

(** Whether [close()] of the connection [c] unsubscribes [s] in [w]. *)
Definition closes (c : IConnection) (w : realm) (s : subscription) : bool :=
  match close c with
  | HostClose L locals _ _ =>
      unsubscribed (default [] (arrays w !! L)) s || unsubscribed locals s
  | GuestClose r id L locals =>
      is_subscription r id s
      || unsubscribed (default [] (arrays w !! L)) s || unsubscribed locals s
  end.

(** The request a guest posts. *)
Definition request_post (sch : schema) (target : endpoint) : post :=
  Post (ViaEndpoint target) (handshake_request (extractMethods sch) sch)
    (if is_window target then Some "*" else None).

(** A guest that nobody answers, [n] milliseconds after its call of
    [connect] at [t0]: the interval has ticked every [R] milliseconds. *)
Record unanswered (sch : schema) (target : endpoint) (p t0 R T n : nat)
    (w0 w : realm) : Prop := {
  un_now : now w = t0 + n;
  un_attempt :
    attempts w !! (1 + p)
    = Some (Attempt sch target (2 + p) (Some (3 + p)) false p);
  un_timers :
    timers w
    = Timer (3 + p) (t0 + R * S (n / R)) (Some R) (RetryHandshake (1 + p))
      :: (if bool_decide (n < T)
          then [timeout_timer (1 + p) (4 + p) (t0 + T)] else []);
  un_promise :
    handshakes w !! p
    = if bool_decide (n < T) then None
      else Some (Rejected (JStr "connection timeout"));
  un_posted : posted w = posted w0 ++ repeat (request_post sch target) (n / R);
}.

(** ** Messages and timers in the event loop, for the statements about them *)


(** Whether the timer [t] is called [j] or runs the retry of the call of
    [connect] at [a]. *)
Definition ticks (a j : nat) (t : timer) : bool :=
  bool_decide (timer_id t = j)
  || match job t with
     | RetryHandshake a' => bool_decide (a' = a)
     | TimeoutConnection _ => false
     end.

(** The interval that [connect] sets for the call at [a], due at [d]. *)
Definition tick_timer (a j d : nat) : timer :=
  Timer j d (Some REQUEST_INTERVAL) (RetryHandshake a).

(** At millisecond [k] the call of the guest's [connect] at [a] holds the
    interval [j], no other call holds it, and the timers that are called
    [j] or retry the handshake of [a] are [l]; when [c] is set, the call is
    connected. *)
Record interval_state (target : endpoint) (a j : nat) (l : list timer)
    (c : bool) (k : nat) (w : realm) : Prop := {
  is_now : now w = k;
  is_attempt : exists att,
    attempts w !! a = Some att /\ interval att = Some j
    /\ attempt_target att = target /\ (c = true -> connected att = true);
  is_others : forall a' att',
    attempts w !! a' = Some att' -> a' <> a -> interval att' <> Some j;
  is_timers : filter (fun t => ticks a j t = true) (timers w) = l;
}.

(** At millisecond [k] the interval [j] of the call of [connect] at [a] is
    running, due within the next [REQUEST_INTERVAL] milliseconds, or the
    call is connected and the interval has been cleared. *)
Definition armed (target : endpoint) (a j k : nat) (w : realm) : Prop :=
  (exists d, k < d <= k + REQUEST_INTERVAL
             /\ interval_state target a j [tick_timer a j d] false k w)
  \/ interval_state target a j [] true k w.

(** At millisecond [k] the call of [connect] at [a] is connected and its
    interval [j] is due by millisecond [B], or has been cleared. *)
Definition releasing (target : endpoint) (a j B k : nat) (w : realm) : Prop :=
  (exists d, k < d <= B
             /\ interval_state target a j [tick_timer a j d] true k w)
  \/ interval_state target a j [] true k w.

(** A guest that has been answered, [n] milliseconds after its call of
    [connect] at [t0] while nothing else arrives: the promise is fulfilled
    with [c], nothing has been posted since [w0], the interval goes with its
    first tick and the timeout when it is due. *)
Record answered (sch : schema) (target : endpoint) (p t0 : nat)
    (c : IConnection) (n : nat) (w0 w : realm) : Prop := {
  an_now : now w = t0 + n;
  an_attempt :
    attempts w !! (1 + p)
    = Some (Attempt sch target (2 + p) (Some (3 + p)) true p);
  an_timers :
    timers w
    = (if bool_decide (n < REQUEST_INTERVAL)
       then [tick_timer (1 + p) (3 + p) (t0 + REQUEST_INTERVAL)] else [])
      ++ (if bool_decide (n < TIMEOUT_INTERVAL)
          then [timeout_timer (1 + p) (4 + p) (t0 + TIMEOUT_INTERVAL)] else []);
  an_promise : handshakes w !! p = Some (Fulfilled c);
  an_posted : posted w = posted w0;
}.

End Model.

Arguments Ok {C A} a w.
Arguments Thrown {C A} error w.

(** ** A concrete context, for the examples *)

Module Demo.

(** A flat schema: paths and the functions bound there. *)
Definition flat_schema : Type := list (string * (list jsval -> outcome)).

Fixpoint lookup_path (sch : flat_schema) (path : string)
  : option (list jsval -> outcome) :=
  match sch with
  | [] => None
  | (k, f) :: rest => if bool_decide (k = path) then Some f else lookup_path rest path
  end.

(** A flat object: property names and what they hold, a value of the remote
    schema or a proxy.  [put] sets the proxy under a name, over what was
    there; a name is one property, never a path through nested objects. *)
Definition flat_remote : Type := list (string * (jsval + rpc)).

Definition own_properties (v : jsval) : flat_remote :=
  match v with
  | JObj kvs => map (fun kv => (kv.1, inl kv.2)) kvs
  | _ => []
  end.

Fixpoint put_at (o : flat_remote) (name : string) (f : rpc) : flat_remote :=
  match o with
  | [] => [(name, inr f)]
  | (k, x) :: rest =>
      if bool_decide (k = name) then (k, inr f) :: rest
      else (k, x) :: put_at rest name f
  end.

Definition put (o : flat_remote) (name : jsval) (f : rpc) : flat_remote :=
  match name with
  | JStr k => put_at o k f
  | _ => o
  end.

#[global] Instance collaborators : Collaborators := {|
  schema := flat_schema;
  get := lookup_path;
  extractMethods := map fst;
  schema_json := fun _ => JObj [];
  isTrustedRemote := fun _ => true;
  isWorker := fun g => match g with Some (GWorker _) => true | _ => false end;
  getOriginFromURL := fun url => url;
  uuidv4 := fun n => "uuid-" +:+ pretty n;
  remote_object := flat_remote;
  spread_object := own_properties;
  set := put;
|}.

(** [add(a, b)] on numbers. *)
Definition add (args : list jsval) : outcome :=
  match args with
  | JNum a :: JNum b :: _ => Returned (JNum (a + b))
  | _ => Returned JNaN
  end.

(** A function that rejects with [undefined], as [Promise.reject()] does. *)
Definition reject_undefined (args : list jsval) : outcome := Threw JUndefined.

Definition demo_schema : @schema collaborators :=
  [("add", add); ("fail", reject_undefined)].

(** The parent window of a guest and an iframe of a host. *)
Definition parent : endpoint := EWindow 0.
Definition child : endpoint := EWindow 1.
Definition child_frame : iframe := IFrame 1 (Some "https://guest.example") (Some child).

Definition message (d : jsval) (s : endpoint) (o : string) : event :=
  Event d (Some s) o.

(** Two call requests as a proxy of the peer sends them. *)
Definition call_add : event :=
  message (request_payload [JNum 2; JNum 3] "call-1" (JStr "add") (JStr "uuid-0"))
          parent "https://host.example".

(** The handshake reply a guest's proxies close over, a request of such a
    proxy as the host receives it, and the host's answer. *)
Definition reply_event : event :=
  message (handshake_reply "conn-1" ["add"] demo_schema) parent
          "https://host.example".


Definition add_resolved : event :=
  message (resolve_payload (JStr "uuid-0") (JStr "add") (JStr "conn-1") JNull
             (JNum 5))
          parent "https://host.example".

(** A handshake request from the guest's window, and one that claims
    another origin. *)
Definition guest_request : event :=
  message (handshake_request ["add"] demo_schema) child "https://guest.example".

Definition stray_request : event :=
  message (handshake_request ["add"] demo_schema) child "https://evil.example".

Definition call_fail : event :=
  message (request_payload [] "call-1" (JStr "fail") (JStr "uuid-0")) parent
          "https://host.example".

(** A handshake reply that comes from another window than the guest's
    target, and a run in which one arrives every millisecond. *)
Definition stray_reply : event :=
  message (handshake_reply "conn-1" ["add"] demo_schema) child
          "https://host.example".

Definition strays (t : nat) : list input := [Message RSelf stray_reply].

(** A guest that has called [connect] a millisecond ago and has had a
    stray reply. *)
Definition earlier : list command :=
  [GuestConnect demo_schema parent; Elapse;
   Arrive (Message RSelf stray_reply)].

(** A run in which the target answers the first request at once. *)
Definition answered (t : nat) : list input :=
  if bool_decide (t = 1) then [Message RSelf reply_event] else [].





Definition orphan_call : event :=
  Event (data call_add) None "https://host.example".

(** A context in which a host listens on the window; the same context once
    the host has served the guest's request; the proxy of [add] of that
    connection. *)
Definition listening_host : realm :=
  after (findOrCreateHostFor TWindow empty_realm).

Definition connected_host : realm :=
  after (negotiateConnection (Some (GIframe child_frame)) 0 None demo_schema
           guest_request listening_host).

Definition add_proxy : rpc :=
  Rpc (JStr "add") (JStr "uuid-0") guest_request 4 None.

(** A guest that has called [connect] and waits; the request it posts, the
    reply of a host that drew the identifier "uuid-0", and a reply whose
    [methods] is no array. *)
Definition waiting_guest : realm :=
  after (guest_connect demo_schema parent empty_realm).

Definition waiting : attempt := Attempt demo_schema parent 2 (Some 3) false 0.

Definition full_request : event :=
  message (handshake_request ["add"; "fail"] demo_schema) child
          "https://guest.example".

Definition full_reply : event :=
  message (handshake_reply "uuid-0" ["add"; "fail"] demo_schema) parent
          "https://host.example".

Definition bad_reply : event :=
  message (JObj [("action", JStr actions.HANDSHAKE_REPLY);
                 ("connectionID", JStr "conn-1");
                 ("methods", JStr "add")])
          parent "https://host.example".

(** A host on a service-worker scope that has served the request of a
    client, and a call of [add] by that client. *)
Definition client : endpoint := EClient "client-1".

Definition worker_host : realm :=
  after ((h ← findOrCreateHostFor TServiceWorkerGlobalScope;
          negotiateConnection None h (Some (RAdapter h)) demo_schema
            (message (handshake_request [] []) client "https://guest.example"))
           empty_realm).

Definition client_call : event :=
  message (request_payload [JNum 2; JNum 3] "call-1" (JStr "add") (JStr "uuid-0"))
          client "https://guest.example".



End Demo.

(** ** The claims as the specification words them

    Sentences of the specification stated as they are written, to be
    compared with what the code does. *)

Section Statements.
Context `{C : Collaborators}.

(** The conditions under which [handleCall] answers a message. *)
Definition call_conditions (methodName : string) (connectionID : jsval)
    (ev : event) : Prop :=
  strict_eq (prop "action" (data ev)) (JStr actions.RPC_REQUEST) = true
  /\ isTrustedRemote ev = true
  /\ truthy (prop "callID" (data ev)) = true
  /\ truthy (prop "callName" (data ev)) = true
  /\ strict_eq (prop "callName" (data ev)) (JStr methodName) = true
  /\ strict_eq (prop "connectionID" (data ev)) connectionID = true.

(** "The bound function is invoked and a response is sent if and only if"
    the conditions hold. *)
Definition filtering_as_specified (sch : schema) (methodName : string)
    (connectionID : jsval) (messageReceiver : option receiver) (ev : event)
    (w : realm) : Prop :=
  let w' := after (handleCall sch methodName connectionID messageReceiver ev w) in
  (invocations w' <> invocations w /\ posted w' <> posted w)
  <-> call_conditions methodName connectionID ev.

(** "Once a matching resolve or reject response settles the pending call,
    that listener is removed from the message channel": [w] is the realm in
    which the proxy is called, [response] the event delivered next. *)
Definition one_shot_as_specified (callName connectionID : jsval)
    (ev0 : event) (L : nat) (mr : option receiver) (args : list jsval)
    (response : event) (w : realm) : Prop :=
  let w1 := after (createRPC callName connectionID ev0 L mr args w) in
  let w2 := after (deliver (default RSelf mr) response w1) in
  is_Some (calls w2 !! fresh w) ->
  existsb (is_subscription (default RSelf mr) (S (fresh w))) (subscriptions w2)
  = false.

(** What one handshake request [ev] does for two callers of [connect] on
    the same guest [g], called in the context [w0]: the two promises are
    pending, two listeners wait in the guest's set and the main listener of
    the host is subscribed on the target; when the event loop delivers [ev]
    to the target, each promise is fulfilled with its own connection, the
    connections and their identifiers differ, the set is empty and the
    connection map holds the two connections. *)
Definition two_connections (g : guest_target) (s1 s2 : schema) (ev : event)
    (w0 : realm) : Prop :=
  let t := if isWorker (Some g) then TGuest g else TWindow in
  exists p1 p2 h id w l1 l2,
    (p1 ← connect (Some g) s1; p2 ← connect (Some g) s2; mret (p1, p2)) w0
    = Ok (p1, p2) w
    /\ p1 <> p2
    /\ handshakes w !! p1 = None /\ handshakes w !! p2 = None
    /\ listener_callback l1 = ConnectCallback h p1
    /\ listener_callback l2 = ConnectCallback h p2
    /\ pending_listeners h (Some g) [l1; l2] w
    /\ hosts w !! t = Some h
    /\ subscriptions w
       = subscriptions w0 ++ [Subscription (RTarget t) id (MainListener h)]
    /\ exists w' c1 c2 a1 b1 id1 a2 b2 id2,
         deliver (RTarget t) ev w = Ok tt w'
         /\ handshakes w' !! p1 = Some (Fulfilled c1)
         /\ handshakes w' !! p2 = Some (Fulfilled c2)
         /\ close c1 = HostClose a1 b1 h id1
         /\ close c2 = HostClose a2 b2 h id2
         /\ id1 <> id2
         /\ c1 <> c2
         /\ pending_listeners h (Some g) [] w'
         /\ connections <$> records w' !! h = Some [(id1, c1); (id2, c2)].

(** [messageReceiver && messageReceiver.postMessage] *)
Definition adapter_postMessage (messageReceiver : option receiver) : bool :=
  match messageReceiver with
  | Some r => has_postMessage r
  | None => false
  end.

(** "The retry timer and listener are only released on explicit close()":
    for the first call of the guest's [connect] in a context, whose
    variables are at address 1, a run in which one of them is gone has had
    a call of [close()]. *)
Definition closed_during (inbox : nat -> list input) (n : nat) : Prop :=
  exists t p, t <= n /\ CloseConnection p ∈ inbox t.

Definition released_only_by_close (sch : schema) (target : endpoint) : Prop :=
  forall inbox n,
    let w := after ((guest_connect sch target;; run_for n inbox) empty_realm) in
    listening 1 w = false \/ retrying 1 w = false -> closed_during inbox n.


End Statements.

(** * Properties *)

#[global] Instance demo_uuid_fresh : @UuidFresh Demo.collaborators.
Proof.
  split.
  - intros m n H. simpl in H. by simplify_eq.
  - intros n. by simpl.
Qed.




Section Rpc_properties.
Context `{C : Collaborators}.

(** Running a computation that is a sequence. *)
Lemma bind_ok {A B} (m : M A) (k : A -> M B) w a w' :
  m w = Ok a w' -> (m ≫= k) w = k a w'.
Proof. intros H. unfold mbind, M_bind. by rewrite H. Qed.

Lemma bind_thrown {A B} (m : M A) (k : A -> M B) w e w' :
  m w = Thrown e w' -> (m ≫= k) w = Thrown e w'.
Proof. intros H. unfold mbind, M_bind. by rewrite H. Qed.

Lemma bind_gets {A B} (f : realm -> A) (k : A -> M B) w :
  (gets f ≫= k) w = k (f w) w.
Proof. reflexivity. Qed.

(** The guards of [handleCall], one by one. *)
Lemma accepts_call_spec methodName connectionID ev :
  accepts_call methodName connectionID ev = true <->
  call_conditions methodName connectionID ev.
Proof. unfold accepts_call, call_conditions. rewrite !andb_true_iff. tauto. Qed.

(** A message that passes the guards has data that can be destructured. *)
Lemma accepts_call_destructurable methodName connectionID ev :
  accepts_call methodName connectionID ev = true ->
  destructurable (data ev) = true.
Proof.
  rewrite accepts_call_spec. intros (Ha & _).
  by destruct (data ev).
Qed.

(** [run_method] changes the realm only by logging the invocation, and it
    invokes the function exactly when the arguments spread and the path holds
    a function. *)
Lemma run_method_after sch methodName args w :
  after (run_method sch methodName args w) =
  match spread args, get sch methodName with
  | Some xs, Some _ => upd_invocations (fun l => l ++ [(methodName, xs)]) w
  | _, _ => w
  end.
Proof.
  unfold run_method, caught.
  destruct (spread args) as [xs|]; [|by destruct (clone_error _)].
  destruct (get sch methodName) as [f|]; [|by destruct (clone_error _)].
  unfold mbind, M_bind, modify. simpl.
  destruct (f xs) as [v|e]; [destruct (json_clone v)|];
    by try destruct (clone_error _).
Qed.

Lemma run_method_returned sch methodName args xs f v v' w :
  spread args = Some xs -> get sch methodName = Some f ->
  f xs = Returned v -> json_clone v = Some v' ->
  run_method sch methodName args w =
  Ok (v', JNull) (upd_invocations (fun l => l ++ [(methodName, xs)]) w).
Proof.
  intros Hs Hg Hf Hj. unfold run_method. rewrite Hs, Hg.
  unfold mbind, M_bind, modify. simpl. by rewrite Hf, Hj.
Qed.

Lemma run_method_threw sch methodName args xs f e e' w :
  spread args = Some xs -> get sch methodName = Some f ->
  f xs = Threw e -> clone_error e = Some e' ->
  run_method sch methodName args w =
  Ok (JNull, e') (upd_invocations (fun l => l ++ [(methodName, xs)]) w).
Proof.
  intros Hs Hg Hf Hj. unfold run_method. rewrite Hs, Hg.
  unfold mbind, M_bind, modify, caught. simpl. by rewrite Hf, Hj.
Qed.

(** A message that fails a guard is ignored. *)
Lemma handleCall_ignores sch methodName connectionID mr ev w :
  accepts_call methodName connectionID ev = false ->
  after (handleCall sch methodName connectionID mr ev w) = w.
Proof.
  intros H. unfold handleCall. rewrite H.
  by destruct (destructurable (data ev)).
Qed.

(** A message that passes them reaches the [try] block. *)
Lemma handleCall_accepts sch methodName connectionID mr ev w :
  accepts_call methodName connectionID ev = true ->
  handleCall sch methodName connectionID mr ev w =
  (re ← run_method sch methodName (call_args ev);
   match response_channel mr ev with
   | Some (c, o) =>
       postMessage c
         (resolve_payload (prop "callID" (data ev)) (prop "callName" (data ev))
            (prop "connectionID" (data ev)) re.2 re.1) o
   | None => throw "TypeError"
   end) w.
Proof.
  intros H. unfold handleCall.
  by rewrite (accepts_call_destructurable _ _ _ H), H.
Qed.

(** What the guards of [handleCall] do for the listener registered for
    path [methodName] under connection identifier [connectionID]: the bound
    function is invoked or a response is sent only if the message is a call
    request, passes [isTrustedRemote], carries a truthy call identifier and
    method name, names [methodName] and carries [connectionID]; a message
    failing one of these conditions is ignored, with no response and no
    change of state; and a message meeting them, whose arguments spread to a
    list, for a path that holds a function whose thrown value (if it throws)
    can be serialised, and whose source can be answered, has the function
    invoked on those arguments and exactly one response sent. *)
Lemma handleCall_filters sch methodName connectionID mr ev w :
  let w' := after (handleCall sch methodName connectionID mr ev w) in
  ((invocations w' <> invocations w \/ posted w' <> posted w) ->
   call_conditions methodName connectionID ev)
  /\ (~ call_conditions methodName connectionID ev -> w' = w)
  /\ (call_conditions methodName connectionID ev ->
      forall f xs c o,
        get sch methodName = Some f ->
        spread (call_args ev) = Some xs ->
        (forall e, f xs = Threw e -> is_Some (clone_error e)) ->
        response_channel mr ev = Some (c, o) ->
        invocations w' = invocations w ++ [(methodName, xs)]
        /\ exists error result,
             posted w' =
             posted w ++
               [Post c (resolve_payload (prop "callID" (data ev))
                          (prop "callName" (data ev))
                          (prop "connectionID" (data ev)) error result) o]).
Proof.
  intros w'. split; [|split].
  - intros H. apply accepts_call_spec.
    destruct (accepts_call methodName connectionID ev) eqn:E; [done|].
    unfold w' in H. rewrite handleCall_ignores in H by done. tauto.
  - intros H. apply handleCall_ignores.
    destruct (accepts_call methodName connectionID ev) eqn:E; [|done].
    by apply accepts_call_spec in E.
  - intros H f xs c o Hg Hs He Hc. apply accepts_call_spec in H.
    unfold w'. rewrite handleCall_accepts by done.
    assert (exists re, run_method sch methodName (call_args ev) w =
              Ok re (upd_invocations (fun l => l ++ [(methodName, xs)]) w))
      as [re Hre].
    { destruct (f xs) as [v|e] eqn:Hf.
      - destruct (json_clone v) as [v'|] eqn:Hv.
        + eexists. by eapply run_method_returned.
        + unfold run_method. rewrite Hs, Hg.
          unfold mbind, M_bind, modify. simpl. rewrite Hf, Hv.
          by eexists.
      - destruct (He e eq_refl) as [e' He'].
        eexists. by eapply run_method_threw. }
    rewrite (bind_ok _ _ _ _ _ Hre), Hc. simpl.
    split; [done|]. by do 2 eexists.
Qed.



(** What one call of a proxy does. *)
Lemma createRPC_run callName connectionID ev listeners mr args w :
  createRPC callName connectionID ev listeners mr args w =
  Ok (fresh w)
     (let callID := uuidv4 (uuids w) in
      let r := default RSelf mr in
      let id := S (fresh w) in
      let w1 :=
        upd_arrays (fun m => <[listeners := default [] (m !! listeners) ++ [(r, id)]]> m)
          (upd_subscriptions
             (fun l => l ++ [Subscription r id
                               (HandleResponse callName connectionID callID (fresh w))])
             (upd_fresh S (upd_uuids S (upd_fresh S w)))) in
      match request_channel mr ev with
      | Some (c, o) =>
          upd_posted
            (fun l => l ++ [Post c (request_payload args callID callName connectionID) o])
            w1
      | None => w1
      end).
Proof.
  unfold createRPC, alloc, uuid, addEventListener, push, postMessage, modify,
    mbind, M_bind, mret, M_ret. simpl.
  by destruct (request_channel mr ev) as [[c o]|].
Qed.


Lemma accepts_response_destructurable callName connectionID callID ev :
  accepts_response callName connectionID callID ev = true ->
  destructurable (data ev) = true.
Proof.
  unfold accepts_response. rewrite !andb_true_iff.
  intros ((((_ & H & _) & _) & _) & _). by destruct (data ev).
Qed.

Lemma settle_call_after p s w :
  after (settle_call p s w) =
  match calls w !! p with
  | Some _ => w
  | None => upd_calls <[p := s]> w
  end.
Proof.
  unfold settle_call, modify. simpl. destruct w as [? ? ? ? ? cs ? ? ? ? ? ? ?].
  unfold upd_calls, settled. simpl. by destruct (cs !! p).
Qed.

(** What [handleResponse] does to the realm. *)
Lemma handleResponse_after callName connectionID callID p ev w :
  after (handleResponse callName connectionID callID p ev w) =
  if accepts_response callName connectionID callID ev then
    match response_settlement ev, calls w !! p with
    | Some s, None => upd_calls <[p := s]> w
    | _, _ => w
    end
  else w.
Proof.
  unfold handleResponse, response_settlement.
  destruct (accepts_response callName connectionID callID ev) eqn:E.
  - rewrite (accepts_response_destructurable _ _ _ _ E). simpl.
    destruct (strict_eq (prop "action" (data ev)) (JStr actions.RPC_RESOLVE)).
    { rewrite settle_call_after. by destruct (calls w !! p). }
    destruct (strict_eq (prop "action" (data ev)) (JStr actions.RPC_REJECT)).
    { rewrite settle_call_after. by destruct (calls w !! p). }
    done.
  - by destruct (destructurable (data ev)).
Qed.



Lemma filter_all {A} (P : A -> Prop) `{!forall x, Decision (P x)} (l : list A) :
  (forall x, P x) -> filter P l = l.
Proof.
  intros HP. induction l as [|x l IH]; [done|].
  by rewrite filter_cons_True, IH.
Qed.

Lemma filter_none {A} (P : A -> Prop) `{!forall x, Decision (P x)} (l : list A) :
  (forall x, x ∈ l -> ~ P x) -> filter P l = [].
Proof.
  intros HP. induction l as [|x l IH]; [done|].
  rewrite filter_cons_False by (apply HP; left).
  apply IH. intros y Hy. apply HP. by right.
Qed.

Lemma filter_keep {A} (P : A -> Prop) `{!forall x, Decision (P x)} (l : list A) :
  (forall x, x ∈ l -> P x) -> filter P l = l.
Proof.
  intros HP. induction l as [|x l IH]; [done|].
  rewrite filter_cons_True by (apply HP; left).
  f_equal. apply IH. intros y Hy. apply HP. by right.
Qed.

Lemma filter_iff_in {A} (P Q : A -> Prop) `{!forall x, Decision (P x)}
    `{!forall x, Decision (Q x)} (l : list A) :
  (forall x, x ∈ l -> P x <-> Q x) -> filter P l = filter Q l.
Proof.
  intros HPQ. induction l as [|x l IH]; [done|].
  assert (filter P l = filter Q l) as IH'.
  { apply IH. intros y Hy. apply HPQ. by right. }
  destruct (decide (P x)) as [HP|HP].
  - rewrite !filter_cons_True; [by rewrite IH'|by apply HPQ; [left|]|done].
  - rewrite !filter_cons_False; [done| |done].
    intros HQ. apply HP. apply HPQ; [left|done].
Qed.

Lemma filter_map_fixed {A} (P : A -> Prop) `{!forall x, Decision (P x)}
    (g : A -> A) (l : list A) :
  (forall x, x ∈ l -> P (g x) <-> P x) ->
  (forall x, x ∈ l -> P x -> g x = x) ->
  filter P (map g l) = filter P l.
Proof.
  intros Hiff Hfix. induction l as [|x l IH]; [done|]. cbn [map].
  assert (filter P (map g l) = filter P l) as IH'.
  { apply IH; intros y Hy; [apply Hiff|apply Hfix]; by right. }
  destruct (decide (P x)) as [HP|HP].
  - rewrite (Hfix x) by (done || left).
    by rewrite !filter_cons_True, IH' by done.
  - rewrite !filter_cons_False; [done|done|].
    intros HP'. apply HP. apply Hiff; [left|done].
Qed.

Lemma filter_map_comm {A} (P : A -> Prop) `{!forall x, Decision (P x)}
    (g : A -> A) (l : list A) :
  (forall x, P (g x) <-> P x) ->
  filter P (map g l) = map g (filter P l).
Proof.
  intros Hiff. induction l as [|x l IH]; [done|]. cbn [map].
  destruct (decide (P x)) as [HP|HP].
  - rewrite !filter_cons_True by (done || by apply Hiff). cbn [map].
    by rewrite IH.
  - rewrite !filter_cons_False; [done|done|].
    intros HP'. apply HP. by apply Hiff.
Qed.

Lemma unregister_subscriptions l w :
  subscriptions (after (unregister l w)) =
  filter (fun s => unsubscribed l s = false) (subscriptions w).
Proof.
  revert w. induction l as [|[r id] l IH]; intros w.
  - simpl. symmetry. by apply filter_all.
  - unfold unregister in *. simpl.
    unfold mbind, M_bind, removeEventListener, modify. simpl.
    rewrite IH. destruct w. simpl.
    rewrite list_filter_filter. apply list_filter_iff.
    intros s. unfold unsubscribed. simpl.
    destruct (is_subscription r id s); simpl; intuition congruence.
Qed.

Lemma unregisterRemote_subscriptions L w :
  subscriptions (after (unregisterRemote L w)) =
  filter (fun s => unsubscribed (default [] (arrays w !! L)) s = false)
         (subscriptions w).
Proof.
  unfold unregisterRemote, mbind, M_bind, gets.
  apply unregister_subscriptions.
Qed.

(** C6, as amended.  The response listener of a proxy call stays registered:
    [handleResponse] never changes the subscriptions, whether the message
    matches or not.  A message that does not match all correlation fields is
    ignored; a matching resolve or reject response settles the pending call;
    a promise that has settled is left as it is.  The listener, registered
    by the call, is removed when the connection's [unregisterRemote] runs. *)
Theorem response_listener_stays callName connectionID callID p ev w :
  let w' := after (handleResponse callName connectionID callID p ev w) in
  subscriptions w' = subscriptions w
  /\ (accepts_response callName connectionID callID ev = false -> w' = w)
  /\ (is_Some (calls w !! p) -> w' = w)
  /\ (accepts_response callName connectionID callID ev = true ->
      calls w !! p = None ->
      forall s, response_settlement ev = Some s -> calls w' !! p = Some s)
  /\ (forall ev0 L mr args w0,
        let r := default RSelf mr in
        let id := S (fresh w0) in
        let w1 := after (createRPC callName connectionID ev0 L mr args w0) in
        existsb (is_subscription r id) (subscriptions w1) = true
        /\ existsb (is_subscription r id)
             (subscriptions (after (unregisterRemote L w1))) = false).
Proof.
  intros w'. unfold w'. rewrite handleResponse_after.
  repeat split.
  - destruct (accepts_response _ _ _ _); [|done].
    by destruct (response_settlement ev), (calls w !! p).
  - by intros ->.
  - intros [x Hx]. rewrite Hx.
    destruct (accepts_response _ _ _ _); [|done].
    by destruct (response_settlement ev).
  - intros -> -> s ->. simpl. by rewrite lookup_insert_eq.
  - rewrite createRPC_run. simpl.
    destruct (request_channel mr ev0) as [[c o]|]; simpl;
      rewrite existsb_app; simpl; unfold is_subscription at 2; simpl;
      rewrite !bool_decide_eq_true_2 by done; by rewrite orb_true_r.
  - rewrite unregisterRemote_subscriptions.
    apply not_true_is_false. intros (s & Hs & Hi)%existsb_exists.
    apply list_elem_of_In, list_elem_of_filter in Hs as [Hu _].
    revert Hu. rewrite createRPC_run. simpl.
    assert (forall w1 : realm, arrays w1 = 
      <[L:=default [] (arrays w0 !! L) ++ [(default RSelf mr, S (fresh w0))]]> (arrays w0) ->
      unsubscribed (default [] (arrays w1 !! L)) s = true) as Hkey.
    { intros w1 ->. rewrite lookup_insert_eq. simpl.
      unfold unsubscribed. rewrite existsb_app. simpl. rewrite Hi.
      by rewrite orb_true_r. }
    destruct (request_channel mr ev0) as [[c o]|]; rewrite Hkey; done.
Qed.

End Rpc_properties.


(** C3.  A rejection that is never answered.  The host has registered the
    methods of its schema under the connection ["uuid-0"]; [fail] rejects
    with [undefined], as [() => Promise.reject()] does.  The event loop
    delivers a call request for [fail] that meets every condition of the
    claim: the function is invoked, the [catch] block of [handleCall] throws
    on [Object.getOwnPropertyNames(undefined)], and no response is sent.  So
    the equivalence of the claim does not hold of this message. *)
Theorem rejection_unanswered :
  call_conditions "fail" (JStr "uuid-0") Demo.call_fail
  /\ (exists unregisterLocal w w',
        registerLocalMethods Demo.demo_schema
          (extractMethods Demo.demo_schema) (JStr "uuid-0") None empty_realm
        = Ok unregisterLocal w
        /\ deliver RSelf Demo.call_fail w = Ok tt w'
        /\ invocations w' = [("fail", [])]
        /\ posted w' = [])
  /\ ~ filtering_as_specified Demo.demo_schema "fail" (JStr "uuid-0") None
         Demo.call_fail empty_realm.
Proof.
  assert (call_conditions "fail" (JStr "uuid-0") Demo.call_fail) as Hc.
  { by vm_compute. }
  split; [exact Hc|]. split.
  - do 3 eexists. split; [vm_compute; reflexivity|].
    split; [vm_compute; reflexivity|]. split; reflexivity.
  - unfold filtering_as_specified. intros [_ H].
    destruct (H Hc) as [_ Hp]. by apply Hp.
Qed.

(** C6 as the specification words it fails: after the response to
    [add(2, 3)] has resolved the call, its listener is still subscribed. *)
Lemma one_shot_as_specified_fails :
  ~ one_shot_as_specified (JStr "add") (JStr "conn-1") Demo.reply_event 0 None
      [JNum 2; JNum 3] Demo.add_resolved empty_realm.
Proof.
  unfold one_shot_as_specified. intros H.
  assert (is_Some (calls (after (deliver (default RSelf None) Demo.add_resolved
            (after (createRPC (JStr "add") (JStr "conn-1") Demo.reply_event 0
                      None [JNum 2; JNum 3] empty_realm)))) !! fresh empty_realm))
    as Hs.
  { eexists. vm_compute. reflexivity. }
  specialize (H Hs). vm_compute in H. done.
Qed.



(** ** Properties that every step keeps *)

Section Invariants.
Context `{C : Collaborators}.

Section Preservation.
Context (P : realm -> Prop) `{!StableFrame P}.

Lemma preserves_ret {A} (a : A) : preserves P (mret a).
Proof. by intros w. Qed.

Lemma preserves_throw {A} e : preserves P (throw (A := A) e).
Proof. by intros w. Qed.

Lemma preserves_gets {A} (f : realm -> A) : preserves P (gets f).
Proof. by intros w. Qed.

Lemma preserves_bind {A B} (m : M A) (k : A -> M B) :
  preserves P m -> (forall a, preserves P (k a)) -> preserves P (m ≫= k).
Proof.
  intros Hm Hk w Hw. unfold mbind, M_bind.
  specialize (Hm w Hw). destruct (m w) as [a w'|e w']; simpl in *; [|done].
  by apply Hk.
Qed.

Lemma preserves_async m : preserves P m -> preserves P (async m).
Proof. intros Hm w Hw. by apply Hm. Qed.

Lemma preserves_for_each {A} (xs : list A) body :
  (forall x, preserves P (body x)) -> preserves P (for_each xs body).
Proof.
  intros Hb. induction xs as [|x xs IH]; simpl.
  - apply preserves_ret.
  - apply preserves_bind; [apply Hb | by intros _].
Qed.

Lemma preserves_modify f :
  (forall w, P w -> P (f w)) -> preserves P (modify f).
Proof. intros Hf w Hw. by apply Hf. Qed.


Ltac stable_step :=
  match goal with
  | |- _ (upd_fresh _ _) => apply stable_fresh
  | |- _ (upd_uuids _ _) => apply stable_uuids
  | |- _ (upd_subscriptions (filter _) _) => apply stable_unsubscribe
  | |- _ (upd_subscriptions _ _) => apply stable_subscribe
  | |- _ (upd_posted _ _) => apply stable_posted
  | |- _ (upd_arrays _ _) => apply stable_arrays
  | |- _ (upd_calls _ _) => apply stable_calls
  | |- _ (upd_invocations _ _) => apply stable_invocations
  | |- _ (upd_hosts _ _) => apply stable_hosts
  | |- _ (upd_attempts _ _) => apply stable_attempts
  | |- _ (upd_timers _ _) => apply stable_timers
  | |- _ (upd_now _ _) => apply stable_now
  | |- _ (upd_handshakes _ _) => apply stable_settle
  | |- _ (upd_records (alter (set_pending _) _) _) =>
      first [apply stable_pending_up | apply stable_pending_down]
  | |- _ (upd_records (alter (set_listeners _) _) _) =>
      first [apply stable_new_set | apply stable_add_listener
            | apply stable_delete_listener]
  | |- _ (upd_records (alter (set_connections _) _) _) =>
      apply stable_connections
  | |- _ (upd_records (insert _ _) _) => apply stable_new_host
  end.

Ltac preserve :=
  repeat first
    [ assumption
    | solve [auto 1 with preserve nocore]
    | match goal with
      | |- preserves _ (mret _) => apply preserves_ret
      | |- preserves _ (throw _) => apply preserves_throw
      | |- preserves _ (gets _) => apply preserves_gets
      | |- preserves _ (async _) => apply preserves_async
      | |- preserves _ (for_each _ _) => apply preserves_for_each; intros
      | |- preserves _ (modify _) =>
          apply preserves_modify; intros ? ?; cbv beta; stable_step; assumption
      | |- preserves _ (upd_host _ _) => unfold upd_host
      | |- preserves _ (mbind _ _) => apply preserves_bind; [|intros]
      | |- preserves _ (match ?x with _ => _ end) => destruct x
      | |- preserves _ (let _ := ?x in _) => cbv zeta
      end ].

Create HintDb preserve.

Lemma alloc_preserves : preserves P alloc.
Proof. intros w Hw. by apply stable_fresh. Qed.
Lemma uuid_preserves : preserves P uuid.
Proof. intros w Hw. by apply stable_uuids. Qed.
Hint Resolve alloc_preserves uuid_preserves : preserve.

Lemma addEventListener_preserves r h : preserves P (addEventListener r h).
Proof. unfold addEventListener. preserve. Qed.
Lemma postMessage_preserves c p o : preserves P (postMessage c p o).
Proof. unfold postMessage. preserve. Qed.
Hint Resolve addEventListener_preserves postMessage_preserves : preserve.

Lemma subscribe_calls_preserves sch methods c mr l :
  preserves P (subscribe_calls sch methods c mr l).
Proof. revert l. induction methods as [|m ms IH]; intros l; simpl; preserve. Qed.
Hint Resolve subscribe_calls_preserves : preserve.

Lemma registerLocalMethods_preserves sch methods c mr :
  preserves P (registerLocalMethods sch methods c mr).
Proof. unfold registerLocalMethods. preserve. Qed.
Hint Resolve registerLocalMethods_preserves : preserve.

Lemma caught_preserves e : preserves P (caught e).
Proof. unfold caught. preserve. Qed.
Hint Resolve caught_preserves : preserve.

Lemma run_method_preserves sch m args : preserves P (run_method sch m args).
Proof. unfold run_method. preserve. Qed.
Hint Resolve run_method_preserves : preserve.

Lemma handleCall_preserves sch m c mr ev : preserves P (handleCall sch m c mr ev).
Proof. unfold handleCall. preserve. Qed.
Hint Resolve handleCall_preserves : preserve.

Lemma settle_call_preserves p s : preserves P (settle_call p s).
Proof. unfold settle_call. preserve. Qed.
Hint Resolve settle_call_preserves : preserve.

Lemma handleResponse_preserves cn c id p ev :
  preserves P (handleResponse cn c id p ev).
Proof. unfold handleResponse. preserve. Qed.
Hint Resolve handleResponse_preserves : preserve.

Lemma push_preserves a u : preserves P (push a u).
Proof. unfold push. preserve. Qed.
Hint Resolve push_preserves : preserve.

Lemma createRPC_preserves cn c ev l mr args :
  preserves P (createRPC cn c ev l mr args).
Proof. unfold createRPC. preserve. Qed.
Hint Resolve createRPC_preserves : preserve.

Lemma registerRemoteMethods_preserves sch ms c ev mr :
  preserves P (registerRemoteMethods sch ms c ev mr).
Proof. unfold registerRemoteMethods. preserve. Qed.
Hint Resolve registerRemoteMethods_preserves : preserve.


(** The functions that change host records. *)
Section Connections.
Context `{!StableConnections P}.

Lemma negotiateConnection_preserves guest h mr sch ev :
  preserves P (negotiateConnection guest h mr sch ev).
Proof. unfold negotiateConnection. preserve. Qed.
Hint Resolve negotiateConnection_preserves : preserve.

Section Records.
Context `{!StableRecords P} `{!StableGuest P} `{!StableSettle P}.

Lemma settle_handshake_preserves p s : preserves P (settle_handshake p s).
Proof. unfold settle_handshake. preserve. Qed.
Hint Resolve settle_handshake_preserves : preserve.

(** The functions that take listeners away, and those that call them: the
    callback of the public [connect] stops its host. *)
Section Unsubscribing.
Context `{!StableUnsubscribe P}.

Lemma removeEventListener_preserves r id : preserves P (removeEventListener r id).
Proof. unfold removeEventListener. preserve. Qed.
Hint Resolve removeEventListener_preserves : preserve.

Lemma unregister_preserves l : preserves P (unregister l).
Proof. unfold unregister. preserve. Qed.
Hint Resolve unregister_preserves : preserve.

Lemma unregisterRemote_preserves l : preserves P (unregisterRemote l).
Proof. unfold unregisterRemote. preserve. Qed.
Hint Resolve unregisterRemote_preserves : preserve.

Lemma close_connection_preserves c : preserves P (close_connection c).
Proof. unfold close_connection. preserve. Qed.
Hint Resolve close_connection_preserves : preserve.

Lemma stop_preserves h b : preserves P (stop h b).
Proof. unfold stop. preserve. Qed.
Hint Resolve stop_preserves : preserve.

Lemma run_callback_preserves cb c : preserves P (run_callback cb c).
Proof. unfold run_callback. preserve. Qed.
Hint Resolve run_callback_preserves : preserve.

Lemma listener_preserves l ev negotiate :
  (forall sch ev, preserves P (negotiate sch ev)) ->
  preserves P (listener l ev negotiate).
Proof. intros H. unfold listener. preserve. Qed.

Lemma host_connect_preserves h guest sch cb :
  preserves P (host_connect h guest sch cb).
Proof. unfold host_connect. preserve. Qed.
Hint Resolve host_connect_preserves : preserve.

Lemma downstream_preserves f ev : preserves P (downstream f ev).
Proof. unfold downstream. preserve. Qed.
Hint Resolve downstream_preserves : preserve.

Lemma route_preserves h mr ev guest : preserves P (route h mr ev guest).
Proof.
  unfold route. preserve; apply listener_preserves; intros; preserve.
Qed.
Hint Resolve route_preserves : preserve.

Lemma mainListener_preserves h ev : preserves P (mainListener h ev).
Proof. unfold mainListener. preserve. Qed.
Hint Resolve mainListener_preserves : preserve.

Lemma findOrCreateHostFor_preserves t : preserves P (findOrCreateHostFor t).
Proof. unfold findOrCreateHostFor. preserve. Qed.
Hint Resolve findOrCreateHostFor_preserves : preserve.

Lemma connect_preserves guest sch : preserves P (connect guest sch).
Proof. unfold connect. preserve. Qed.

Lemma next_connection_preserves h sch : preserves P (next_connection h sch).
Proof. unfold next_connection. preserve. Qed.

Lemma setInterval_preserves j ms : preserves P (setInterval j ms).
Proof. unfold setInterval. preserve. Qed.
Lemma setTimeout_preserves j ms : preserves P (setTimeout j ms).
Proof. unfold setTimeout. preserve. Qed.
Lemma clearInterval_preserves i : preserves P (clearInterval i).
Proof. unfold clearInterval. preserve. Qed.
Hint Resolve setInterval_preserves setTimeout_preserves clearInterval_preserves
  : preserve.

Lemma handleHandshakeResponse_preserves a ev :
  preserves P (handleHandshakeResponse a ev).
Proof. unfold handleHandshakeResponse. preserve. Qed.
Lemma retry_preserves a : preserves P (retry a).
Proof. unfold retry. preserve. Qed.
Lemma timeout_preserves a : preserves P (timeout a).
Proof. unfold timeout. preserve. Qed.
Hint Resolve handleHandshakeResponse_preserves retry_preserves timeout_preserves
  : preserve.

Lemma guest_connect_preserves sch t : preserves P (guest_connect sch t).
Proof. unfold guest_connect. preserve. Qed.

Lemma dispatch_to_preserves f ev : preserves P (dispatch_to f ev).
Proof. unfold dispatch_to. preserve. Qed.
Hint Resolve dispatch_to_preserves : preserve.

Lemma deliver_preserves r ev : preserves P (deliver r ev).
Proof. unfold deliver. preserve. Qed.

Lemma run_job_preserves j : preserves P (run_job j).
Proof. unfold run_job. preserve. Qed.
Hint Resolve run_job_preserves : preserve.

Lemma fire_preserves t : preserves P (fire t).
Proof. unfold fire. preserve. Qed.
Hint Resolve fire_preserves : preserve.

Lemma advance_preserves : preserves P advance.
Proof. unfold advance. preserve. Qed.
Hint Resolve advance_preserves deliver_preserves : preserve.

Hint Resolve connect_preserves next_connection_preserves
  guest_connect_preserves : preserve.
Lemma disconnect_preserves h id : preserves P (disconnect h id).
Proof. unfold disconnect. preserve. Qed.
Hint Resolve disconnect_preserves : preserve.

Lemma accept_preserves i : preserves P (accept i).
Proof. unfold accept. preserve. Qed.
Hint Resolve accept_preserves : preserve.

Lemma millisecond_preserves inbox : preserves P (millisecond inbox).
Proof. unfold millisecond. preserve. Qed.
Hint Resolve millisecond_preserves : preserve.

Lemma run_for_preserves n inbox : preserves P (run_for n inbox).
Proof. induction n as [|n IH]; simpl; preserve. Qed.

Lemma exec_preserves c : preserves P (exec c).
Proof. destruct c; unfold exec, serve, call; preserve. Qed.
Hint Resolve exec_preserves : preserve.

Lemma run_preserves cmds : preserves P (for_each cmds exec).
Proof. preserve. Qed.

End Unsubscribing.
End Records.
End Connections.
End Preservation.
End Invariants.


(** ** The counter of pending connections *)

Section Pending.
Context `{C : Collaborators}.

Lemma alter_lookup_pending (f : host -> host) h (m : gmap nat host) h' r :
  (forall x, (0 <= pendingConnections x)%Z -> (0 <= pendingConnections (f x))%Z) ->
  (forall h r, m !! h = Some r -> (0 <= pendingConnections r)%Z) ->
  alter f h m !! h' = Some r -> (0 <= pendingConnections r)%Z.
Proof.
  intros Hf Hm. destruct (decide (h = h')) as [->|Hne].
  - rewrite lookup_alter_eq. destruct (m !! h') as [x|] eqn:E; [|done].
    simpl. intros [= <-]. eauto.
  - rewrite lookup_alter_ne by done. eauto.
Qed.

#[global] Instance pending_nonneg_frame : StableFrame pending_nonneg.
Proof. split; intros; by destruct w. Qed.

#[global] Instance pending_nonneg_guest : StableGuest pending_nonneg.
Proof. split; intros; by destruct w. Qed.

#[global] Instance pending_nonneg_settle : StableSettle pending_nonneg.
Proof. split; intros; by destruct w. Qed.

#[global] Instance pending_nonneg_unsubscribe :
  StableUnsubscribe pending_nonneg.
Proof. split; intros; by destruct w. Qed.

#[global] Instance pending_nonneg_records : StableRecords pending_nonneg.
Proof.
  split.
  - intros h w H h' r. destruct w; simpl in *.
    apply alter_lookup_pending; [|done]. simpl. lia.
  - intros h w H h' r. destruct w; simpl in *.
    apply alter_lookup_pending; [|done]. simpl. lia.
  - intros h g w H h' r. destruct w; simpl in *.
    by apply alter_lookup_pending.
  - intros h g id sch cb w H h' r. destruct w; simpl in *.
    by apply alter_lookup_pending.
  - intros h g l w H h' r. destruct w; simpl in *.
    by apply alter_lookup_pending.
  - intros h t id w H h' r. destruct w; simpl in *.
    destruct (decide (h = h')) as [->|Hne].
    + rewrite lookup_insert_eq. by intros [= <-].
    + rewrite lookup_insert_ne by done. eauto.
Qed.

#[global] Instance pending_nonneg_connections : StableConnections pending_nonneg.
Proof.
  split. intros f h w H h' r. destruct w; simpl in *.
  by apply alter_lookup_pending.
Qed.

Lemma stop_keeps_records h w : records (after (stop h false w)) = records w.
Proof.
  unfold stop, gets, mbind, M_bind. simpl.
  by destruct (records w !! h) as [r|].
Qed.

Lemma run_callback_records cb c w :
  records (after (run_callback cb c w)) = records w.
Proof.
  destruct cb as [h p|p]; simpl; [|done].
  unfold gets, mbind, M_bind. simpl.
  destruct (records w !! h) as [r|]; simpl; [|done].
  case_bool_decide; [|done].
  pose proof (stop_keeps_records h w) as Hs.
  destruct (stop h false w) as [[] w'|e w']; simpl in *; done.
Qed.

Lemma host_connect_pending h guest sch cb w r :
  records w !! h = Some r ->
  pendingConnections <$> records (after (host_connect h guest sch cb w)) !! h =
  Some (pendingConnections r + 1)%Z.
Proof.
  intros Hr. unfold host_connect, upd_host, modify, gets, alloc, mbind, M_bind.
  simpl. rewrite lookup_alter_eq, Hr. simpl.
  destruct (listeners_for guest (connectionListeners r)); simpl;
    rewrite ?lookup_alter_eq, Hr; done.
Qed.

Lemma listener_pending l ev (negotiate : schema -> event -> M IConnection)
    w c w1 r1 :
  negotiate (listener_schema l) ev w = Ok c w1 ->
  records w1 !! listener_host l = Some r1 ->
  pendingConnections <$>
    records (after (listener l ev negotiate w)) !! listener_host l =
  Some (Z.max (pendingConnections r1 - 1) 0).
Proof.
  intros Hn Hr. unfold listener.
  rewrite (bind_ok _ _ _ _ _ Hn).
  unfold upd_host, modify, mbind, M_bind. simpl.
  rewrite run_callback_records. simpl.
  by rewrite !lookup_alter_eq, Hr.
Qed.

(** C10.  The counter [pendingConnections] of every host record is never
    negative: whatever the program and its environment do ([connect],
    [serve], messages, timers, [disconnect], [stop], [close], proxy calls),
    from an empty context or from any context where the counters are not
    negative.  [host.connect] adds one to the counter, and a handshake
    resolution (the [listener] closure) sets it to
    [Math.max(pendingConnections - 1, 0)]. *)
Theorem pendingConnections_nonneg :
  (forall cmds w,
     pending_nonneg w -> pending_nonneg (after (for_each cmds exec w)))
  /\ (forall cmds h r,
        records (after (for_each cmds exec empty_realm)) !! h = Some r ->
        (0 <= pendingConnections r)%Z)
  /\ (forall h guest sch cb w r,
        records w !! h = Some r ->
        pendingConnections <$>
          records (after (host_connect h guest sch cb w)) !! h =
        Some (pendingConnections r + 1)%Z)
  /\ (forall l ev (negotiate : schema -> event -> M IConnection) w c w1 r1,
        negotiate (listener_schema l) ev w = Ok c w1 ->
        records w1 !! listener_host l = Some r1 ->
        pendingConnections <$>
          records (after (listener l ev negotiate w)) !! listener_host l =
        Some (Z.max (pendingConnections r1 - 1) 0)).
Proof.
  split; [|split; [|split]].
  - intros cmds w. apply (run_preserves pending_nonneg).
  - intros cmds. apply (run_preserves pending_nonneg). by intros h r.
  - apply host_connect_pending.
  - apply listener_pending.
Qed.

End Pending.

(** ** The origin and source guard of iframes *)

Section Guard.
Context `{C : Collaborators}.

Lemma in_set_elem guest f m g ls :
  (g, ls) ∈ in_set guest f m ->
  exists ls0, (g, ls0) ∈ m /\ (ls = ls0 \/ (g = guest /\ ls = f ls0)).
Proof.
  unfold in_set. intros ([g0 ls0] & Heq & Hin)%list_elem_of_fmap.
  simpl in Heq. case_bool_decide; simplify_eq; eauto.
Qed.

Lemma listeners_for_in_set_ne guest f m g :
  g <> guest -> listeners_for g (in_set guest f m) = listeners_for g m.
Proof.
  intros Hne. induction m as [|[g0 ls0] m IH]; [done|].
  simpl. destruct (decide (g0 = guest)) as [->|Hg].
  - rewrite bool_decide_eq_true_2 by done. simpl.
    by rewrite bool_decide_eq_false_2 by done.
  - rewrite (bool_decide_eq_false_2 (g0 = guest)) by done. simpl.
    case_bool_decide; [done|apply IH].
Qed.

#[global] Instance listeners_wf_frame : StableFrame listeners_wf.
Proof. split; intros; by destruct w. Qed.

Lemma listeners_wf_alter (f : host -> host) h w :
  (forall r g ls l,
     records w !! h = Some r ->
     (g, ls) ∈ connectionListeners (f r) -> l ∈ ls ->
     ((exists ls0, (g, ls0) ∈ connectionListeners r /\ l ∈ ls0)
      \/ (listener_guest l = g /\ listener_host l = h))) ->
  listeners_wf w -> listeners_wf (upd_records (alter f h) w).
Proof.
  intros Hf Hw h' r' g ls l. destruct w as [? ? ? ? ? ? ? ? recs ? ? ? ?].
  simpl in *. destruct (decide (h = h')) as [->|Hne].
  - rewrite lookup_alter_eq. destruct (recs !! h') as [r|] eqn:E; [|done].
    simpl. intros [= <-] Hin Hl.
    destruct (Hf r g ls l eq_refl Hin Hl) as [(ls0 & H1 & H2)|H]; [|done].
    by eapply (Hw h' r).
  - rewrite lookup_alter_ne by done. apply Hw.
Qed.

#[global] Instance listeners_wf_guest : StableGuest listeners_wf.
Proof. split; intros; by destruct w. Qed.

#[global] Instance listeners_wf_settle : StableSettle listeners_wf.
Proof. split; intros; by destruct w. Qed.

#[global] Instance listeners_wf_unsubscribe : StableUnsubscribe listeners_wf.
Proof. split; intros; by destruct w. Qed.

#[global] Instance listeners_wf_connections : StableConnections listeners_wf.
Proof.
  split. intros f h w. apply listeners_wf_alter. intros; left; eauto.
Qed.

#[global] Instance listeners_wf_records : StableRecords listeners_wf.
Proof.
  split.
  - intros h w. apply listeners_wf_alter. intros; left; eauto.
  - intros h w. apply listeners_wf_alter. intros; left; eauto.
  - intros h guest w. apply listeners_wf_alter.
    intros r g ls l _ [Hin|Hin%list_elem_of_singleton]%elem_of_app Hl.
    + left; eauto.
    + simplify_eq. by apply elem_of_nil in Hl.
  - intros h guest id sch cb w. apply listeners_wf_alter.
    intros r g ls l _ (ls0 & Hin & [->|[-> ->]])%in_set_elem Hl.
    + left; eauto.
    + apply elem_of_app in Hl as [Hl|Hl%list_elem_of_singleton].
      * left; eauto.
      * right. by subst l.
  - intros h guest l0 w. apply listeners_wf_alter.
    intros r g ls l _ (ls0 & Hin & [->|[-> ->]])%in_set_elem Hl.
    + left; eauto.
    + apply list_elem_of_filter in Hl as [_ Hl]. left; eauto.
  - intros h t id w Hw h' r g ls l. destruct w; simpl in *.
    destruct (decide (h = h')) as [->|Hne].
    + rewrite lookup_insert_eq. intros [= <-]. simpl. by intros ?%elem_of_nil.
    + rewrite lookup_insert_ne by done. apply Hw.
Qed.


(** The pending listeners of a guest are untouched by what happens outside
    the host records, to the connection map and to the counter. *)
#[global] Instance pending_listeners_frame h guest ls :
  StableFrame (pending_listeners h guest ls).
Proof. split; intros; by destruct w. Qed.

Lemma pending_listeners_alter (f : host -> host) h' h guest ls w :
  (forall r, listeners_for guest (connectionListeners r) = Some ls ->
             h' = h ->
             listeners_for guest (connectionListeners (f r)) = Some ls) ->
  pending_listeners h guest ls w ->
  pending_listeners h guest ls (upd_records (alter f h') w).
Proof.
  intros Hf (r & Hr & Hls). destruct w; simpl in *. unfold pending_listeners.
  simpl. destruct (decide (h' = h)) as [->|Hne].
  - exists (f r). rewrite lookup_alter_eq, Hr. eauto.
  - exists r. by rewrite lookup_alter_ne.
Qed.

#[global] Instance pending_listeners_guest h guest ls :
  StableGuest (pending_listeners h guest ls).
Proof. split; intros; by destruct w. Qed.

#[global] Instance pending_listeners_settle h guest ls :
  StableSettle (pending_listeners h guest ls).
Proof. split; intros; by destruct w. Qed.

#[global] Instance pending_listeners_unsubscribe h guest ls :
  StableUnsubscribe (pending_listeners h guest ls).
Proof. split; intros; by destruct w. Qed.

#[global] Instance pending_listeners_connections h guest ls :
  StableConnections (pending_listeners h guest ls).
Proof. split. intros f h' w. by apply pending_listeners_alter. Qed.

Lemma isValidTarget_false f ev :
  isValidTarget f ev = false <->
  Some (origin ev) <> getOriginFromURL (src f) \/ source ev <> contentWindow f.
Proof.
  unfold isValidTarget. cbv zeta. rewrite andb_false_iff.
  by rewrite !bool_decide_eq_false.
Qed.

(** The round of the loop for an iframe that fails [isValidTarget] is the
    [continue] of line 172. *)
Lemma route_skips h mr ev f w :
  isValidTarget f ev = false -> route h mr ev (Some (GIframe f)) w = Ok tt w.
Proof. intros H. unfold route. simpl. by rewrite H. Qed.

Lemma pending_listeners_records h guest ls w w' :
  records w' = records w ->
  pending_listeners h guest ls w -> pending_listeners h guest ls w'.
Proof. unfold pending_listeners. by intros ->. Qed.

(** A listener of another guest leaves the set as it is. *)
Lemma listener_keeps h guest ls l ev g' h0 mr w :
  listener_guest l <> guest ->
  pending_listeners h guest ls w ->
  pending_listeners h guest ls
    (after (listener l ev (negotiateConnection g' h0 mr) w)).
Proof.
  intros Hne Hw. unfold listener.
  pose proof (negotiateConnection_preserves (pending_listeners h guest ls)
                g' h0 mr (listener_schema l) ev w Hw) as Hn.
  unfold mbind at 1, M_bind.
  destruct (negotiateConnection _ _ _ _ _ w) as [c w1|e w1]; simpl in *; [|done].
  unfold upd_host, modify, mbind, M_bind. simpl.
  eapply pending_listeners_records; [apply run_callback_records|].
  apply pending_listeners_alter.
  { intros r Hr _. simpl. by rewrite listeners_for_in_set_ne. }
  by apply pending_listeners_alter.
Qed.

Lemma for_each_keeps {A} (I : realm -> Prop) (xs : list A) (body : A -> M unit) w :
  (forall x w, x ∈ xs -> I w -> I (after (body x w))) ->
  I w -> I (after (for_each xs body w)).
Proof.
  revert w. induction xs as [|x xs IH]; intros w Hb Hw; [done|].
  simpl. unfold mbind, M_bind.
  assert (I (after (body x w))) as Hx by (apply Hb; [left|done]).
  destruct (body x w) as [[] w1|e w1]; simpl in *; [|done].
  apply IH; [|done]. intros y w2 Hy. apply Hb. by right.
Qed.

(** A round of the loop for another guest leaves the set as it is. *)
Lemma route_keeps h guest ls mr ev g' w :
  g' <> guest ->
  listeners_wf w ->
  pending_listeners h guest ls w ->
  pending_listeners h guest ls (after (route h mr ev g' w)).
Proof.
  intros Hne Hwf Hw.
  assert (pending_listeners h guest ls
            (after ((ls' ← gets (fun w => default []
                             (records w !! h ≫=
                              fun r => listeners_for g' (connectionListeners r)));
                     for_each ls'
                       (fun l => listener l ev (negotiateConnection g' h mr))) w)))
    as Hserve.
  { unfold mbind at 1, M_bind, gets.
    apply for_each_keeps; [|done].
    intros l w1 Hl Hw1. apply listener_keeps; [|done].
    destruct (records w !! h) as [r|] eqn:Hr; simpl in Hl;
      [|by apply elem_of_nil in Hl].
    destruct (listeners_for g' (connectionListeners r)) as [ls0|] eqn:Hls;
      simpl in Hl; [|by apply elem_of_nil in Hl].
    assert ((g', ls0) ∈ connectionListeners r) as Hin.
    { clear -Hls. induction (connectionListeners r) as [|[g1 l1] m IH];
        [done|]. simpl in Hls. case_bool_decide; simplify_eq.
      - left.
      - right. by apply IH. }
    destruct (Hwf h r g' ls0 l Hr Hin Hl) as [-> _]. done. }
  unfold route. destruct (as_iframe g') as [f|]; [|done].
  by destruct (isValidTarget f ev).
Qed.


Lemma mainListener_keeps h ev f ls w :
  isValidTarget f ev = false ->
  listeners_wf w ->
  pending_listeners h (Some (GIframe f)) ls w ->
  pending_listeners h (Some (GIframe f)) ls (after (mainListener h ev w)).
Proof.
  intros Hf Hwf Hw. unfold mainListener.
  destruct (negb (truthy (data ev)) || negb (bool_decide (is_Some (source ev)))
            || negb (truthy (JStr (origin ev)))); [done|].
  unfold mbind at 1, M_bind, gets.
  destruct (records w !! h) as [r|]; [|done].
  destruct (strict_eq _ _).
  - apply (for_each_keeps
             (fun w => listeners_wf w
                       /\ pending_listeners h (Some (GIframe f)) ls w));
      [|done].
    intros g' w1 _ [Hwf1 Hw1].
    destruct (decide (g' = Some (GIframe f))) as [->|Hne].
    + by rewrite route_skips.
    + split.
      * by apply (route_preserves listeners_wf).
      * by apply route_keeps.
  - case_bool_decide; [|done].
    apply (preserves_bind (pending_listeners h (Some (GIframe f)) ls));
      [apply preserves_gets| |done].
    intros subs. apply preserves_for_each.
    intros s. apply downstream_preserves; apply _.
Qed.

Lemma mainListener_skips_all h ev r w :
  records w !! h = Some r ->
  strict_eq (prop "action" (data ev)) (JStr actions.HANDSHAKE_REQUEST) = true ->
  (forall g, g ∈ map fst (connectionListeners r) ->
     exists f, g = Some (GIframe f) /\ isValidTarget f ev = false) ->
  after (mainListener h ev w) = w.
Proof.
  intros Hr Ha Hall. unfold mainListener.
  destruct (negb (truthy (data ev)) || negb (bool_decide (is_Some (source ev)))
            || negb (truthy (JStr (origin ev)))); [done|].
  unfold mbind at 1, M_bind, gets. rewrite Hr, Ha.
  apply (for_each_keeps (fun w' => w' = w)); [|done].
  intros g w1 Hg ->. destruct (Hall g Hg) as (f & -> & Hf).
  by rewrite route_skips.
Qed.

Lemma reachable_listeners_wf cmds :
  listeners_wf (after (for_each cmds exec empty_realm)).
Proof.
  apply (run_preserves listeners_wf). intros h r g ls l Hr. done.
Qed.

(** C8.  In a context reached by any sequence of operations, for a
    handshake-request event and an iframe guest with pending listeners whose
    [src] origin differs from the event's origin or whose [contentWindow]
    differs from the event's source: the round of [mainListener]'s loop for
    that guest changes nothing (no negotiation, no connection, the
    connection map as it was); after the whole of [mainListener], whatever
    the other guests got, the pending listeners of that guest are all still
    there; and when every registered guest is such an iframe, [mainListener]
    leaves the whole context as it was, so the connection count stays what
    it was. *)
Theorem invalid_iframe_not_negotiated cmds h r f ev ls :
  let w := after (for_each cmds exec empty_realm) in
  let guest := Some (GIframe f) in
  records w !! h = Some r ->
  listeners_for guest (connectionListeners r) = Some ls ->
  strict_eq (prop "action" (data ev)) (JStr actions.HANDSHAKE_REQUEST) = true ->
  Some (origin ev) <> getOriginFromURL (src f) \/ source ev <> contentWindow f ->
  route h (host_messageReceiver h (target r)) ev guest w = Ok tt w
  /\ pending_listeners h guest ls (after (mainListener h ev w))
  /\ ((forall g, g ∈ map fst (connectionListeners r) ->
         exists f', g = Some (GIframe f') /\ isValidTarget f' ev = false) ->
      after (mainListener h ev w) = w).
Proof.
  intros w guest Hr Hls Ha Hf%isValidTarget_false.
  split; [by apply route_skips|]. split.
  - apply mainListener_keeps; [done|apply reachable_listeners_wf|].
    by exists r.
  - by apply mainListener_skips_all.
Qed.

End Guard.

(** ** A message in the event loop *)

Section Delivery.
Context `{C : Collaborators}.

Lemma strict_eq_str v x : strict_eq v (JStr x) = true -> v = JStr x.
Proof.
  destruct v; simpl; try done. intros Hv. apply bool_decide_eq_true in Hv.
  by subst.
Qed.

(** A message of another kind is ignored by the listeners of [rpc.ts] and
    by the guest's reply listener. *)
Lemma handleCall_foreign sch methodName connectionID mr ev w :
  strict_eq (prop "action" (data ev)) (JStr actions.RPC_REQUEST) = false ->
  after (handleCall sch methodName connectionID mr ev w) = w.
Proof.
  intros Ha. apply handleCall_ignores. unfold accepts_call. by rewrite Ha.
Qed.

Lemma handleResponse_foreign callName connectionID callID p ev w :
  strict_eq (prop "action" (data ev)) (JStr actions.RPC_RESOLVE) = false ->
  strict_eq (prop "action" (data ev)) (JStr actions.RPC_REJECT) = false ->
  after (handleResponse callName connectionID callID p ev w) = w.
Proof.
  intros H1 H2. unfold handleResponse. rewrite H1, H2.
  destruct (negb (destructurable _)); [done|]. by destruct (negb _).
Qed.

Lemma handleHandshakeResponse_foreign a ev w :
  strict_eq (prop "action" (data ev)) (JStr actions.HANDSHAKE_REPLY) = false ->
  after (handleHandshakeResponse a ev w) = w.
Proof.
  intros Ha. unfold handleHandshakeResponse. rewrite bind_gets.
  destruct (attempts w !! a) as [att|]; [|done].
  destruct (negb (destructurable _)); [done|].
  unfold accepts_reply. by rewrite Ha.
Qed.

(** A handshake request is for the main listeners only. *)
Lemma dispatch_handshake_request f ev w :
  strict_eq (prop "action" (data ev)) (JStr actions.HANDSHAKE_REQUEST) = true ->
  (forall h, f <> MainListener h) ->
  dispatch_to f ev w = Ok tt w.
Proof.
  intros Ha Hf. apply strict_eq_str in Ha.
  unfold dispatch_to, async. f_equal.
  destruct f as [sch m cid mr|cn cid callID p|h|a].
  - apply handleCall_foreign. by rewrite Ha.
  - apply handleResponse_foreign; by rewrite Ha.
  - by destruct (Hf h).
  - apply handleHandshakeResponse_foreign. by rewrite Ha.
Qed.

(** A handshake reply is not for the listeners of [rpc.ts]. *)
Lemma dispatch_handshake_reply f ev w :
  strict_eq (prop "action" (data ev)) (JStr actions.HANDSHAKE_REPLY) = true ->
  (forall h, f <> MainListener h) ->
  (forall a, f <> HandleHandshakeResponse a) ->
  dispatch_to f ev w = Ok tt w.
Proof.
  intros Ha Hf Hg. apply strict_eq_str in Ha.
  unfold dispatch_to, async. f_equal.
  destruct f as [sch m cid mr|cn cid callID p|h|a].
  - apply handleCall_foreign. by rewrite Ha.
  - apply handleResponse_foreign; by rewrite Ha.
  - by destruct (Hf h).
  - by destruct (Hg a).
Qed.

(** The event loop calls the listeners that ignore the event, then the
    last one subscribed. *)
Lemma deliver_last r ev l s w :
  filter (fun s => on s = r) (subscriptions w) = l ++ [s] ->
  Forall (fun x => dispatch_to (run x) ev w = Ok tt w) l ->
  deliver r ev w = dispatch_to (run s) ev w.
Proof.
  intros Hl Hign. unfold deliver. rewrite bind_gets, Hl.
  assert (on s = r /\ s ∈ subscriptions w) as [Hr Hs].
  { apply (list_elem_of_filter (fun s => on s = r)). rewrite Hl.
    apply elem_of_app. right. left. }
  clear Hl. induction Hign as [|x l Hx _ IH].
  - cbn [app for_each].
    erewrite bind_ok; cycle 1.
    { rewrite bind_gets.
      assert (existsb (is_subscription r (handler_id s)) (subscriptions w)
              = true) as ->.
      { apply existsb_exists. exists s. split; [by apply list_elem_of_In|].
        unfold is_subscription. by rewrite !bool_decide_eq_true_2. }
      reflexivity. }
    reflexivity.
  - cbn [app for_each].
    erewrite bind_ok; [exact IH|].
    rewrite bind_gets. by destruct (existsb _ _).
Qed.

End Delivery.

(** ** One handshake request, two pending callers *)

Section Handshake.
Context `{C : Collaborators}.

(** [registerLocalMethods] only subscribes. *)
Lemma subscribe_calls_run sch methods c mr ls w :
  exists ls' subs,
    subscribe_calls sch methods c mr ls w =
    Ok ls' (upd_subscriptions (fun l => l ++ subs)
              (upd_fresh (fun n => length methods + n) w)).
Proof.
  revert ls w. induction methods as [|m ms IH]; intros ls w.
  - exists ls, []. simpl. unfold mret, M_ret. f_equal.
    destruct w as [? ? ? ? ? ? ? ? ? ? ? ? ?]. unfold upd_subscriptions, upd_fresh.
    simpl. by rewrite app_nil_r.
  - simpl. unfold addEventListener, alloc, modify, mbind, M_bind, mret, M_ret.
    simpl.
    edestruct IH as (ls' & subs & ->). exists ls'.
    exists (Subscription (default RSelf mr) (fresh w) (HandleCall sch m c mr)
              :: subs).
    f_equal. destruct w as [? ? ? ? ? ? ? ? ? ? ? ? ?].
    unfold upd_subscriptions, upd_fresh. simpl.
    rewrite <- app_assoc. simpl. f_equal. lia.
Qed.

Lemma negotiateConnection_run guest h mr sch ev s ms w :
  source ev = Some s ->
  method_list (prop "methods" (data ev)) = Some ms ->
  exists c w1 a b,
    negotiateConnection guest h mr sch ev w = Ok c w1
    /\ close c = HostClose a b h (uuidv4 (uuids w))
    /\ uuids w1 = S (uuids w)
    /\ handshakes w1 = handshakes w
    /\ hosts w1 = hosts w
    /\ records w1 =
       alter (set_connections (assign (uuidv4 (uuids w)) c)) h (records w).
Proof.
  intros Hs Hm. unfold negotiateConnection. rewrite Hs.
  unfold uuid, registerLocalMethods, mbind at 1, M_bind.
  unfold mbind at 1.
  match goal with
  | |- context [subscribe_calls ?a ?b ?c ?d ?e ?f] =>
      destruct (subscribe_calls_run a b c d e f) as (ls & subs & ->)
  end.
  unfold registerRemoteMethods. rewrite Hm.
  unfold alloc, modify, postMessage, upd_host, mbind, M_bind, mret, M_ret.
  simpl.
  destruct guest as [g|]; [case_bool_decide|]; simpl;
    (do 4 eexists; split; [reflexivity|]; simpl; done).
Qed.


Lemma alter_insert_at {A} (f : A -> A) (m : gmap nat A) h x :
  m !! h = Some x -> alter f h m = <[h := f x]> m.
Proof.
  intros H. apply map_eq. intros i. destruct (decide (h = i)) as [->|Hne].
  - by rewrite lookup_alter_eq, lookup_insert_eq, H.
  - by rewrite lookup_alter_ne, lookup_insert_ne.
Qed.

Lemma stop_run h w r :
  records w !! h = Some r ->
  stop h false w =
  Ok tt (upd_hosts (delete (target r))
           (upd_subscriptions
              (filter (fun s => is_subscription (RTarget (target r))
                                  (mainListener_id r) s = false)) w)).
Proof.
  intros Hr. unfold stop, gets, removeEventListener, modify, mbind, M_bind.
  by rewrite Hr.
Qed.

(** The [listener] of a public [connect] served with a handshake request. *)
Lemma listener_run i h guest sch p ev mr s ms w r :
  source ev = Some s ->
  method_list (prop "methods" (data ev)) = Some ms ->
  records w !! h = Some r ->
  handshakes w !! p = None ->
  exists c w' a b,
    listener (Listener i h guest sch (ConnectCallback h p)) ev
      (negotiateConnection guest h mr) w = Ok tt w'
    /\ close c = HostClose a b h (uuidv4 (uuids w))
    /\ uuids w' = S (uuids w)
    /\ handshakes w' = <[p := Fulfilled c]> (handshakes w)
    /\ records w' =
       <[h := Host (target r) (mainListener_id r)
                (Z.max (pendingConnections r - 1) 0)
                (in_set guest (filter (fun x => listener_id x <> i))
                   (connectionListeners r))
                (assign (uuidv4 (uuids w)) c (connections r))]> (records w).
Proof.
  intros Hs Hm Hr Hp.
  destruct (negotiateConnection_run guest h mr sch ev s ms w Hs Hm)
    as (c & w1 & a & b & Hn & Hc & Hu & Hh & _ & Hrec).
  exists c. unfold listener. simpl. rewrite (bind_ok _ _ _ _ _ Hn).
  unfold upd_host, modify, mbind at 1 2, M_bind. simpl.
  remember (upd_records _ (upd_records _ w1)) as w2 eqn:Hw2.
  assert (records w2 =
          <[h := Host (target r) (mainListener_id r)
                   (Z.max (pendingConnections r - 1) 0)
                   (in_set guest (filter (fun x => listener_id x <> i))
                      (connectionListeners r))
                   (assign (uuidv4 (uuids w)) c (connections r))]> (records w))
    as Hrec2.
  { rewrite Hw2. simpl. rewrite Hrec.
    rewrite (alter_insert_at _ (records w) h r Hr).
    rewrite (alter_insert_at _ _ h _ (lookup_insert_eq _ _ _)).
    rewrite (alter_insert_at _ _ h _ (lookup_insert_eq _ _ _)).
    by rewrite !insert_insert_eq. }
  assert (handshakes w2 = handshakes w) as Hh2 by (by rewrite Hw2; simpl).
  assert (uuids w2 = S (uuids w)) as Hu2 by (by rewrite Hw2; simpl).
  clear Hw2.
  unfold run_callback.
  assert (exists w',
    ((r0 ← gets (fun w0 => records w0 !! h);
      match r0 with
      | Some r1 => if bool_decide (pendingConnections r1 = 0%Z)
                   then stop h false else mret tt
      | None => mret tt
      end;; settle_handshake p (Fulfilled c)) w2 = Ok tt w')
    /\ uuids w' = uuids w2 /\ records w' = records w2
    /\ handshakes w' = <[p := Fulfilled c]> (handshakes w2))
    as (w' & Hrun & Hu' & Hr' & Hh').
  { erewrite (bind_ok (gets (fun w0 => records w0 !! h))); [|reflexivity].
    rewrite Hrec2, lookup_insert_eq. cbn [pendingConnections].
    case_bool_decide.
    - erewrite bind_ok; [|apply stop_run; by rewrite Hrec2, lookup_insert_eq].
      unfold settle_handshake, modify. eexists. split; [reflexivity|].
      simpl. unfold settled. by rewrite Hh2, Hp.
    - unfold settle_handshake, modify, mbind, M_bind, mret, M_ret.
      eexists. split; [reflexivity|].
      simpl. unfold settled. by rewrite Hh2, Hp. }
  exists w', a, b. rewrite Hu', Hr', Hh', Hh2. done.
Qed.


(** One handshake request serves the two pending listeners of a guest. *)
Lemma mainListener_two `{!UuidFresh} h guest i1 i2 s1 s2 p1 p2 ev s ms w r :
  truthy (data ev) = true ->
  source ev = Some s ->
  origin ev <> "" ->
  strict_eq (prop "action" (data ev)) (JStr actions.HANDSHAKE_REQUEST) = true ->
  method_list (prop "methods" (data ev)) = Some ms ->
  (forall f, guest = Some (GIframe f) -> isValidTarget f ev = true) ->
  records w !! h = Some r ->
  connectionListeners r =
    [(guest, [Listener i1 h guest s1 (ConnectCallback h p1);
              Listener i2 h guest s2 (ConnectCallback h p2)])] ->
  i1 <> i2 -> p1 <> p2 ->
  handshakes w !! p1 = None -> handshakes w !! p2 = None ->
  exists w' c1 c2 a1 b1 a2 b2,
    mainListener h ev w = Ok tt w'
    /\ handshakes w' !! p1 = Some (Fulfilled c1)
    /\ handshakes w' !! p2 = Some (Fulfilled c2)
    /\ close c1 = HostClose a1 b1 h (uuidv4 (uuids w))
    /\ close c2 = HostClose a2 b2 h (uuidv4 (S (uuids w)))
    /\ c1 <> c2
    /\ records w' !! h =
       Some (Host (target r) (mainListener_id r)
               (Z.max (Z.max (pendingConnections r - 1) 0 - 1) 0)
               [(guest, [])]
               (assign (uuidv4 (S (uuids w))) c2
                  (assign (uuidv4 (uuids w)) c1 (connections r)))).
Proof.
  intros Hd Hs Ho Ha Hm Hv Hr Hcl Hi Hp Hp1 Hp2.
  set (mr := host_messageReceiver h (target r)).
  destruct (listener_run i1 h guest s1 p1 ev mr s ms w r Hs Hm Hr Hp1)
    as (c1 & w1 & a1 & b1 & Hrun1 & Hc1 & Hu1 & Hh1 & Hr1).
  rewrite Hcl in Hr1. simpl in Hr1.
  rewrite bool_decide_eq_true_2 in Hr1 by done.
  rewrite filter_cons_False in Hr1 by (simpl; tauto).
  rewrite filter_cons_True in Hr1 by done.
  rewrite filter_nil in Hr1.
  assert (handshakes w1 !! p2 = None) as Hp2'.
  { by rewrite Hh1, lookup_insert_ne. }
  edestruct (listener_run i2 h guest s2 p2 ev mr s ms w1) as
    (c2 & w2 & a2 & b2 & Hrun2 & Hc2 & Hu2 & Hh2 & Hr2); [done|done| |done|].
  { rewrite Hr1. apply lookup_insert_eq. }
  simpl in Hr2. rewrite bool_decide_eq_true_2 in Hr2 by done.
  rewrite filter_cons_False in Hr2 by (simpl; tauto).
  rewrite filter_nil in Hr2.
  rewrite Hu1 in Hc2, Hr2.
  exists w2, c1, c2, a1, b1, a2, b2. split; [|split; [|split; [|split; [|split; [|split]]]]].
  - unfold mainListener. rewrite Hd, Hs. simpl.
    rewrite bool_decide_eq_false_2 by done. simpl.
    erewrite (bind_ok (gets (fun w0 => records w0 !! h))); [|reflexivity].
    rewrite Hr, Ha, Hcl. simpl.
    assert (route h mr ev guest w = Ok tt w2) as Hroute.
    { assert (route h mr ev guest =
              (ls ← gets (fun w => default []
                           (records w !! h ≫=
                            fun r => listeners_for guest (connectionListeners r)));
               for_each ls (fun l => listener l ev
                                       (negotiateConnection guest h mr)))) as ->.
      { unfold route. destruct (as_iframe guest) as [f|] eqn:Ef; [|done].
        rewrite Hv; [done|]. by destruct guest as [[]|]; simplify_eq/=. }
      erewrite (bind_ok (gets _)); [|reflexivity].
      rewrite Hr. simpl. rewrite Hcl. simpl.
      rewrite bool_decide_eq_true_2 by done. simpl.
      rewrite (bind_ok _ _ _ _ _ Hrun1), (bind_ok _ _ _ _ _ Hrun2). done. }
    fold mr. by rewrite (bind_ok _ _ _ _ _ Hroute).
  - rewrite Hh2, lookup_insert_ne by done. by rewrite Hh1, lookup_insert_eq.
  - by rewrite Hh2, lookup_insert_eq.
  - done.
  - done.
  - intros ->. rewrite Hc1 in Hc2. injection Hc2 as _ _ Hid.
    apply uuidv4_inj in Hid. lia.
  - by rewrite Hr2, lookup_insert_eq.
Qed.


Lemma findOrCreateHostFor_new t w :
  hosts w !! t = None ->
  findOrCreateHostFor t w =
  Ok (fresh w)
     (upd_hosts <[t := fresh w]>
        (upd_records <[fresh w := Host t (S (fresh w)) 0 [] []]>
           (upd_subscriptions
              (fun l => l ++ [Subscription (RTarget t) (S (fresh w))
                                (MainListener (fresh w))])
              (upd_fresh (fun n => S (S n)) w)))).
Proof.
  intros H. unfold findOrCreateHostFor.
  erewrite (bind_ok (gets _)); [|reflexivity]. rewrite H.
  unfold alloc, addEventListener, modify, mbind, M_bind, mret, M_ret. simpl.
  done.
Qed.

Lemma findOrCreateHostFor_found t h w :
  hosts w !! t = Some h -> findOrCreateHostFor t w = Ok h w.
Proof.
  intros H. unfold findOrCreateHostFor.
  erewrite (bind_ok (gets _)); [|reflexivity]. by rewrite H.
Qed.

Lemma host_connect_run h guest sch cb w r :
  records w !! h = Some r ->
  host_connect h guest sch cb w =
  Ok tt
     (upd_records
        <[h := Host (target r) (mainListener_id r) (pendingConnections r + 1)
                 (in_set guest
                    (fun ls => ls ++ [Listener (fresh w) h guest sch cb])
                    (match listeners_for guest (connectionListeners r) with
                     | Some _ => connectionListeners r
                     | None => connectionListeners r ++ [(guest, [])]
                     end))
                 (connections r)]>
        (upd_fresh S w)).
Proof.
  intros Hr. unfold host_connect, upd_host, modify, alloc, gets, mbind, M_bind.
  simpl. rewrite lookup_alter_eq, Hr. simpl.
  destruct (listeners_for guest (connectionListeners r)); simpl; f_equal;
    destruct w as [? ? ? ? ? ? ? ? recs ? ? ? ?]; unfold upd_records, upd_fresh;
    simpl in *; f_equal;
    rewrite !(alter_insert_at _ _ h _ (lookup_insert_eq _ _ _)) ||
    rewrite (alter_insert_at _ recs h r Hr);
    rewrite ?(alter_insert_at _ _ h _ (lookup_insert_eq _ _ _));
    by rewrite ?insert_insert_eq.
Qed.


(** The public [connect] with a guest, when the target has no record yet and
    when it has one. *)
Lemma connect_first g sch w :
  let t := if isWorker (Some g) then TGuest g else TWindow in
  hosts w !! t = None ->
  exists w',
    connect (Some g) sch w = Ok (fresh w) w'
    /\ fresh w' = S (S (S (S (fresh w))))
    /\ uuids w' = uuids w
    /\ handshakes w' = handshakes w
    /\ hosts w' = <[t := S (fresh w)]> (hosts w)
    /\ records w' =
       <[S (fresh w) :=
           Host t (S (S (fresh w))) 1
             [(Some g, [Listener (S (S (S (fresh w)))) (S (fresh w)) (Some g) sch
                          (ConnectCallback (S (fresh w)) (fresh w))])] []]>
         (records w)
    /\ subscriptions w'
       = subscriptions w ++ [Subscription (RTarget t) (S (S (fresh w)))
                               (MainListener (S (fresh w)))].
Proof.
  intros t Ht. unfold connect. fold t.
  erewrite (bind_ok alloc); [|reflexivity].
  erewrite (bind_ok (findOrCreateHostFor t)); [|by apply findOrCreateHostFor_new].
  erewrite (bind_ok (host_connect _ _ _ _)); cycle 1.
  { apply host_connect_run. simpl. apply lookup_insert_eq. }
  eexists. split; [reflexivity|]. simpl.
  case_bool_decide; [|done].
  rewrite insert_insert_eq. repeat split; reflexivity.
Qed.

Lemma connect_again g sch w h r ls :
  let t := if isWorker (Some g) then TGuest g else TWindow in
  hosts w !! t = Some h ->
  records w !! h = Some r ->
  connectionListeners r = [(Some g, ls)] ->
  exists w',
    connect (Some g) sch w = Ok (fresh w) w'
    /\ uuids w' = uuids w
    /\ handshakes w' = handshakes w
    /\ records w' =
       <[h := Host (target r) (mainListener_id r) (pendingConnections r + 1)
                [(Some g, ls ++ [Listener (S (fresh w)) h (Some g) sch
                                   (ConnectCallback h (fresh w))])]
                (connections r)]>
         (records w)
    /\ hosts w' = hosts w
    /\ subscriptions w' = subscriptions w.
Proof.
  intros t Ht Hr Hls. unfold connect. fold t.
  erewrite (bind_ok alloc); [|reflexivity].
  erewrite (bind_ok (findOrCreateHostFor t)); [|by apply findOrCreateHostFor_found].
  erewrite (bind_ok (host_connect _ _ _ _)); cycle 1.
  { by apply host_connect_run. }
  eexists. split; [reflexivity|]. simpl. rewrite Hls. simpl.
  repeat (case_bool_decide; [|done]; simpl). repeat split; reflexivity.
Qed.

(** C2.  Two callers of [connect] register against the same guest before
    any handshake request arrives, in a context where the target has no
    host yet, no main listener of an earlier host is left on the target and
    the addresses still to be given out hold no promise.  Their host's main
    listener is then subscribed on the target, and one handshake request
    delivered there by the event loop (with data, a source, an origin and a
    list of methods, and passing [isValidTarget] when the guest is an
    iframe) yields two distinct connections with two distinct connection
    identifiers, one resolving each caller's promise, and both pending
    listeners leave the guest's listener set. *)
Theorem two_callers_two_connections `{!UuidFresh} g s1 s2 ev s ms w0 :
  let t := if isWorker (Some g) then TGuest g else TWindow in
  truthy (data ev) = true ->
  source ev = Some s ->
  origin ev <> "" ->
  strict_eq (prop "action" (data ev)) (JStr actions.HANDSHAKE_REQUEST) = true ->
  method_list (prop "methods" (data ev)) = Some ms ->
  (forall f, g = GIframe f -> isValidTarget f ev = true) ->
  hosts w0 !! t = None ->
  (forall p, fresh w0 <= p -> handshakes w0 !! p = None) ->
  Forall (fun x => on x = RTarget t -> forall h, run x <> MainListener h)
    (subscriptions w0) ->
  two_connections g s1 s2 ev w0.
Proof.
  intros t Hd Hs Ho Ha Hm Hv Ht Hfree Hmain. unfold two_connections. fold t.
  set (guest := Some g). set (n := fresh w0).
  destruct (connect_first g s1 w0) as
    (w1 & Hc1 & Hf1 & Hu1 & Hh1 & Hhosts1 & Hr1 & Hsubs1); [done|].
  fold t n in Hc1, Hf1, Hhosts1, Hr1, Hsubs1.
  edestruct (connect_again g s2 w1 (S n)) as
    (w2 & Hc2 & Hu2 & Hh2 & Hr2 & Hhosts2 & Hsubs2).
  { fold t. rewrite Hhosts1. apply lookup_insert_eq. }
  { rewrite Hr1. apply lookup_insert_eq. }
  { reflexivity. }
  rewrite Hf1 in Hc2, Hr2. cbn [target mainListener_id pendingConnections
                                 connections app] in Hr2.
  rewrite Hr1, insert_insert_eq in Hr2.
  set (l1 := Listener (S (S (S n))) (S n) guest s1 (ConnectCallback (S n) n)).
  set (l2 := Listener (S (S (S (S (S n))))) (S n) guest s2
               (ConnectCallback (S n) (S (S (S (S n)))))).
  assert (records w2 !! S n = Some
            (Host t (S (S n)) (1 + 1) [(guest, [l1; l2])] []))
    as Hrec2.
  { rewrite Hr2. apply lookup_insert_eq. }
  assert (forall f, guest = Some (GIframe f) -> isValidTarget f ev = true) as Hv'.
  { intros f [= ->]. by apply Hv. }
  assert (handshakes w2 !! n = None) as Hp1.
  { rewrite Hh2, Hh1. apply Hfree. unfold n. lia. }
  assert (handshakes w2 !! S (S (S (S n))) = None) as Hp2.
  { rewrite Hh2, Hh1. apply Hfree. unfold n. lia. }
  destruct (mainListener_two (S n) guest (S (S (S n))) (S (S (S (S (S n)))))
              s1 s2 n (S (S (S (S n)))) ev s ms w2 _
              Hd Hs Ho Ha Hm Hv' Hrec2 eq_refl) as
    (w' & c1 & c2 & a1 & b1 & a2 & b2 & Hrun & Hq1 & Hq2 & Hcl1 & Hcl2 & Hne & Hrec);
    [lia|lia|done|done|].
  exists n, (S (S (S (S n)))), (S n), (S (S n)), w2, l1, l2.
  split.
  { unfold guest. rewrite (bind_ok _ _ _ _ _ Hc1), (bind_ok _ _ _ _ _ Hc2). done. }
  split; [lia|]. split; [done|]. split; [done|].
  split; [reflexivity|]. split; [reflexivity|].
  split.
  { eexists. split; [exact Hrec2|].
    simpl. by rewrite bool_decide_eq_true_2. }
  split; [rewrite Hhosts2, Hhosts1; apply lookup_insert_eq|].
  split; [by rewrite Hsubs2, Hsubs1|].
  exists w', c1, c2, a1, b1, (uuidv4 (uuids w2)), a2, b2, (uuidv4 (S (uuids w2))).
  split.
  { rewrite (deliver_last _ _
               (filter (fun x => on x = RTarget t) (subscriptions w0))
               (Subscription (RTarget t) (S (S n)) (MainListener (S n)))).
    - unfold dispatch_to, async. cbn [run]. by rewrite Hrun.
    - rewrite Hsubs2, Hsubs1, filter_app.
      by rewrite filter_cons_True, filter_nil.
    - apply Forall_forall. intros x [Hon Hx]%list_elem_of_filter.
      apply dispatch_handshake_request; [done|].
      by apply (proj1 (Forall_forall _ _) Hmain x Hx). }
  repeat (split; [done|]).
  split.
  { intros Hid. apply uuidv4_inj in Hid. lia. }
  split; [done|]. split.
  { eexists. split; [exact Hrec|]. simpl. by rewrite bool_decide_eq_true_2. }
  rewrite Hrec. simpl.
  rewrite bool_decide_eq_false_2; [done|].
  intros Hid. apply uuidv4_inj in Hid. lia.
Qed.

End Handshake.

Section Host_properties.
Context `{C : Collaborators}.

(** C9.  The public [connect] called with a [null] guest rejects with the
    error "a target is required"; it only makes the promise: no host record
    is created, no listener is added and the [hosts] map is unchanged. *)
Theorem connect_null_guest sch w :
  handshakes w !! fresh w = None ->
  connect None sch w =
  Ok (fresh w)
     (upd_handshakes
        <[fresh w := Rejected (error_object "a target is required")]>
        (upd_fresh S w))
  /\ hosts (after (connect None sch w)) = hosts w
  /\ records (after (connect None sch w)) = records w
  /\ subscriptions (after (connect None sch w)) = subscriptions w.
Proof.
  intros H.
  assert (connect None sch w =
          Ok (fresh w)
            (upd_handshakes
               <[fresh w := Rejected (error_object "a target is required")]>
               (upd_fresh S w))) as ->.
  { unfold connect, alloc, settle_handshake, modify, mbind, M_bind, mret, M_ret.
    simpl. unfold upd_handshakes at 1, settled. simpl. by rewrite H. }
  done.
Qed.

End Host_properties.

(** In an empty context the promise is the first address. *)
Lemma connect_null_guest_witness :
  handshakes (after (connect None Demo.demo_schema empty_realm)) !! 0 =
  Some (Rejected (error_object "a target is required"))
  /\ hosts (after (connect None Demo.demo_schema empty_realm)) = ∅.
Proof.
  destruct (connect_null_guest Demo.demo_schema empty_realm eq_refl)
    as (-> & H & _).
  split; [reflexivity | exact H].
Defined.

(** A request that claims another origin than the iframe's [src] leaves a
    host with one pending [connect] as it is. *)
Lemma invalid_iframe_not_negotiated_witness :
  let w := after (for_each [Connect (Some (GIframe Demo.child_frame))
                              Demo.demo_schema] exec empty_realm) in
  after (mainListener 1 Demo.stray_request w) = w.
Proof.
  intros w.
  eapply (invalid_iframe_not_negotiated
            [Connect (Some (GIframe Demo.child_frame)) Demo.demo_schema]
            1 _ Demo.child_frame Demo.stray_request).
  - vm_compute. reflexivity.
  - vm_compute. reflexivity.
  - reflexivity.
  - left. vm_compute. discriminate.
  - intros g Hg. exists Demo.child_frame. split; [|reflexivity].
    vm_compute in Hg. apply list_elem_of_singleton in Hg. exact Hg.
Defined.

(** Two callers wait for the iframe of the demo; its handshake request
    gives each of them a connection. *)
Lemma two_callers_two_connections_witness :
  two_connections (GIframe Demo.child_frame) Demo.demo_schema
    Demo.demo_schema Demo.guest_request empty_realm.
Proof.
  apply (two_callers_two_connections (H := demo_uuid_fresh)
           (GIframe Demo.child_frame) Demo.demo_schema Demo.demo_schema
           Demo.guest_request Demo.child [JStr "add"]); try reflexivity.
  - discriminate.
  - intros f [= <-]. reflexivity.
  - constructor.
Defined.

(** ** The guest's handshake *)

Section Guest_properties.
Context `{C : Collaborators}.

(** The event loop never throws. *)
Lemma completes_ret {A} (a : A) : completes (mret a).
Proof. intros w. by exists a. Qed.
Lemma completes_gets {A} (f : realm -> A) : completes (gets f).
Proof. intros w. by eexists. Qed.
Lemma completes_modify f : completes (modify f).
Proof. intros w. by exists tt. Qed.
Lemma completes_async m : completes (async m).
Proof. intros w. by exists tt. Qed.
Lemma completes_bind {A B} (m : M A) (k : A -> M B) :
  completes m -> (forall a, completes (k a)) -> completes (m ≫= k).
Proof.
  intros Hm Hk w. destruct (Hm w) as [a Ha].
  destruct (Hk a (after (m w))) as [b Hb].
  exists b. unfold mbind, M_bind. rewrite Ha. exact Hb.
Qed.
Lemma completes_for_each {A} (l : list A) (body : A -> M unit) :
  (forall x, completes (body x)) -> completes (for_each l body).
Proof.
  intros Hb. induction l as [|x l IH]; [apply completes_ret|].
  simpl. apply completes_bind; auto.
Qed.

Lemma completes_close_connection c : completes (close_connection c).
Proof.
  unfold close_connection, unregisterRemote, unregister, upd_host,
    removeEventListener.
  destruct (close c);
    repeat first [apply completes_bind; [|intros ?] | apply completes_for_each; intros ?
                 | apply completes_gets | apply completes_modify].
Qed.

Lemma completes_accept i : completes (accept i).
Proof.
  destruct i as [r ev|p]; cbn [accept].
  - unfold deliver. apply completes_bind; [apply completes_gets|intros subs].
    apply completes_for_each. intros s.
    apply completes_bind; [apply completes_gets|intros []].
    + apply completes_async.
    + apply completes_ret.
  - apply completes_bind; [apply completes_gets|intros [[c|e]|]].
    + apply completes_close_connection.
    + apply completes_ret.
    + apply completes_ret.
Qed.

Lemma completes_fire t : completes (fire t).
Proof.
  unfold fire. apply completes_bind; [apply completes_gets|intros []].
  - apply completes_bind; [apply completes_modify|intros _].
    apply completes_async.
  - apply completes_ret.
Qed.

Lemma completes_advance : completes advance.
Proof.
  unfold advance.
  apply completes_bind; [apply completes_modify|intros ?].
  apply completes_bind; [apply completes_gets|intros l].
  apply completes_for_each, completes_fire.
Qed.

Lemma completes_millisecond inbox : completes (millisecond inbox).
Proof.
  unfold millisecond.
  apply completes_bind; [apply completes_advance|intros ?].
  apply completes_bind; [apply completes_gets|intros t].
  apply completes_for_each, completes_accept.
Qed.

Lemma completes_run_for n inbox : completes (run_for n inbox).
Proof.
  induction n as [|n IH]; [apply completes_ret|].
  simpl. apply completes_bind; [done|intros _; apply completes_millisecond].
Qed.

Lemma run_for_S n inbox :
  run_for (S n) inbox = (run_for n inbox;; millisecond inbox).
Proof. reflexivity. Qed.

(** From one invariant to what it implies. *)
Lemma establishes {A} (P Q : realm -> Prop) (m : M A) :
  (forall w, Q w -> P w) -> preserves Q m ->
  forall w, Q w -> P (after (m w)).
Proof. intros HQP Hm w Hw. by apply HQP, Hm. Qed.

(** A settled promise stays as it is. *)
#[local] Instance settled_as_frame p s : StableFrame (settled_as p s).
Proof. by split. Qed.
#[local] Instance settled_as_guest p s : StableGuest (settled_as p s).
Proof. by split. Qed.
#[local] Instance settled_as_settle p s : StableSettle (settled_as p s).
Proof.
  split.
  intros p' s' w. unfold settled_as, settled. cbn [handshakes upd_handshakes].
  destruct (handshakes w !! p') eqn:E; [done|].
  intros Hp. rewrite lookup_insert_ne; [done|]. by intros ->; rewrite E in Hp.
Qed.
#[local] Instance settled_as_unsubscribe p s :
  StableUnsubscribe (settled_as p s).
Proof. by split. Qed.
#[local] Instance settled_as_records p s : StableRecords (settled_as p s).
Proof. by split. Qed.
#[local] Instance settled_as_connections p s :
  StableConnections (settled_as p s).
Proof. by split. Qed.

#[local] Abbreviation timed_out p :=
  (settled_as p (Rejected (JStr "connection timeout"))).

Lemma listeners_for_elem guest m ls :
  listeners_for guest m = Some ls -> (guest, ls) ∈ m.
Proof.
  induction m as [|[g ls0] m IH]; [done|]. simpl.
  case_bool_decide as E.
  - intros [= <-]. subst g. apply list_elem_of_here.
  - intros H. apply list_elem_of_further. by apply IH.
Qed.

(** *** Invariants that depend on who is served

    An invariant that holds only while the callbacks of the pending
    listeners are of a certain kind ([ok]) and the messages that arrive are
    of a certain kind ([arrives]) is kept by the listeners of the event
    loop. *)
Section Conditional.
Context (P : realm -> Prop) `{!StableFrame P} `{!StableConnections P}.
Variables (ok : ConnectionListener -> Prop) (arrives : event -> Prop).
Hypothesis pending_ok : forall w h r g ls l,
  P w -> records w !! h = Some r -> (g, ls) ∈ connectionListeners r ->
  l ∈ ls -> ok l.
Hypothesis callback_ok : forall l c,
  ok l -> preserves P (run_callback (listener_callback l) c).
Hypothesis pending_down_ok : forall h w,
  P w -> P (upd_records (alter (set_pending (fun p => Z.max (p - 1) 0)) h) w).
Hypothesis delete_ok : forall h guest l w,
  P w ->
  P (upd_records
       (alter (set_listeners
                 (in_set guest (filter (fun x => listener_id x <> listener_id l))))
              h) w).
Hypothesis reply_ok : forall a ev,
  arrives ev -> preserves P (handleHandshakeResponse a ev).

Lemma listener_invariant l ev guest h mr :
  ok l -> preserves P (listener l ev (negotiateConnection guest h mr)).
Proof.
  intros Hl. unfold listener.
  apply preserves_bind; [apply negotiateConnection_preserves; apply _|].
  intros c. apply preserves_bind; [intros w Hw; by apply pending_down_ok|].
  intros ?. apply preserves_bind; [intros w Hw; by apply delete_ok|].
  intros ?. by apply callback_ok.
Qed.

Lemma route_invariant h mr ev guest : preserves P (route h mr ev guest).
Proof.
  assert (preserves P
    (ls ← gets (fun w => default []
                  (records w !! h ≫=
                   fun r => listeners_for guest (connectionListeners r)));
     for_each ls
       (fun l => listener l ev (negotiateConnection guest h mr)))) as Hs.
  { intros w Hw. rewrite bind_gets. apply for_each_keeps; [|done].
    intros l w' Hl Hw'. apply listener_invariant; [|done].
    destruct (records w !! h) as [r|] eqn:Er; [|by apply elem_of_nil in Hl].
    simpl in Hl.
    destruct (listeners_for guest (connectionListeners r)) as [ls|] eqn:El;
      [|by apply elem_of_nil in Hl].
    apply (pending_ok w h r guest ls l Hw Er); [|done].
    by apply listeners_for_elem. }
  unfold route. cbv zeta. destruct (as_iframe guest); [|done].
  destruct (negb _); [apply preserves_ret|done].
Qed.

Lemma mainListener_invariant h ev : preserves P (mainListener h ev).
Proof.
  unfold mainListener. destruct (_ || _); [by intros w|].
  apply preserves_bind; [apply preserves_gets|intros [r|]];
    [|apply preserves_ret].
  destruct (strict_eq _ _).
  - apply preserves_for_each. intros g. apply route_invariant.
  - case_bool_decide; [|apply preserves_ret].
    apply preserves_bind; [apply preserves_gets|intros subs].
    apply preserves_for_each. intros s. apply downstream_preserves, _.
Qed.

Lemma dispatch_to_invariant f ev :
  arrives ev -> preserves P (dispatch_to f ev).
Proof.
  intros Hev. unfold dispatch_to. apply preserves_async. destruct f.
  - apply handleCall_preserves, _.
  - apply handleResponse_preserves, _.
  - apply mainListener_invariant.
  - by apply reply_ok.
Qed.

Lemma deliver_invariant r ev : arrives ev -> preserves P (deliver r ev).
Proof.
  intros Hev. unfold deliver.
  apply preserves_bind; [apply preserves_gets|intros subs].
  apply preserves_for_each. intros s.
  apply preserves_bind; [apply preserves_gets|intros []].
  - by apply dispatch_to_invariant.
  - apply preserves_ret.
Qed.

End Conditional.

(** *** A call that has had no reply *)

Section Stability.
Variables (target : endpoint) (p a i T k : nat).

#[local] Instance awaiting_frame : StableFrame (awaiting target p a i T k).
Proof. split; first [intros ? w []|intros w []]; by split. Qed.

#[local] Instance awaiting_unsubscribe :
  StableUnsubscribe (awaiting target p a i T k).
Proof. split; intros ? ? w []; by split. Qed.

(** A change of a host record that adds no listener. *)
Lemma awaiting_alter (f : host -> host) h w :
  (forall r g ls l,
     (g, ls) ∈ connectionListeners (f r) -> l ∈ ls ->
     exists ls0, (g, ls0) ∈ connectionListeners r /\ l ∈ ls0) ->
  awaiting target p a i T k w ->
  awaiting target p a i T k (upd_records (alter f h) w).
Proof.
  intros Hf [Hn Hatt Hp Ho Hc Ht Hs]. split; try done.
  intros h' r' g ls l. cbn [records upd_records].
  destruct (decide (h = h')) as [->|Hne].
  - rewrite lookup_alter_eq. destruct (records w !! h') as [r|] eqn:E; [|done].
    simpl. intros [= <-] Hin Hl.
    destruct (Hf r g ls l Hin Hl) as (ls0 & H1 & H2). eauto.
  - rewrite lookup_alter_ne by done. eauto.
Qed.

#[local] Instance awaiting_connections :
  StableConnections (awaiting target p a i T k).
Proof. split. intros f h w. apply awaiting_alter. intros; eauto. Qed.

Lemma awaiting_settle p' s w :
  p' <> p ->
  awaiting target p a i T k w ->
  awaiting target p a i T k (upd_handshakes (settled p' s) w).
Proof.
  intros Hne [Hn Hatt Hp Ho Hc Ht Hs]. split; try done.
  cbn [handshakes upd_handshakes]. unfold settled.
  destruct (handshakes w !! p'); [done|]. by rewrite lookup_insert_ne.
Qed.

Lemma awaiting_connected a' w :
  a' <> a ->
  awaiting target p a i T k w ->
  awaiting target p a i T k (upd_attempts (alter (set_connected true) a') w).
Proof.
  intros Ha [Hn Hatt Hp Ho Hc Ht Hs]. split; try done.
  - cbn [attempts upd_attempts]. by rewrite lookup_alter_ne.
  - intros a'' att''. cbn [attempts upd_attempts].
    destruct (decide (a' = a'')) as [->|Hne].
    + rewrite lookup_alter_eq.
      destruct (attempts w !! a'') as [att|] eqn:E; [|done].
      simpl. intros [= <-]. simpl. by apply (Ho a'').
    + rewrite lookup_alter_ne by done. apply Ho.
Qed.

(** A change of the timers that keeps the timeout and makes no timer like
    it. *)
Lemma awaiting_timers (f : list timer -> list timer) w :
  (forall t, t ∈ f (timers w) ->
             t ∈ timers w
             \/ (timer_id t <> i /\ job t <> TimeoutConnection a)) ->
  (timeout_timer a i T ∈ f (timers w)) ->
  awaiting target p a i T k w ->
  awaiting target p a i T k (upd_timers f w).
Proof.
  intros Hf Hin [Hn Hatt Hp Ho Hc Ht Hs]. split; try done.
  intros t. cbn [timers upd_timers]. intros Hel Hlike.
  destruct (Hf t Hel) as [?|[? ?]]; [by apply Ht|]. by destruct Hlike.
Qed.

Lemma awaiting_now w :
  awaiting target p a i T k w -> awaiting target p a i T (S k) (upd_now S w).
Proof.
  intros [Hn Hatt Hp Ho Hc Ht Hs]. split; try done.
  cbn [now upd_now]. by rewrite Hn.
Qed.

Lemma awaiting_other_timer t w :
  awaiting target p a i T k w -> t ∈ timers w -> due t <> T -> other_timer a i t.
Proof.
  intros [Hn Hatt Hp Ho Hc Ht Hs] Hel Hdue.
  split; intros E; apply Hdue; by rewrite (Ht t Hel) by auto.
Qed.

Lemma clearInterval_awaiting j :
  j <> Some i -> preserves (awaiting target p a i T k) (clearInterval j).
Proof.
  intros Hj w Hw. unfold clearInterval, modify. cbn [after].
  apply awaiting_timers; [| |done].
  - intros t Hel. left. by apply list_elem_of_filter in Hel as [_ ?].
  - apply list_elem_of_filter. split; [|by destruct Hw].
    cbn [timer_id timeout_timer]. congruence.
Qed.

Lemma retry_awaiting a' : preserves (awaiting target p a i T k) (retry a').
Proof.
  intros w Hw. unfold retry. rewrite bind_gets.
  destruct (attempts w !! a') as [att'|] eqn:E; [|done].
  destruct (connected att').
  - apply clearInterval_awaiting; [|done]. by eapply (aw_others _ _ _ _ _ _ _ Hw).
  - destruct (is_window _); by apply (postMessage_preserves _).
Qed.

Lemma timeout_awaiting a' :
  a' <> a -> preserves (awaiting target p a i T k) (timeout a').
Proof.
  intros Ha w Hw. unfold timeout. rewrite bind_gets.
  destruct (attempts w !! a') as [att'|] eqn:E; [|done].
  destruct (negb _); [|done].
  unfold settle_handshake, modify. cbn [after].
  apply awaiting_settle; [|done]. by eapply (aw_others _ _ _ _ _ _ _ Hw).
Qed.

Lemma reschedule_awaiting t w :
  other_timer a i t ->
  awaiting target p a i T k w ->
  awaiting target p a i T k (upd_timers (reschedule t) w).
Proof.
  intros [Hid Hjob] Hw. unfold reschedule.
  destruct (every t) as [ms|].
  - apply awaiting_timers; [| |done].
    + intros x Hx. apply list_elem_of_fmap in Hx as (y & -> & Hy).
      case_bool_decide as E; [|by left].
      right. cbn [timer_id job]. split; [congruence|].
      intros Hj. apply Hid. rewrite <- E.
      by rewrite (aw_timer _ _ _ _ _ _ _ Hw y Hy) by auto.
    + apply list_elem_of_fmap. exists (timeout_timer a i T).
      split; [|by destruct Hw].
      rewrite bool_decide_eq_false_2; [done|].
      cbn [timer_id timeout_timer]. congruence.
  - apply awaiting_timers; [| |done].
    + intros x Hx. left. by apply list_elem_of_filter in Hx as [_ ?].
    + apply list_elem_of_filter. split; [|by destruct Hw].
      cbn [timer_id timeout_timer]. congruence.
Qed.

Lemma fire_awaiting t :
  other_timer a i t -> preserves (awaiting target p a i T k) (fire t).
Proof.
  intros Ht w Hw. unfold fire. rewrite bind_gets.
  destruct (existsb _ _); [|done].
  unfold mbind, M_bind, modify.
  pose proof (reschedule_awaiting t w Ht Hw) as Hw'.
  unfold run_job, async. cbn [after].
  destruct (job t) as [a'|a'] eqn:Ej.
  - by apply retry_awaiting.
  - apply timeout_awaiting; [|done]. intros ->. by destruct Ht.
Qed.

End Stability.

(** A millisecond passes before the timeout is due. *)
Lemma advance_awaiting target p a i T k w :
  S k <> T ->
  awaiting target p a i T k w ->
  awaiting target p a i T (S k) (after (advance w)).
Proof.
  intros HT Hw. unfold advance, modify. unfold mbind at 1, M_bind at 1.
  rewrite bind_gets. apply awaiting_now in Hw.
  apply for_each_keeps; [|done].
  intros t w' Ht Hw'. apply fire_awaiting; [|done].
  apply list_elem_of_filter in Ht as [Hdue Hel].
  apply (awaiting_other_timer _ _ _ _ _ _ _ _ Hw Hel).
  rewrite Hdue. by rewrite (aw_now _ _ _ _ _ _ _ Hw).
Qed.

Section Messages.
Variables (target : endpoint) (p a i T k : nat).
#[local] Abbreviation waits := (awaiting target p a i T k).

#[local] Existing Instances awaiting_frame awaiting_unsubscribe
  awaiting_connections.

(** The guest's listener, of this call or of another, on a message that is
    not the reply this call waits for. *)
Lemma handleHandshakeResponse_awaiting a' ev :
  accepts_reply target ev = false ->
  preserves waits (handleHandshakeResponse a' ev).
Proof.
  intros Hev w Hw. unfold handleHandshakeResponse. rewrite bind_gets.
  destruct (attempts w !! a') as [att'|] eqn:E; [|done].
  destruct (negb (destructurable _)); [done|].
  destruct (accepts_reply (attempt_target att') ev) eqn:Hacc; [|done].
  cbn [negb].
  assert (a' <> a) as Ha.
  { intros ->. destruct (aw_attempt _ _ _ _ _ _ _ Hw) as (att & Hatt & _ & _ & Ht).
    rewrite E in Hatt. injection Hatt as ->. congruence. }
  destruct (aw_others _ _ _ _ _ _ _ Hw a' att' E) as [_ Hp].
  clear E. revert w Hw. apply establishes; [done|].
  apply preserves_bind.
  { by apply registerLocalMethods_preserves, _. }
  intros unregisterLocal. apply preserves_bind.
  { by apply registerRemoteMethods_preserves, _. }
  intros rl. apply preserves_bind.
  - intros w Hw. by apply awaiting_connected.
  - intros ? w Hw. unfold settle_handshake, modify. cbn [after].
    apply awaiting_settle; auto.
Qed.

Lemma run_callback_awaiting cb c :
  callback_promise cb <> p -> preserves waits (run_callback cb c).
Proof.
  intros Hcb. unfold run_callback.
  assert (forall q, q <> p ->
            preserves waits (settle_handshake q (Fulfilled c))) as Hs.
  { intros q Hq w Hw. by apply awaiting_settle. }
  destruct cb as [h resolve|resolve]; [|by apply Hs].
  apply preserves_bind; [apply preserves_gets|intros [r|]];
    (apply preserves_bind; [|intros ?; by apply Hs]).
  - case_bool_decide; [apply stop_preserves; apply _|apply preserves_ret].
  - apply preserves_ret.
Qed.

Lemma awaiting_pending_ok w h r g ls l :
  waits w -> records w !! h = Some r -> (g, ls) ∈ connectionListeners r ->
  l ∈ ls -> callback_promise (listener_callback l) <> p.
Proof. intros Hw. apply (aw_callbacks _ _ _ _ _ _ _ Hw). Qed.

Lemma deliver_awaiting r ev :
  accepts_reply target ev = false -> preserves waits (deliver r ev).
Proof.
  apply (deliver_invariant waits
           (fun l => callback_promise (listener_callback l) <> p)
           (fun ev => accepts_reply target ev = false)).
  - apply awaiting_pending_ok.
  - intros l c. apply run_callback_awaiting.
  - intros h w Hw. apply awaiting_alter; [|done]. intros; eauto.
  - intros h guest l w Hw. apply awaiting_alter; [|done].
    intros r0 g ls x Hin Hx. cbn [connectionListeners set_listeners] in Hin.
    apply in_set_elem in Hin as (ls0 & Hin & [->|[_ ->]]); [eauto|].
    exists ls0. split; [done|]. by apply list_elem_of_filter in Hx as [_ ?].
  - intros a' ev'. apply handleHandshakeResponse_awaiting.
Qed.

Lemma accept_awaiting inp :
  unmatched target inp -> preserves waits (accept inp).
Proof.
  destruct inp as [r ev|q]; cbn [accept unmatched]; intros Hev.
  - by apply deliver_awaiting.
  - apply preserves_bind; [apply preserves_gets|intros [[c|e]|]].
    + apply close_connection_preserves; apply _.
    + apply preserves_ret.
    + apply preserves_ret.
Qed.

End Messages.

Lemma millisecond_awaiting target p a i T k inbox w :
  S k <> T ->
  Forall (unmatched target) (inbox (S k)) ->
  awaiting target p a i T k w ->
  awaiting target p a i T (S k) (after (millisecond inbox w)).
Proof.
  intros HT Hin Hw. unfold millisecond.
  destruct (completes_advance w) as [[] Ha].
  rewrite (bind_ok _ _ _ _ _ Ha), bind_gets.
  pose proof (advance_awaiting _ _ _ _ _ _ _ HT Hw) as Hw'.
  rewrite (aw_now _ _ _ _ _ _ _ Hw').
  apply for_each_keeps; [|done].
  intros x w' Hx. apply accept_awaiting.
  by apply (proj1 (Forall_forall _ _) Hin).
Qed.

(** The timeout fires. *)
Lemma fire_timeout_timer target p a i T k w :
  awaiting target p a i T k w ->
  timed_out p (after (fire (timeout_timer a i T) w)).
Proof.
  intros [Hn (att & Hatt & Hc & Hpr & _) Hp Ho Hcb Ht Hs].
  unfold fire. rewrite bind_gets.
  assert (existsb (fun x => bool_decide (timer_id x = timer_id (timeout_timer a i T)))
            (timers w) = true) as ->.
  { apply existsb_exists. exists (timeout_timer a i T).
    split; [by apply list_elem_of_In|]. by apply bool_decide_eq_true_2. }
  unfold mbind, M_bind, modify, run_job, async.
  cbn [job timeout_timer after]. unfold timeout. rewrite bind_gets.
  cbn [attempts upd_timers]. rewrite Hatt, Hc.
  cbn [negb]. unfold settle_handshake, modify, settled_as, settled.
  cbn [after handshakes upd_handshakes upd_timers]. rewrite Hpr, Hp.
  by rewrite lookup_insert_eq.
Qed.

Lemma fire_due target p a i T k l w :
  Forall (fun t => timer_id t = i \/ job t = TimeoutConnection a ->
                   t = timeout_timer a i T) l ->
  (awaiting target p a i T k w /\ timeout_timer a i T ∈ l) \/ timed_out p w ->
  timed_out p (after (for_each l fire w)).
Proof.
  intros Hl. revert w. induction Hl as [|t l Ht Hl IH]; intros w.
  - intros [[_ Hin]|H]; [by apply elem_of_nil in Hin|done].
  - intros H. cbn [for_each]. destruct (completes_fire t w) as [[] Hf].
    rewrite (bind_ok _ _ _ _ _ Hf). apply IH.
    destruct H as [[Hw Hin]|H].
    + destruct (decide (timer_id t = i)) as [Hid|Hid].
      * right. rewrite (Ht (or_introl Hid)).
        by apply (fire_timeout_timer target p a i T k).
      * left. split.
        -- apply fire_awaiting; [|done]. split; [done|].
           intros Hj. by rewrite (Ht (or_intror Hj)) in Hid.
        -- apply elem_of_cons in Hin as [<-|Hin]; [done|done].
    + right. exact (fire_preserves (timed_out p) t w H).
Qed.

(** The millisecond in which the timeout is due. *)
Lemma millisecond_due target p a i T k inbox w :
  S k = T ->
  awaiting target p a i T k w ->
  timed_out p (after (millisecond inbox w)).
Proof.
  intros HT Hw. unfold millisecond.
  destruct (completes_advance w) as [[] Ha].
  rewrite (bind_ok _ _ _ _ _ Ha).
  apply (preserves_bind (timed_out p)).
  { apply preserves_gets. }
  { intros t. apply preserves_for_each. intros x.
    apply accept_preserves; apply _. }
  unfold advance, modify. unfold mbind at 1, M_bind at 1.
  rewrite bind_gets. apply awaiting_now in Hw.
  apply (fire_due target p a i T (S k)).
  - apply Forall_forall. intros t Hel.
    apply list_elem_of_filter in Hel as [_ Hel].
    by apply (aw_timer _ _ _ _ _ _ _ Hw).
  - left. split; [done|]. apply list_elem_of_filter. split.
    + cbn [due timeout_timer]. by rewrite (aw_now _ _ _ _ _ _ _ Hw).
    + by apply (aw_timer_set _ _ _ _ _ _ _ Hw).
Qed.

Lemma guest_connect_called sch target w :
  guest_connect sch target w = Ok (fresh w) (called sch target w).
Proof. by destruct w. Qed.

Lemma called_awaiting sch target w :
  allocated w ->
  awaiting target (fresh w) (1 + fresh w) (4 + fresh w)
    (now w + TIMEOUT_INTERVAL) (now w) (called sch target w).
Proof.
  intros (Hhs & Hatt & Hrec & Htim). split.
  - done.
  - eexists. cbn [attempts called].
    rewrite lookup_alter_eq, lookup_insert_eq. by cbn.
  - cbn [handshakes called].
    destruct (handshakes w !! fresh w) as [s|] eqn:E; [|done].
    apply Hhs in E. lia.
  - intros a' att'. cbn [attempts called].
    destruct (decide (a' = 1 + fresh w)) as [->|Hne].
    + rewrite lookup_alter_eq, lookup_insert_eq. cbn. intros [= <-]. cbn.
      split; [|done]. intros [=]. lia.
    + rewrite lookup_alter_ne, lookup_insert_ne by done. intros E.
      apply Hatt in E as [Hp Hi]. split; [|lia].
      destruct (interval att') as [j|]; [|done]. cbn in Hi. intros [=]. lia.
  - intros h r g ls l Hr Hg Hl. cbn [records called] in Hr.
    apply Hrec in Hr. cbn in Hr.
    pose proof (proj1 (Forall_forall _ _) Hr _ Hg) as Hls. cbn in Hls.
    pose proof (proj1 (Forall_forall _ _) Hls _ Hl) as H. cbn in H. lia.
  - intros t. cbn [timers called]. rewrite !elem_of_app, !list_elem_of_singleton.
    intros [[Hel| ->]| ->]; [| |done].
    + pose proof (proj1 (Forall_forall _ _) Htim _ Hel) as [H1 H2].
      intros [E|E]; [lia|]. rewrite E in H2. cbn in H2. lia.
    + cbn. intros [E|E]; [lia|done].
  - cbn [timers called]. rewrite elem_of_app, list_elem_of_singleton. by right.
Qed.

Lemma run_for_awaiting target p a i T k inbox n w :
  awaiting target p a i T k w ->
  k + n < T ->
  (forall t, k < t <= k + n -> Forall (unmatched target) (inbox t)) ->
  awaiting target p a i T (k + n) (after (run_for n inbox w)).
Proof.
  intros Hw. induction n as [|n IH]; intros Hn Hin.
  - by rewrite Nat.add_0_r.
  - rewrite run_for_S. destruct (completes_run_for n inbox w) as [[] Hr].
    rewrite (bind_ok _ _ _ _ _ Hr), Nat.add_succ_r.
    apply millisecond_awaiting; [lia|apply Hin; lia|].
    apply IH; [lia|]. intros t Ht. apply Hin. lia.
Qed.

Lemma run_for_times_out target p a i T k inbox n w :
  awaiting target p a i T k w ->
  k < T <= k + n ->
  (forall t, k < t < T -> Forall (unmatched target) (inbox t)) ->
  timed_out p (after (run_for n inbox w)).
Proof.
  intros Hw. induction n as [|n IH]; intros Hn Hin; [lia|].
  rewrite run_for_S. destruct (completes_run_for n inbox w) as [[] Hr].
  rewrite (bind_ok _ _ _ _ _ Hr).
  destruct (decide (S (k + n) = T)) as [E|E].
  - apply (millisecond_due target p a i T (k + n)); [done|].
    apply run_for_awaiting; [done|lia|]. intros t Ht. apply Hin. lia.
  - apply (millisecond_preserves (timed_out p)). apply IH; [lia|done].
Qed.

(** *** The addresses in use *)

Ltac split_bounded := split; [|split; [|split]].

Lemma bounded_mono F G F' G' w :
  F <= F' -> G <= G' -> bounded F G w -> bounded F' G' w.
Proof.
  intros HF HG (Hhs & Hatt & Hrec & Htim). split_bounded.
  - eapply map_Forall_impl; [exact Hhs|]. simpl. intros; lia.
  - eapply map_Forall_impl; [exact Hatt|]. simpl. intros _ att [H1 H2].
    split; [lia|]. destruct (interval att); simpl in *; [lia|done].
  - eapply map_Forall_impl; [exact Hrec|]. simpl. intros _ r Hr.
    eapply Forall_impl; [exact Hr|]. simpl. intros gl Hgl.
    eapply Forall_impl; [exact Hgl|]. simpl. intros l. lia.
  - eapply Forall_impl; [exact Htim|]. simpl. intros t. lia.
Qed.

Lemma allocated_from_allocated F w : allocated_from F w -> allocated w.
Proof. intros [HF Hb]. by apply (bounded_mono F (fresh w)). Qed.

Lemma allocated_allocated_from w : allocated w -> allocated_from (fresh w) w.
Proof. by split. Qed.

(** A change of a host record that adds no listener. *)
Lemma bounded_alter F G (f : host -> host) h w :
  (forall r g ls l,
     (g, ls) ∈ connectionListeners (f r) -> l ∈ ls ->
     exists ls0, (g, ls0) ∈ connectionListeners r /\ l ∈ ls0) ->
  bounded F G w -> bounded F G (upd_records (alter f h) w).
Proof.
  intros Hf (Hhs & Hatt & Hrec & Htim). split_bounded; try done.
  cbn [records upd_records]. intros h' r'.
  destruct (decide (h = h')) as [->|Hne].
  - rewrite lookup_alter_eq. destruct (records w !! h') as [r|] eqn:E; [|done].
    simpl. intros [= <-]. apply Forall_forall. intros [g ls] Hg.
    apply Forall_forall. intros l Hl.
    destruct (Hf r g ls l Hg Hl) as (ls0 & H1 & H2).
    pose proof (proj1 (Forall_forall _ _) (Hrec _ _ E) _ H1) as H3.
    by apply (proj1 (Forall_forall _ _) H3).
  - rewrite lookup_alter_ne by done. apply Hrec.
Qed.

Lemma bounded_new_host F G h t id w :
  bounded F G w -> bounded F G (upd_records <[h := Host t id 0 [] []]> w).
Proof.
  intros (Hhs & Hatt & Hrec & Htim). split_bounded; try done.
  cbn [records upd_records]. apply map_Forall_insert_2; [|done].
  by cbn.
Qed.

Lemma bounded_add_listener F G h guest id sch cb w :
  callback_promise cb < F ->
  bounded F G w ->
  bounded F G
    (upd_records
       (alter (set_listeners
                 (in_set guest (fun ls => ls ++ [Listener id h guest sch cb])))
              h) w).
Proof.
  intros Hcb (Hhs & Hatt & Hrec & Htim). split_bounded; try done.
  cbn [records upd_records]. intros h' r'.
  destruct (decide (h = h')) as [->|Hne].
  - rewrite lookup_alter_eq. destruct (records w !! h') as [r|] eqn:E; [|done].
    simpl. intros [= <-]. apply Forall_forall. intros [g ls] Hg.
    cbn [connectionListeners set_listeners] in Hg.
    apply in_set_elem in Hg as (ls0 & Hin & Hls).
    pose proof (proj1 (Forall_forall _ _) (Hrec _ _ E) _ Hin) as H3.
    cbn in H3. cbn. destruct Hls as [->|[_ ->]]; [done|].
    apply Forall_app. split; [done|]. by repeat constructor.
  - rewrite lookup_alter_ne by done. apply Hrec.
Qed.

Lemma bounded_settle F G q s w :
  q < G -> bounded F G w -> bounded F G (upd_handshakes (settled q s) w).
Proof.
  intros Hq (Hhs & Hatt & Hrec & Htim). split_bounded; try done.
  cbn [handshakes upd_handshakes]. unfold settled.
  destruct (handshakes w !! q); [done|]. by apply map_Forall_insert_2.
Qed.

Lemma bounded_connected F G a w :
  bounded F G w ->
  bounded F G (upd_attempts (alter (set_connected true) a) w).
Proof.
  intros (Hhs & Hatt & Hrec & Htim). split_bounded; try done.
  cbn [attempts upd_attempts]. intros a' att'.
  destruct (decide (a = a')) as [->|Hne].
  - rewrite lookup_alter_eq. destruct (attempts w !! a') as [att|] eqn:E; [|done].
    simpl. intros [= <-]. cbn. by apply (Hatt a').
  - rewrite lookup_alter_ne by done. apply Hatt.
Qed.

Lemma bounded_timers F G (f : list timer -> list timer) w :
  (forall t, t ∈ f (timers w) ->
     exists t0, t0 ∈ timers w /\ timer_id t = timer_id t0 /\ job t = job t0) ->
  bounded F G w -> bounded F G (upd_timers f w).
Proof.
  intros Hf (Hhs & Hatt & Hrec & Htim). split_bounded; try done.
  cbn [timers upd_timers]. apply Forall_forall. intros t Ht.
  destruct (Hf t Ht) as (t0 & Ht0 & -> & ->).
  by apply (proj1 (Forall_forall _ _) Htim).
Qed.

#[local] Instance below_frame q : StableFrame (below q).
Proof. split; try done. intros w. unfold below. cbn. lia. Qed.
#[local] Instance below_guest q : StableGuest (below q).
Proof. by split. Qed.
#[local] Instance below_unsubscribe q : StableUnsubscribe (below q).
Proof. by split. Qed.
#[local] Instance below_records q : StableRecords (below q).
Proof. by split. Qed.
#[local] Instance below_connections q : StableConnections (below q).
Proof. by split. Qed.

#[local] Instance both_frame P Q :
  StableFrame P -> StableFrame Q -> StableFrame (both P Q).
Proof.
  intros HP HQ.
  split; first [intros ? w [? ?]|intros w [? ?]]; split;
    first [by apply HP|by apply HQ].
Qed.
#[local] Instance both_unsubscribe P Q :
  StableUnsubscribe P -> StableUnsubscribe Q -> StableUnsubscribe (both P Q).
Proof. intros HP HQ. split. intros r id w [? ?]. split; [apply HP|apply HQ]; done. Qed.
#[local] Instance both_connections P Q :
  StableConnections P -> StableConnections Q -> StableConnections (both P Q).
Proof. intros HP HQ. split. intros f h w [? ?]. split; [apply HP|apply HQ]; done. Qed.

#[local] Instance allocated_from_frame F : StableFrame (allocated_from F).
Proof.
  split; try done. intros w [HF Hb]. split; [cbn; lia|].
  apply (bounded_mono F (fresh w)); [done|cbn; lia|done].
Qed.
#[local] Instance allocated_from_unsubscribe F :
  StableUnsubscribe (allocated_from F).
Proof. by split. Qed.
#[local] Instance allocated_from_connections F :
  StableConnections (allocated_from F).
Proof.
  split. intros f h w [HF Hb]. split; [done|].
  apply bounded_alter; [|done]. intros; eauto.
Qed.

#[local] Instance allocated_frame : StableFrame allocated.
Proof.
  split; try done. intros w Hw.
  apply (bounded_mono (fresh w) (fresh w)); [cbn; lia..|done].
Qed.
#[local] Instance allocated_unsubscribe : StableUnsubscribe allocated.
Proof. by split. Qed.
#[local] Instance allocated_connections : StableConnections allocated.
Proof.
  split. intros f h w Hb. apply bounded_alter; [|done]. intros; eauto.
Qed.

Lemma allocated_from_settle F q s w :
  q < fresh w ->
  allocated_from F w -> allocated_from F (upd_handshakes (settled q s) w).
Proof. intros Hq [HF Hb]. split; [done|]. by apply bounded_settle. Qed.

Lemma settle_handshake_allocated F q s :
  preserves (both (allocated_from F) (below q)) (settle_handshake q s).
Proof.
  intros w [Hw Hq]. split; [|done]. by apply allocated_from_settle.
Qed.

Lemma run_callback_allocated F cb c :
  callback_promise cb < F -> preserves (allocated_from F) (run_callback cb c).
Proof.
  intros Hcb. unfold run_callback.
  assert (forall q, q < F ->
            preserves (allocated_from F) (settle_handshake q (Fulfilled c)))
    as Hs.
  { intros q Hq w Hw. apply allocated_from_settle; [|done].
    destruct Hw. lia. }
  destruct cb as [h resolve|resolve]; [|by apply Hs].
  apply preserves_bind; [apply preserves_gets|intros [r|]];
    (apply preserves_bind; [|intros ?; by apply Hs]).
  - case_bool_decide; [apply stop_preserves; apply _|apply preserves_ret].
  - apply preserves_ret.
Qed.

Lemma handleHandshakeResponse_allocated F a ev :
  preserves (allocated_from F) (handleHandshakeResponse a ev).
Proof.
  intros w Hw. unfold handleHandshakeResponse. rewrite bind_gets.
  destruct (attempts w !! a) as [att|] eqn:E; [|done].
  destruct (negb (destructurable _)); [done|].
  destruct (negb (accepts_reply _ _)); [done|].
  assert (both (allocated_from F) (below (attempt_promise att)) w) as Hb.
  { split; [done|]. destruct Hw as [_ (_ & Hatt & _)].
    by destruct (Hatt a att E). }
  clear E Hw. revert w Hb. apply establishes; [by intros w []|].
  apply preserves_bind.
  { by apply registerLocalMethods_preserves, _. }
  intros unregisterLocal. apply preserves_bind.
  { by apply registerRemoteMethods_preserves, _. }
  intros rl. apply preserves_bind.
  - intros w [[HF Hw] Hq]. split; [|done]. split; [done|].
    by apply bounded_connected.
  - intros ?. apply settle_handshake_allocated.
Qed.

Lemma deliver_allocated_from F r ev :
  preserves (allocated_from F) (deliver r ev).
Proof.
  apply (deliver_invariant (allocated_from F)
           (fun l => callback_promise (listener_callback l) < F)
           (fun _ => True)); [| | | | |done].
  - intros w h r0 g ls l [_ (_ & _ & Hrec & _)] Hr Hg Hl.
    pose proof (proj1 (Forall_forall _ _) (Hrec _ _ Hr) _ Hg) as H.
    by apply (proj1 (Forall_forall _ _) H).
  - intros l c. apply run_callback_allocated.
  - intros h w [HF Hw]. split; [done|]. apply bounded_alter; [|done].
    intros; eauto.
  - intros h guest l w [HF Hw]. split; [done|]. apply bounded_alter; [|done].
    intros r0 g ls x Hin Hx. cbn [connectionListeners set_listeners] in Hin.
    apply in_set_elem in Hin as (ls0 & Hin & [->|[_ ->]]); [eauto|].
    exists ls0. split; [done|]. by apply list_elem_of_filter in Hx as [_ ?].
  - intros a ev' _. apply handleHandshakeResponse_allocated.
Qed.

(** What the event loop does keeps the addresses in use allocated. *)
Lemma deliver_allocated r ev : preserves allocated (deliver r ev).
Proof.
  intros w Hw. apply (allocated_from_allocated (fresh w)).
  apply deliver_allocated_from. by apply allocated_allocated_from.
Qed.

Lemma allocated_timers (f : list timer -> list timer) w :
  (forall t, t ∈ f (timers w) ->
     exists t0, t0 ∈ timers w /\ timer_id t = timer_id t0 /\ job t = job t0) ->
  allocated w -> allocated (upd_timers f w).
Proof. apply bounded_timers. Qed.

Lemma clearInterval_allocated j : preserves allocated (clearInterval j).
Proof.
  intros w Hw. apply allocated_timers; [|done].
  intros t Ht. apply list_elem_of_filter in Ht as [_ Ht]. eauto.
Qed.

Lemma retry_allocated a : preserves allocated (retry a).
Proof.
  intros w Hw. unfold retry. rewrite bind_gets.
  destruct (attempts w !! a) as [att|]; [|done].
  destruct (connected att); [by apply clearInterval_allocated|].
  destruct (is_window _); by apply (postMessage_preserves _).
Qed.

Lemma timeout_allocated a : preserves allocated (timeout a).
Proof.
  intros w Hw. unfold timeout. rewrite bind_gets.
  destruct (attempts w !! a) as [att|] eqn:E; [|done].
  destruct (negb _); [|done].
  apply bounded_settle; [|done].
  destruct Hw as (_ & Hatt & _). by destruct (Hatt a att E).
Qed.

Lemma fire_allocated t : preserves allocated (fire t).
Proof.
  unfold fire. apply preserves_bind; [apply preserves_gets|intros []];
    [|apply preserves_ret].
  apply preserves_bind.
  - intros w Hw. apply allocated_timers; [|done].
    intros x Hx. unfold reschedule in Hx. destruct (every t) as [ms|].
    + apply list_elem_of_fmap in Hx as (y & -> & Hy).
      exists y. by case_bool_decide.
    + apply list_elem_of_filter in Hx as [_ Hx]. eauto.
  - intros ?. unfold run_job. apply preserves_async.
    destruct (job t); [apply retry_allocated|apply timeout_allocated].
Qed.

Lemma advance_allocated : preserves allocated advance.
Proof.
  unfold advance. apply preserves_bind; [by intros w Hw|intros ?].
  apply preserves_bind; [apply preserves_gets|intros l].
  apply preserves_for_each, fire_allocated.
Qed.

Lemma accept_allocated i : preserves allocated (accept i).
Proof.
  destruct i as [r ev|q]; cbn [accept]; [apply deliver_allocated|].
  apply preserves_bind; [apply preserves_gets|intros [[c|e]|]].
  - apply close_connection_preserves; apply _.
  - apply preserves_ret.
  - apply preserves_ret.
Qed.

Lemma millisecond_allocated inbox : preserves allocated (millisecond inbox).
Proof.
  unfold millisecond. apply preserves_bind; [apply advance_allocated|].
  intros ?. apply preserves_bind; [apply preserves_gets|intros t].
  apply preserves_for_each, accept_allocated.
Qed.

(** The calls of the program. *)
Lemma bind_alloc {B} (k : nat -> M B) w :
  (alloc ≫= k) w = k (fresh w) (upd_fresh S w).
Proof. reflexivity. Qed.

Lemma allocated_next q w :
  allocated w -> q = fresh w -> both allocated (below q) (upd_fresh S w).
Proof.
  intros Hw ->. split; [by apply stable_fresh|]. unfold below. cbn. lia.
Qed.

Lemma findOrCreateHostFor_invariant P `{!StableFrame P} t :
  (forall h t id w, P w -> P (upd_records <[h := Host t id 0 [] []]> w)) ->
  preserves P (findOrCreateHostFor t).
Proof.
  intros Hnew. unfold findOrCreateHostFor.
  apply preserves_bind; [apply preserves_gets|intros [h|]];
    [apply preserves_ret|].
  apply preserves_bind; [by apply alloc_preserves|intros h].
  apply preserves_bind; [by apply addEventListener_preserves|intros id].
  apply preserves_bind; [intros w Hw; by apply Hnew|].
  intros ?. apply preserves_bind; [|intros ?; apply preserves_ret].
  intros w Hw. by apply stable_hosts.
Qed.

Lemma findOrCreateHostFor_allocated q t :
  preserves (both allocated (below q)) (findOrCreateHostFor t).
Proof.
  apply findOrCreateHostFor_invariant; [apply _|].
  intros h t' id w [Hw Hq]. split; [|done]. by apply bounded_new_host.
Qed.

Lemma host_connect_allocated h guest sch cb :
  preserves (both allocated (below (callback_promise cb)))
    (host_connect h guest sch cb).
Proof.
  assert (forall f,
    (forall r g ls l,
       (g, ls) ∈ connectionListeners (f r) -> l ∈ ls ->
       exists ls0, (g, ls0) ∈ connectionListeners r /\ l ∈ ls0) ->
    preserves (both allocated (below (callback_promise cb)))
      (upd_host h f)) as Halter.
  { intros f Hf w [Hw Hq]. split; [|done]. by apply bounded_alter. }
  unfold host_connect.
  apply preserves_bind; [apply Halter; intros; eauto|intros ?].
  apply preserves_bind; [apply preserves_gets|intros r].
  apply preserves_bind.
  { destruct (r ≫= _); [apply preserves_ret|]. apply Halter.
    intros r0 g ls l Hin Hl. cbn [connectionListeners set_listeners] in Hin.
    apply elem_of_app in Hin as [Hin|Hin]; [eauto|].
    apply list_elem_of_singleton in Hin as [= -> ->].
    by apply elem_of_nil in Hl. }
  intros ?. apply preserves_bind; [apply alloc_preserves, _|intros id].
  intros w [Hw Hq]. split; [|done]. by apply bounded_add_listener.
Qed.

Lemma connect_allocated guest sch : preserves allocated (connect guest sch).
Proof.
  intros w Hw. unfold connect. rewrite bind_alloc.
  pose proof (allocated_next (fresh w) w Hw eq_refl) as Hb.
  revert Hb. generalize (upd_fresh S w). generalize (fresh w).
  intros q. apply establishes; [by intros ? []|].
  destruct guest as [g|].
  - apply preserves_bind; [apply findOrCreateHostFor_allocated|intros h].
    apply preserves_bind; [|intros ?; apply preserves_ret].
    apply (host_connect_allocated h (Some g) sch (ConnectCallback h q)).
  - apply preserves_bind; [|intros ?; apply preserves_ret].
    intros w' [Hw' Hq]. split; [|done]. by apply bounded_settle.
Qed.

Lemma next_connection_allocated server sch :
  preserves allocated (next_connection server sch).
Proof.
  intros w Hw. unfold next_connection. rewrite bind_alloc.
  pose proof (allocated_next (fresh w) w Hw eq_refl) as Hb.
  revert Hb. generalize (upd_fresh S w). generalize (fresh w).
  intros q. apply establishes; [by intros ? []|].
  apply preserves_bind; [|intros ?; apply preserves_ret].
  apply (host_connect_allocated server None sch (ServeResolve q)).
Qed.

Lemma called_allocated sch target w :
  allocated w -> allocated (called sch target w).
Proof.
  intros Hw.
  apply (bounded_mono (fresh w) (fresh w) (5 + fresh w) (5 + fresh w)) in Hw;
    [|lia..].
  destruct Hw as (Hhs & Hatt & Hrec & Htim). split_bounded; try done.
  - cbn [attempts called]. intros a att.
    destruct (decide (a = 1 + fresh w)) as [->|Hne].
    + rewrite lookup_alter_eq, lookup_insert_eq. cbn. intros [= <-]. cbn. lia.
    + rewrite lookup_alter_ne, lookup_insert_ne by done. apply Hatt.
  - cbn [timers called]. rewrite !Forall_app. split; [split; [done|]|];
      repeat constructor; cbn; lia.
Qed.

Lemma guest_connect_allocated sch target :
  preserves allocated (guest_connect sch target).
Proof.
  intros w Hw. rewrite guest_connect_called. by apply called_allocated.
Qed.

Lemma exec_allocated c : preserves allocated (exec c).
Proof.
  destruct c; unfold exec.
  - apply preserves_bind; [apply connect_allocated|intros ?; apply preserves_ret].
  - apply preserves_bind; [|intros ?; apply preserves_ret].
    apply findOrCreateHostFor_invariant; [apply _|].
    intros h t' id w Hw. by apply bounded_new_host.
  - apply preserves_bind;
      [apply next_connection_allocated|intros ?; apply preserves_ret].
  - apply disconnect_preserves; apply _.
  - apply stop_preserves; apply _.
  - apply preserves_bind; [|intros ?; apply preserves_ret].
    apply createRPC_preserves, _.
  - apply preserves_bind;
      [apply guest_connect_allocated|intros ?; apply preserves_ret].
  - apply advance_allocated.
  - apply accept_allocated.
Qed.

Lemma empty_allocated : allocated empty_realm.
Proof. split_bounded; try apply map_Forall_empty. constructor. Qed.

(** Every context the program reaches has its addresses allocated. *)
Lemma reachable_allocated cmds :
  allocated (after (for_each cmds exec empty_realm)).
Proof.
  apply preserves_for_each; [apply exec_allocated|apply empty_allocated].
Qed.

(** C4.  In any context the program reaches, the guest's connect() is
    called.  If, of what arrives during the next 3000 ms, no message has the
    action HANDSHAKE_REPLY and the target as its source, then after 3000 ms
    or more the promise that connect() returned is rejected with
    "connection timeout". *)
Theorem guest_connect_times_out cmds sch target inbox n :
  let w0 := after (for_each cmds exec empty_realm) in
  (forall t, now w0 < t <= now w0 + TIMEOUT_INTERVAL ->
             Forall (unmatched target) (inbox t)) ->
  TIMEOUT_INTERVAL <= n ->
  exists promise w,
    (promise ← guest_connect sch target; run_for n inbox;; mret promise) w0
    = Ok promise w
    /\ handshakes w !! promise = Some (Rejected (JStr "connection timeout")).
Proof.
  intros w0 Hin Hn. exists (fresh w0).
  destruct (completes_run_for n inbox (called sch target w0)) as [[] Hr].
  eexists. split.
  - rewrite (bind_ok _ _ _ _ _ (guest_connect_called sch target w0)).
    by rewrite (bind_ok _ _ _ _ _ Hr).
  - apply (run_for_times_out target (fresh w0) (1 + fresh w0) (4 + fresh w0)
             (now w0 + TIMEOUT_INTERVAL) (now w0)).
    + apply called_awaiting, reachable_allocated.
    + unfold TIMEOUT_INTERVAL in *. lia.
    + intros t Ht. apply Hin. lia.
Qed.

(** *** What a call of [connect] holds on to *)

Section Subscribed.
Variable s : subscription.
Hypothesis Hs : guest_receiver (on s).

#[local] Instance subscribed_frame : StableFrame (subscribed s).
Proof.
  split; try done. intros s' w Hw. unfold subscribed. cbn.
  apply elem_of_app. by left.
Qed.
#[local] Instance subscribed_guest : StableGuest (subscribed s).
Proof. by split. Qed.
#[local] Instance subscribed_settle : StableSettle (subscribed s).
Proof. by split. Qed.
#[local] Instance subscribed_records : StableRecords (subscribed s).
Proof. by split. Qed.
#[local] Instance subscribed_connections : StableConnections (subscribed s).
Proof. by split. Qed.

(** [host.stop()] without the clean-up of connections removes the host's
    own listener, not a guest's. *)
Lemma stop_subscribed h : preserves (subscribed s) (stop h false).
Proof.
  unfold stop. apply preserves_bind; [apply preserves_gets|intros [r|]];
    [|apply preserves_ret].
  apply preserves_bind; [apply preserves_ret|intros ?].
  apply preserves_bind; [|intros ?; intros w Hw; by apply stable_hosts].
  intros w Hw. unfold removeEventListener, modify, subscribed. cbn.
  apply list_elem_of_filter. split; [|done].
  unfold is_subscription. rewrite bool_decide_eq_false_2; [done|].
  apply Hs.
Qed.

Lemma run_callback_subscribed cb c :
  preserves (subscribed s) (run_callback cb c).
Proof.
  unfold run_callback.
  destruct cb as [h resolve|resolve];
    [|apply settle_handshake_preserves; apply _].
  apply preserves_bind; [apply preserves_gets|intros [r|]];
    (apply preserves_bind;
       [|intros ?; apply settle_handshake_preserves; apply _]).
  - case_bool_decide; [apply stop_subscribed|apply preserves_ret].
  - apply preserves_ret.
Qed.

Lemma deliver_subscribed r ev : preserves (subscribed s) (deliver r ev).
Proof.
  apply (deliver_invariant (subscribed s) (fun _ => True) (fun _ => True));
    [done| | | | |done].
  - intros l c _. apply run_callback_subscribed.
  - intros h w. apply stable_pending_down.
  - intros h guest l w. apply stable_delete_listener.
  - intros a ev' _. apply handleHandshakeResponse_preserves; apply _.
Qed.

Lemma millisecond_subscribed inbox :
  (forall t, Forall is_message (inbox t)) ->
  preserves (subscribed s) (millisecond inbox).
Proof.
  intros Hin. unfold millisecond.
  apply preserves_bind; [apply advance_preserves; apply _|intros ?].
  apply preserves_bind; [apply preserves_gets|intros t].
  specialize (Hin t). induction Hin as [|i l Hi _ IH]; [apply preserves_ret|].
  simpl. apply preserves_bind; [|by intros ?].
  destruct i; [apply deliver_subscribed|done].
Qed.

Lemma run_for_subscribed inbox n :
  (forall t, Forall is_message (inbox t)) ->
  preserves (subscribed s) (run_for n inbox).
Proof.
  intros Hin. induction n as [|n IH]; [apply preserves_ret|].
  rewrite run_for_S. apply preserves_bind; [done|intros ?].
  by apply millisecond_subscribed.
Qed.

End Subscribed.

Lemma guest_listeners_receiver target : guest_receiver (guest_listeners target).
Proof. intros t. unfold guest_listeners. by destruct (is_service_worker _). Qed.

Lemma subscribed_listening r l a w :
  subscribed (Subscription r l (HandleHandshakeResponse a)) w ->
  listening a w = true.
Proof.
  intros Hs. apply existsb_exists. eexists. split; [by apply list_elem_of_In|].
  cbn. by apply bool_decide_eq_true_2.
Qed.

Lemma retrying_for_retrying target a j w :
  retrying_for target a j w -> retrying a w = true.
Proof.
  intros [_ _ Hi (t & Ht & Hj)]. apply existsb_exists.
  exists t. split; [by apply list_elem_of_In|].
  destruct (Hi t Ht Hj) as [_ ->]. by apply bool_decide_eq_true_2.
Qed.

Section Retrying.
Variables (target : endpoint) (a j : nat).
#[local] Abbreviation retries := (retrying_for target a j).

Ltac retrying_stable :=
  split; intros;
  match goal with H : retrying_for _ _ _ _ |- _ => destruct H end;
  by split.

#[local] Instance retrying_frame : StableFrame retries.
Proof. retrying_stable. Qed.
#[local] Instance retrying_unsubscribe : StableUnsubscribe retries.
Proof. retrying_stable. Qed.
#[local] Instance retrying_settle : StableSettle retries.
Proof. retrying_stable. Qed.
#[local] Instance retrying_records : StableRecords retries.
Proof. retrying_stable. Qed.
#[local] Instance retrying_connections : StableConnections retries.
Proof. retrying_stable. Qed.

Lemma retrying_connected a' w :
  a' <> a -> retries w ->
  retries (upd_attempts (alter (set_connected true) a') w).
Proof.
  intros Ha [Hatt Ho Hi Ht]. split; try done.
  - cbn [attempts upd_attempts]. by rewrite lookup_alter_ne.
  - intros a'' att''. cbn [attempts upd_attempts].
    destruct (decide (a' = a'')) as [->|Hne].
    + rewrite lookup_alter_eq.
      destruct (attempts w !! a'') as [att|] eqn:E; [|done].
      simpl. intros [= <-]. simpl. by apply (Ho a'').
    + rewrite lookup_alter_ne by done. apply Ho.
Qed.

(** A change of the timers that keeps those called [j] as they are, up to
    the time they are due. *)
Lemma retrying_timers (f : list timer -> list timer) w :
  (forall t, t ∈ f (timers w) -> timer_id t = j ->
     exists t0, t0 ∈ timers w /\ timer_id t0 = j
                /\ every t = every t0 /\ job t = job t0) ->
  (forall t0, t0 ∈ timers w -> timer_id t0 = j ->
     exists t, t ∈ f (timers w) /\ timer_id t = j) ->
  retries w -> retries (upd_timers f w).
Proof.
  intros Hf Hg [Hatt Ho Hi (t0 & Ht0 & Hj0)]. split; try done.
  - intros t. cbn [timers upd_timers]. intros Ht Hj.
    destruct (Hf t Ht Hj) as (t1 & Ht1 & Hj1 & -> & ->). by apply Hi.
  - cbn [timers upd_timers]. by apply (Hg t0).
Qed.

Lemma clearInterval_retrying i :
  i <> Some j -> preserves retries (clearInterval i).
Proof.
  intros Hi w Hw. unfold clearInterval, modify. cbn [after].
  apply retrying_timers; [| |done].
  - intros t Ht Hj. apply list_elem_of_filter in Ht as [_ Ht]. eauto.
  - intros t0 Ht0 Hj0. exists t0. split; [|done].
    apply list_elem_of_filter. split; [|done]. congruence.
Qed.

Lemma retry_retrying a' : preserves retries (retry a').
Proof.
  intros w Hw. unfold retry. rewrite bind_gets.
  destruct (attempts w !! a') as [att'|] eqn:E; [|done].
  destruct (connected att') eqn:Hc.
  - apply clearInterval_retrying; [|done].
    apply (rt_others _ _ _ _ Hw a' att' E). intros ->.
    destruct (rt_attempt _ _ _ _ Hw) as (att & Hatt & Hn & _).
    rewrite E in Hatt. injection Hatt as ->. congruence.
  - destruct (is_window _); by apply (postMessage_preserves _).
Qed.

Lemma fire_retrying t : no_timeout j t -> preserves retries (fire t).
Proof.
  intros Ht. unfold fire.
  apply preserves_bind; [apply preserves_gets|intros []];
    [|apply preserves_ret].
  apply preserves_bind.
  - intros w Hw. unfold modify. cbn [after]. unfold reschedule.
    destruct (every t) as [ms|] eqn:Ev.
    + apply retrying_timers; [| |done].
      * intros x Hx Hj. apply list_elem_of_fmap in Hx as (y & -> & Hy).
        exists y. revert Hj. by case_bool_decide.
      * intros t0 Ht0 Hj0. eexists. split.
        -- apply list_elem_of_fmap. by exists t0.
        -- by case_bool_decide.
    + apply retrying_timers; [| |done].
      * intros x Hx Hj. apply list_elem_of_filter in Hx as [_ Hx]. eauto.
      * intros t0 Ht0 Hj0. exists t0. split; [|done].
        apply list_elem_of_filter. split; [|done].
        intros E. apply Ht; congruence.
  - intros ?. unfold run_job. apply preserves_async.
    destruct (job t); [apply retry_retrying|apply timeout_preserves, _].
Qed.

Lemma advance_retrying : preserves retries advance.
Proof.
  intros w Hw. unfold advance, modify. unfold mbind at 1, M_bind at 1.
  rewrite bind_gets.
  assert (retries (upd_now S w)) as Hw' by (destruct Hw; by split).
  apply for_each_keeps; [|done].
  intros t w' Ht. apply fire_retrying.
  apply list_elem_of_filter in Ht as [_ Ht]. intros Hj.
  by apply (rt_interval _ _ _ _ Hw' t).
Qed.

Lemma handleHandshakeResponse_retrying a' ev :
  accepts_reply target ev = false ->
  preserves retries (handleHandshakeResponse a' ev).
Proof.
  intros Hev w Hw. unfold handleHandshakeResponse. rewrite bind_gets.
  destruct (attempts w !! a') as [att'|] eqn:E; [|done].
  destruct (negb (destructurable _)); [done|].
  destruct (accepts_reply (attempt_target att') ev) eqn:Hacc; [|done].
  cbn [negb].
  assert (a' <> a) as Ha.
  { intros ->. destruct (rt_attempt _ _ _ _ Hw) as (att & Hatt & _ & Ht).
    rewrite E in Hatt. injection Hatt as ->. congruence. }
  clear E. revert w Hw. apply establishes; [done|].
  apply preserves_bind.
  { by apply registerLocalMethods_preserves, _. }
  intros unregisterLocal. apply preserves_bind.
  { by apply registerRemoteMethods_preserves, _. }
  intros rl. apply preserves_bind.
  - intros w Hw. by apply retrying_connected.
  - intros ?. apply settle_handshake_preserves, _.
Qed.

Lemma deliver_retrying r ev :
  accepts_reply target ev = false -> preserves retries (deliver r ev).
Proof.
  apply (deliver_invariant retries (fun _ => True)
           (fun ev => accepts_reply target ev = false)); [done| | | |].
  - intros l c _. apply run_callback_preserves; apply _.
  - intros h w. apply stable_pending_down.
  - intros h guest l w. apply stable_delete_listener.
  - intros a0 ev'. apply handleHandshakeResponse_retrying.
Qed.

End Retrying.

Lemma millisecond_retrying target a j inbox :
  (forall t, Forall (other_message target) (inbox t)) ->
  preserves (retrying_for target a j) (millisecond inbox).
Proof.
  intros Hin. unfold millisecond.
  apply preserves_bind; [apply advance_retrying|intros ?].
  apply preserves_bind; [apply preserves_gets|intros t].
  specialize (Hin t).
  induction Hin as [|i l [Hi Hu] _ IH]; [apply preserves_ret|].
  simpl. apply preserves_bind; [|by intros ?].
  destruct i; [by apply deliver_retrying|done].
Qed.

Lemma run_for_retrying target a j inbox n :
  (forall t, Forall (other_message target) (inbox t)) ->
  preserves (retrying_for target a j) (run_for n inbox).
Proof.
  intros Hin. induction n as [|n IH]; [apply preserves_ret|].
  rewrite run_for_S. apply preserves_bind; [done|intros ?].
  by apply millisecond_retrying.
Qed.

Lemma called_subscribed sch target w :
  subscribed (Subscription (guest_listeners target) (2 + fresh w)
                (HandleHandshakeResponse (1 + fresh w)))
    (called sch target w).
Proof.
  unfold subscribed. cbn [subscriptions called].
  apply elem_of_app. right. by apply list_elem_of_singleton.
Qed.

Lemma called_retrying sch target w :
  allocated w ->
  retrying_for target (1 + fresh w) (3 + fresh w) (called sch target w).
Proof.
  intros (Hhs & Hatt & Hrec & Htim). split.
  - eexists. cbn [attempts called].
    rewrite lookup_alter_eq, lookup_insert_eq. by cbn.
  - intros a' att' E Hne. cbn [attempts called] in E.
    rewrite lookup_alter_ne, lookup_insert_ne in E by done.
    apply Hatt in E as [_ Hi].
    destruct (interval att') as [i|]; [|done]. cbn in Hi. intros [=]. lia.
  - intros t. cbn [timers called].
    rewrite !elem_of_app, !list_elem_of_singleton.
    intros [[Hel| ->]| ->]; cbn.
    + pose proof (proj1 (Forall_forall _ _) Htim _ Hel) as [H1 H2]. lia.
    + done.
    + lia.
  - eexists. split.
    + cbn [timers called]. rewrite !elem_of_app, !list_elem_of_singleton.
      left. right. reflexivity.
    + done.
Qed.

#[local] Instance timers_are_unsubscribe l : StableUnsubscribe (timers_are l).
Proof. by split. Qed.
#[local] Instance timers_are_connections l : StableConnections (timers_are l).
Proof. by split. Qed.

Lemma close_connection_timers c w :
  timers (after (close_connection c w)) = timers w.
Proof. by apply (close_connection_preserves (timers_are (timers w))). Qed.

(** The tick of the interval once the handshake is done. *)
Lemma retry_connected a att w :
  attempts w !! a = Some att -> connected att = true ->
  timers (after (retry a w)) =
  filter (fun t => Some (timer_id t) ≠ interval att) (timers w).
Proof.
  intros Ha Hc. unfold retry. rewrite bind_gets, Ha, Hc. reflexivity.
Qed.

(** *** The interval of a call of [connect] *)

Section Interval.
Variables (target : endpoint) (a j : nat).
#[local] Abbreviation state := (interval_state target a j).

Ltac state_stable :=
  split; intros;
  match goal with H : interval_state _ _ _ _ _ _ _ |- _ => destruct H end;
  by split.

#[local] Instance state_frame l c k : StableFrame (state l c k).
Proof. state_stable. Qed.
#[local] Instance state_unsubscribe l c k : StableUnsubscribe (state l c k).
Proof. state_stable. Qed.
#[local] Instance state_settle l c k : StableSettle (state l c k).
Proof. state_stable. Qed.
#[local] Instance state_records l c k : StableRecords (state l c k).
Proof. state_stable. Qed.
#[local] Instance state_connections l c k : StableConnections (state l c k).
Proof. state_stable. Qed.

Lemma state_weaken l c c' k w :
  (c = true -> c' = true) -> state l c' k w -> state l c k w.
Proof.
  intros Hc [Hn (att & Ha & Hi & Ht & Hc') Ho Hl]. split; try done.
  exists att. repeat split; try done. intros H. by apply Hc', Hc.
Qed.

(** A call of [connect] gets connected. *)
Lemma state_connected l c k a' w :
  state l c k w ->
  state l (c || bool_decide (a' = a)) k
    (upd_attempts (alter (set_connected true) a') w).
Proof.
  intros [Hn (att & Ha & Hi & Ht & Hc) Ho Hl]. split; try done.
  - cbn [attempts upd_attempts]. destruct (decide (a' = a)) as [->|Hne].
    + rewrite lookup_alter_eq, Ha. eexists. split; [reflexivity|]. by cbn.
    + rewrite lookup_alter_ne by done. exists att.
      rewrite bool_decide_eq_false_2, orb_false_r by done. done.
  - intros a'' att''. cbn [attempts upd_attempts].
    destruct (decide (a' = a'')) as [->|Hne].
    + rewrite lookup_alter_eq.
      destruct (attempts w !! a'') as [att0|] eqn:E; [|done].
      simpl. intros [= <-]. simpl. by apply (Ho a'').
    + rewrite lookup_alter_ne by done. apply Ho.
Qed.

(** A change of the timers. *)
Lemma state_timers (f : list timer -> list timer) l' l c k w :
  filter (fun t => ticks a j t = true) (f (timers w)) = l' ->
  state l c k w -> state l' c k (upd_timers f w).
Proof. intros Hf [Hn Ha Ho Hl]. by split. Qed.

Lemma handleHandshakeResponse_state l c k a' ev :
  preserves (state l c k) (handleHandshakeResponse a' ev).
Proof.
  unfold handleHandshakeResponse.
  apply preserves_bind; [apply preserves_gets|intros [att'|]];
    [|apply preserves_ret].
  destruct (negb (destructurable _)); [apply preserves_throw|].
  destruct (negb (accepts_reply _ _)); [apply preserves_ret|].
  cbv zeta. apply preserves_bind.
  { by apply registerLocalMethods_preserves, _. }
  intros unregisterLocal. apply preserves_bind.
  { by apply registerRemoteMethods_preserves, _. }
  intros rl. apply preserves_bind.
  - intros w Hw. unfold modify. cbn [after].
    apply (state_weaken _ _ (c || bool_decide (a' = a))); [by intros ->|].
    by apply state_connected.
  - intros ?. apply settle_handshake_preserves, _.
Qed.

Lemma dispatch_to_state l c k f ev : preserves (state l c k) (dispatch_to f ev).
Proof.
  apply (dispatch_to_invariant (state l c k) (fun _ => True) (fun _ => True));
    [done| | | | |done].
  - intros x cn _. apply run_callback_preserves; apply _.
  - intros h w. apply stable_pending_down.
  - intros h guest x w. apply stable_delete_listener.
  - intros a0 ev' _. apply handleHandshakeResponse_state.
Qed.

Lemma deliver_state l c k r ev : preserves (state l c k) (deliver r ev).
Proof.
  unfold deliver. apply preserves_bind; [apply preserves_gets|intros subs].
  apply preserves_for_each. intros s.
  apply preserves_bind; [apply preserves_gets|intros []].
  - apply dispatch_to_state.
  - apply preserves_ret.
Qed.

Lemma accept_state l c k i : preserves (state l c k) (accept i).
Proof.
  destruct i as [r ev|p]; cbn [accept]; [apply deliver_state|].
  apply preserves_bind; [apply preserves_gets|intros [[cn|e]|]];
    try apply preserves_ret.
  apply close_connection_preserves; apply _.
Qed.

Lemma inbox_state l c k (inbox : list input) :
  preserves (state l c k) (for_each inbox accept).
Proof. apply preserves_for_each. intros i. apply accept_state. Qed.

(** The timers called [j] and the retries of [a] are the timers in [l]. *)
Lemma ticks_elem l c k w t :
  state l c k w -> t ∈ timers w -> ticks a j t = true -> t ∈ l.
Proof.
  intros Hw Ht Htk. rewrite <- (is_timers _ _ _ _ _ _ _ Hw).
  by apply list_elem_of_filter.
Qed.

(** [clearInterval] of another interval. *)
Lemma clearInterval_state l c k i :
  Forall (fun t => timer_id t = j) l -> i <> Some j ->
  preserves (state l c k) (clearInterval i).
Proof.
  intros Hl Hi w Hw. unfold clearInterval, modify. cbn [after].
  eapply state_timers; [|exact Hw].
  rewrite list_filter_filter, <- (is_timers _ _ _ _ _ _ _ Hw).
  apply filter_iff_in. intros t Ht. split; [tauto|]. intros Htk.
  split; [done|].
  pose proof (ticks_elem _ _ _ _ _ Hw Ht Htk) as Hin.
  pose proof (proj1 (Forall_forall _ _) Hl t Hin) as Hj. cbn in Hj.
  congruence.
Qed.

(** The interval callback of another call. *)
Lemma retry_state l c k a' :
  Forall (fun t => timer_id t = j) l -> a' <> a ->
  preserves (state l c k) (retry a').
Proof.
  intros Hl Ha w Hw. unfold retry. rewrite bind_gets.
  destruct (attempts w !! a') as [att'|] eqn:E; [|done].
  destruct (connected att').
  - apply clearInterval_state; [done| |done].
    by apply (is_others _ _ _ _ _ _ _ Hw a' att').
  - destruct (is_window _); by apply (postMessage_preserves _).
Qed.

Lemma timeout_state l c k a' : preserves (state l c k) (timeout a').
Proof.
  unfold timeout. apply preserves_bind; [apply preserves_gets|intros [att|]];
    [|apply preserves_ret].
  destruct (negb _); [|apply preserves_ret].
  apply settle_handshake_preserves, _.
Qed.

(** Another timer fires. *)
Lemma fire_other l c k t :
  Forall (fun t => timer_id t = j) l -> ticks a j t = false ->
  preserves (state l c k) (fire t).
Proof.
  intros Hl Ht. apply orb_false_iff in Ht as [Hid Hjob].
  apply bool_decide_eq_false in Hid.
  unfold fire. apply preserves_bind; [apply preserves_gets|intros []];
    [|apply preserves_ret].
  apply preserves_bind.
  - intros w Hw. unfold modify. cbn [after]. unfold reschedule.
    assert (forall x, x ∈ timers w -> ticks a j x = true ->
                      timer_id x <> timer_id t) as Hx.
    { intros x Hin Htk.
      pose proof (ticks_elem _ _ _ _ _ Hw Hin Htk) as Hxl.
      pose proof (proj1 (Forall_forall _ _) Hl x Hxl) as Hj. cbn in Hj.
      congruence. }
    destruct (every t) as [ms|].
    + eapply state_timers; [|exact Hw].
      rewrite <- (is_timers _ _ _ _ _ _ _ Hw). apply filter_map_fixed.
      * intros x _. case_bool_decide; [unfold ticks; cbn|]; reflexivity.
      * intros x Hin Htk. rewrite bool_decide_eq_false_2; [done|].
        by apply Hx.
    + eapply state_timers; [|exact Hw].
      rewrite list_filter_filter, <- (is_timers _ _ _ _ _ _ _ Hw).
      apply filter_iff_in. intros x Hin. split; [tauto|]. intros Htk.
      split; [done|]. by apply Hx.
  - intros ?. unfold run_job. apply preserves_async.
    destruct (job t) as [a'|a'].
    + apply retry_state; [done|]. intros ->.
      by rewrite bool_decide_eq_true_2 in Hjob.
    + apply timeout_state.
Qed.

(** The timers that are due, none of them the interval of [a]. *)
Lemma fire_others l c k due_now w :
  Forall (fun t => timer_id t = j) l ->
  filter (fun t => ticks a j t = true) due_now = [] ->
  state l c k w -> state l c k (after (for_each due_now fire w)).
Proof.
  intros Hl Hdue. apply for_each_keeps. intros t w' Ht.
  apply fire_other; [done|].
  destruct (ticks a j t) eqn:Htk; [|done].
  assert (t ∈ filter (fun t => ticks a j t = true) due_now) as Hin
    by by apply list_elem_of_filter.
  rewrite Hdue in Hin. by apply elem_of_nil in Hin.
Qed.

(** The interval of [a] fires: it posts a request, or finds the call
    connected and clears itself. *)
Lemma fire_tick_state c k d w :
  state [tick_timer a j d] c k w ->
  let w' := after (fire (tick_timer a j d) w) in
  (c = false /\ state [tick_timer a j (d + REQUEST_INTERVAL)] false k w')
  \/ state [] true k w'.
Proof.
  intros Hw w'. unfold w', fire. rewrite bind_gets.
  assert (tick_timer a j d ∈ timers w) as Hin.
  { apply (list_elem_of_filter (fun t => ticks a j t = true)).
    rewrite (is_timers _ _ _ _ _ _ _ Hw). left. }
  assert (existsb (fun x => bool_decide (timer_id x = timer_id (tick_timer a j d)))
            (timers w) = true) as ->.
  { apply existsb_exists. exists (tick_timer a j d).
    split; [by apply list_elem_of_In|by apply bool_decide_eq_true_2]. }
  erewrite bind_ok; [|reflexivity].
  set (w1 := upd_timers (reschedule (tick_timer a j d)) w).
  assert (state [tick_timer a j (d + REQUEST_INTERVAL)] c k w1) as Hw1.
  { eapply state_timers; [|exact Hw]. unfold reschedule. cbn [every tick_timer].
    rewrite filter_map_comm, (is_timers _ _ _ _ _ _ _ Hw).
    - cbn [map timer_id]. by rewrite bool_decide_eq_true_2.
    - intros x. case_bool_decide; [unfold ticks; cbn|]; reflexivity. }
  unfold run_job, async. cbn [job tick_timer after].
  unfold retry. rewrite bind_gets.
  destruct (is_attempt _ _ _ _ _ _ _ Hw1) as (att & Ha & Hi & Ht & Hc).
  rewrite Ha. destruct (connected att) eqn:Hcon.
  - right. unfold clearInterval, modify. cbn [after]. rewrite Hi.
    eapply state_timers; cycle 1.
    { destruct Hw1 as [Hn _ Ho Hl]. split; [exact Hn| |exact Ho|exact Hl].
      by exists att. }
    + rewrite list_filter_filter. apply filter_none. intros x Hx [Htk Hid].
      pose proof (ticks_elem _ _ _ _ _ Hw1 Hx Htk) as Hxl.
      apply list_elem_of_singleton in Hxl. subst x. by apply Hid.
  - left. split.
    + destruct c; [|done]. by specialize (Hc eq_refl).
    + apply (state_weaken _ _ c); [done|].
      destruct (is_window _); by apply (postMessage_preserves _).
Qed.

(** The interval has been cleared: its tick does nothing. *)
Lemma fire_spent c k d w :
  state [] c k w -> fire (tick_timer a j d) w = Ok tt w.
Proof.
  intros Hw. unfold fire. rewrite bind_gets.
  assert (existsb (fun x => bool_decide (timer_id x = timer_id (tick_timer a j d)))
            (timers w) = false) as ->; [|done].
  apply not_true_is_false. intros (x & Hx & Hid)%existsb_exists.
  apply bool_decide_eq_true in Hid. cbn in Hid.
  apply list_elem_of_In in Hx.
  assert (x ∈ []) as Hnil; [|by apply elem_of_nil in Hnil].
  eapply ticks_elem; [exact Hw|done|].
  unfold ticks. by rewrite bool_decide_eq_true_2.
Qed.

Lemma fire_next t rest w :
  after (for_each (t :: rest) fire w) = after (for_each rest fire (after (fire t w))).
Proof.
  cbn [for_each]. unfold mbind, M_bind.
  destruct (completes_fire t w) as [[] ->]. done.
Qed.

(** The timers that are due, the interval of [a] among them. *)
Lemma fire_due_tick c k d due_now w :
  filter (fun t => ticks a j t = true) due_now = [tick_timer a j d] ->
  state [tick_timer a j d] c k w ->
  let w' := after (for_each due_now fire w) in
  (c = false /\ state [tick_timer a j (d + REQUEST_INTERVAL)] false k w')
  \/ state [] true k w'.
Proof.
  revert w. induction due_now as [|t rest IH]; intros w Hdue Hw; [done|].
  cbv zeta. rewrite fire_next.
  destruct (ticks a j t) eqn:Htk.
  - rewrite filter_cons_True in Hdue by done. injection Hdue as -> Hrest.
    destruct (fire_tick_state c k d w Hw) as [[-> Hw1]|Hw1].
    + left. split; [done|]. apply fire_others; [|done|done].
      by repeat constructor.
    + right. apply fire_others; [constructor|done|done].
  - rewrite filter_cons_False in Hdue by (by rewrite Htk).
    apply IH; [done|]. apply fire_other; [|done|done]. by repeat constructor.
Qed.

Lemma state_now l c k w : state l c k w -> state l c (S k) (upd_now S w).
Proof. intros [Hn Ha Ho Hl]. split; try done. cbn. by rewrite Hn. Qed.

Lemma due_ticks l c k w :
  state l c k w ->
  filter (fun t => ticks a j t = true)
    (filter (fun t => due t = S k) (timers w))
  = filter (fun t => due t = S k) l.
Proof.
  intros Hw. rewrite <- (is_timers _ _ _ _ _ _ _ Hw), !list_filter_filter.
  apply list_filter_iff. intros x. tauto.
Qed.

Lemma advance_run_at k w :
  now w = k ->
  advance w
  = for_each (filter (fun t => due t = S k) (timers w)) fire (upd_now S w).
Proof. intros <-. reflexivity. Qed.

(** One millisecond passes. *)
Lemma advance_waiting c k d w :
  state [tick_timer a j d] c k w -> S k <> d ->
  state [tick_timer a j d] c (S k) (after (advance w)).
Proof.
  intros Hw Hk. rewrite (advance_run_at k) by by destruct Hw.
  apply fire_others; [by repeat constructor| |by apply state_now].
  rewrite (due_ticks _ _ _ _ Hw). by rewrite filter_cons_False by (cbn; lia).
Qed.

Lemma advance_due c k d w :
  state [tick_timer a j d] c k w -> S k = d ->
  let w' := after (advance w) in
  (c = false /\ state [tick_timer a j (d + REQUEST_INTERVAL)] false (S k) w')
  \/ state [] true (S k) w'.
Proof.
  intros Hw Hk. cbv zeta. rewrite (advance_run_at k) by by destruct Hw.
  apply fire_due_tick; [|by apply state_now].
  rewrite (due_ticks _ _ _ _ Hw). by rewrite filter_cons_True by (cbn; lia).
Qed.

Lemma advance_cleared c k w :
  state [] c k w -> state [] c (S k) (after (advance w)).
Proof.
  intros Hw. rewrite (advance_run_at k) by by destruct Hw.
  apply fire_others; [constructor| |by apply state_now].
  by rewrite (due_ticks _ _ _ _ Hw).
Qed.

Lemma millisecond_after inbox k w :
  now w = k ->
  after (millisecond inbox w)
  = after (for_each (inbox (now (after (advance w)))) accept (after (advance w))).
Proof.
  intros Hk. unfold millisecond, mbind at 1, M_bind at 1.
  destruct (completes_advance w) as [[] ->]. by rewrite bind_gets.
Qed.


Lemma millisecond_state l c k inbox w :
  now w = k ->
  state l c (S k) (after (advance w)) ->
  state l c (S k) (after (millisecond inbox w)).
Proof.
  intros Hk Hw. rewrite (millisecond_after _ k) by done. by apply inbox_state.
Qed.

Lemma millisecond_armed k inbox w :
  armed target a j k w -> armed target a j (S k) (after (millisecond inbox w)).
Proof.
  intros [(d & Hd & Hw)|Hw].
  - assert (now w = k) as Hk by by destruct Hw.
    destruct (decide (S k = d)) as [Heq|Hne].
    + destruct (advance_due _ _ _ _ Hw Heq) as [[_ Hw']|Hw'].
      * left. exists (d + REQUEST_INTERVAL).
        split; [unfold REQUEST_INTERVAL; lia|].
        by apply millisecond_state.
      * right. by apply millisecond_state.
    + left. exists d. split; [lia|].
      apply millisecond_state; [done|]. by apply advance_waiting.
  - right. apply millisecond_state; [by destruct Hw|].
    by apply advance_cleared.
Qed.

Lemma run_for_armed k n inbox w :
  armed target a j k w -> armed target a j (n + k) (after (run_for n inbox w)).
Proof.
  intros Hw. induction n as [|n IH]; [done|].
  rewrite run_for_S. unfold mbind, M_bind.
  destruct (completes_run_for n inbox w) as [[] Hrun]. rewrite Hrun.
  by apply millisecond_armed.
Qed.

Lemma millisecond_releasing B k inbox w :
  releasing target a j B k w ->
  releasing target a j B (S k) (after (millisecond inbox w)).
Proof.
  intros [(d & Hd & Hw)|Hw].
  - assert (now w = k) as Hk by by destruct Hw.
    destruct (decide (S k = d)) as [Heq|Hne].
    + destruct (advance_due _ _ _ _ Hw Heq) as [[[=] _]|Hw'].
      right. by apply millisecond_state.
    + left. exists d. split; [lia|].
      apply millisecond_state; [done|]. by apply advance_waiting.
  - right. apply millisecond_state; [by destruct Hw|].
    by apply advance_cleared.
Qed.

Lemma run_for_releasing B k n inbox w :
  releasing target a j B k w ->
  releasing target a j B (n + k) (after (run_for n inbox w)).
Proof.
  intros Hw. induction n as [|n IH]; [done|].
  rewrite run_for_S. unfold mbind, M_bind.
  destruct (completes_run_for n inbox w) as [[] Hrun]. rewrite Hrun.
  by apply millisecond_releasing.
Qed.

(** Once the interval is due, it is gone. *)
Lemma releasing_released B k w :
  releasing target a j B k w -> B <= k -> retrying a w = false.
Proof.
  intros [(d & Hd & Hw)|Hw] HB; [lia|].
  apply not_true_is_false. intros (t & Ht & Hjob)%existsb_exists.
  apply list_elem_of_In in Ht.
  assert (t ∈ []) as Hnil; [|by apply elem_of_nil in Hnil].
  eapply ticks_elem; [exact Hw|done|].
  unfold ticks. destruct (job t); [|done]. by rewrite Hjob, orb_true_r.
Qed.

(** The reply of the target connects the call. *)
Lemma handleHandshakeResponse_connects l c k ev w :
  state l c k w ->
  destructurable (data ev) = true ->
  accepts_reply target ev = true ->
  is_Some (method_list (prop "methods" (data ev))) ->
  state l true k (after (handleHandshakeResponse a ev w)).
Proof.
  intros Hw Hd Hacc [ms Hm]. unfold handleHandshakeResponse.
  rewrite bind_gets.
  destruct (is_attempt _ _ _ _ _ _ _ Hw) as (att & Ha & Hi & Ht & Hc).
  rewrite Ha, Hd, Ht, Hacc. cbn [negb]. unfold registerLocalMethods.
  destruct (subscribe_calls_run (attempt_schema att)
              (extractMethods (attempt_schema att))
              (prop "connectionID" (data ev)) (guest_messageReceiver target)
              [] w) as (u & subs & Hrun).
  pose proof (subscribe_calls_preserves (state l c k) (attempt_schema att)
                (extractMethods (attempt_schema att))
                (prop "connectionID" (data ev)) (guest_messageReceiver target)
                [] w Hw) as Hw1.
  rewrite Hrun in Hw1. cbn [after] in Hw1.
  cbv zeta. erewrite bind_ok; [|exact Hrun].
  match goal with
  | |- context [registerRemoteMethods ?s ?m ?i ?e ?r] =>
      pose proof (registerRemoteMethods_preserves (state l c k) s m i e r _ Hw1)
        as Hw2;
      assert (exists rl w2, registerRemoteMethods s m i e r
                              (upd_subscriptions (fun l => l ++ subs)
                                 (upd_fresh
                                    (fun n => length (extractMethods
                                                        (attempt_schema att)) + n)
                                    w)) = Ok rl w2) as (rl & w2 & Hreg)
  end.
  { unfold registerRemoteMethods. rewrite Hm. by do 2 eexists. }
  rewrite Hreg in Hw2. cbn [after] in Hw2.
  erewrite bind_ok; [|exact Hreg].
  erewrite bind_ok; [|reflexivity].
  apply (settle_handshake_preserves (state l true k)).
  unfold modify. cbn [after].
  apply (state_weaken _ _ (c || bool_decide (a = a))).
  { intros _. by rewrite bool_decide_eq_true_2, orb_true_r. }
  by apply state_connected.
Qed.

End Interval.

(** A listener that stays subscribed while a message is dispatched is
    called. *)
Lemma deliver_reaches (Inv G : realm -> Prop) r ev s w :
  (forall f, preserves Inv (dispatch_to f ev)) ->
  (forall f, preserves G (dispatch_to f ev)) ->
  (forall w, Inv w -> s ∈ subscriptions w) ->
  on s = r ->
  (forall w, Inv w -> G (after (dispatch_to (run s) ev w))) ->
  Inv w -> G (after (deliver r ev w)).
Proof.
  intros HInv HG Hsub Hon Hs Hw. unfold deliver. rewrite bind_gets.
  assert (s ∈ filter (fun x => on x = r) (subscriptions w)) as Hin.
  { apply list_elem_of_filter. split; [done|by apply Hsub]. }
  revert Hin. generalize (filter (fun x => on x = r) (subscriptions w)).
  intros l. revert w Hw. induction l as [|x l IH]; intros w Hw Hin;
    [by apply elem_of_nil in Hin|].
  cbn [for_each].
  set (body := fun x : subscription =>
         gets (fun w => existsb (is_subscription r (handler_id x))
                          (subscriptions w))
         ≫= fun still : bool =>
              if still then dispatch_to (run x) ev else mret tt).
  assert (forall x w, exists w', body x w = Ok tt w'
            /\ (Inv w -> Inv w') /\ (G w -> G w')) as Hbody.
  { intros y v. unfold body. rewrite bind_gets. destruct (existsb _ _).
    - eexists. split; [reflexivity|]. split; [apply HInv|apply HG].
    - by exists v. }
  assert (forall l w, G w -> G (after (for_each l body w))) as Hrest.
  { intros l'. induction l' as [|y l' IH']; intros v Hv; [done|].
    cbn [for_each]. destruct (Hbody y v) as (v' & Hy & _ & Hg).
    rewrite (bind_ok _ _ _ _ _ Hy). by apply IH', Hg. }
  apply elem_of_cons in Hin as [<-|Hin].
  - assert (body s w = Ok tt (after (dispatch_to (run s) ev w))) as Hrun.
    { unfold body. rewrite bind_gets.
      assert (existsb (is_subscription r (handler_id s)) (subscriptions w)
              = true) as ->; [|done].
      apply existsb_exists. exists s.
      split; [by apply list_elem_of_In, Hsub|].
      unfold is_subscription. by rewrite !bool_decide_eq_true_2. }
    fold body. rewrite (bind_ok _ _ _ _ _ Hrun). by apply Hrest, Hs.
  - destruct (Hbody x w) as (w' & Hx & Hi & _). fold body.
    rewrite (bind_ok _ _ _ _ _ Hx). apply IH; [by apply Hi|done].
Qed.

Lemma dispatch_to_subscribed s f ev :
  guest_receiver (on s) -> preserves (subscribed s) (dispatch_to f ev).
Proof.
  intros Hs.
  pose proof (subscribed_frame s). pose proof (subscribed_connections s).
  pose proof (subscribed_guest s). pose proof (subscribed_settle s).
  pose proof (subscribed_records s).
  apply (dispatch_to_invariant (subscribed s) (fun _ => True) (fun _ => True));
    [done| | | | |done].
  - intros l c _. by apply run_callback_subscribed.
  - intros h w. apply stable_pending_down.
  - intros h guest l w. apply stable_delete_listener.
  - intros a ev' _. apply handleHandshakeResponse_preserves; apply _.
Qed.

(** The reply of the target, delivered while the reply listener of the
    call is subscribed, connects the call. *)
Lemma deliver_connects target a j l c k id ev w :
  interval_state target a j l c k w ->
  subscribed (Subscription (guest_listeners target) id
                (HandleHandshakeResponse a)) w ->
  destructurable (data ev) = true ->
  accepts_reply target ev = true ->
  is_Some (method_list (prop "methods" (data ev))) ->
  interval_state target a j l true k
    (after (deliver (guest_listeners target) ev w)).
Proof.
  intros Hw Hs Hd Hacc Hm.
  set (s := Subscription (guest_listeners target) id
              (HandleHandshakeResponse a)) in *.
  apply (deliver_reaches (both (interval_state target a j l c k) (subscribed s))
           (interval_state target a j l true k) _ _ s); try done.
  - intros f v [Hv Hsv]. split.
    + by apply dispatch_to_state.
    + apply dispatch_to_subscribed; [apply guest_listeners_receiver|done].
  - intros f. apply dispatch_to_state.
  - by intros v [_ Hv].
  - intros v [Hv _]. unfold dispatch_to, async. cbn [run s after].
    by eapply handleHandshakeResponse_connects.
Qed.

(** What [connect] leaves is armed. *)
Lemma called_armed sch target w :
  allocated w ->
  armed target (1 + fresh w) (3 + fresh w) (now w) (called sch target w).
Proof.
  intros (Hhs & Hatt & Hrec & Htim). left.
  exists (now w + REQUEST_INTERVAL). split; [unfold REQUEST_INTERVAL; lia|].
  split.
  - done.
  - eexists. cbn [attempts called].
    rewrite lookup_alter_eq, lookup_insert_eq. by cbn.
  - intros a' att' E Hne. cbn [attempts called] in E.
    rewrite lookup_alter_ne, lookup_insert_ne in E by done.
    apply Hatt in E as [_ Hi].
    destruct (interval att') as [i|]; [|done]. cbn in Hi. intros [=]. lia.
  - cbn [timers called]. rewrite !filter_app.
    rewrite (filter_none _ (timers w)).
    + rewrite filter_cons_True, filter_nil
        by (unfold ticks; cbn; by rewrite bool_decide_eq_true_2).
      rewrite filter_cons_False, filter_nil; [done|].
      unfold ticks, timeout_timer. cbn.
      rewrite bool_decide_eq_false_2 by lia. done.
    + intros t Ht. pose proof (proj1 (Forall_forall _ _) Htim _ Ht) as [H1 H2].
      unfold ticks. rewrite bool_decide_eq_false_2 by lia.
      destruct (job t); [|done]. cbn in H2.
      rewrite bool_decide_eq_false_2 by lia. done.
Qed.

(** C5, as amended.  In any context the program reaches, the guest's
    connect() is called; its variables are at the address [a].  While
    messages arrive and nobody calls close(), the reply listener stays
    subscribed.  While the messages that arrive are not the reply (none has
    the action HANDSHAKE_REPLY and the target as its source), the listener
    and the retry timer both stay, also once the promise has been rejected
    with the timeout.  close() does not touch the timers, and the tick of
    the interval that finds the handshake done clears the interval.  So the
    timer that connect() set goes without any close(): whatever messages
    arrive before, once the event loop has delivered a well-formed reply of
    the target to the guest's receiver, the retry timer is gone
    REQUEST_INTERVAL milliseconds later, whatever arrives and whoever calls
    close() in between. *)
Theorem guest_release cmds sch target :
  let w0 := after (for_each cmds exec empty_realm) in
  let a := 1 + fresh w0 in
  (forall inbox n,
     (forall t, Forall is_message (inbox t)) ->
     listening a (after ((guest_connect sch target;; run_for n inbox) w0))
     = true)
  /\ (forall inbox n,
        (forall t, Forall (other_message target) (inbox t)) ->
        let w := after ((guest_connect sch target;; run_for n inbox) w0) in
        listening a w = true /\ retrying a w = true
        /\ (TIMEOUT_INTERVAL <= n ->
            handshakes w !! fresh w0
            = Some (Rejected (JStr "connection timeout"))))
  /\ (forall c w, timers (after (close_connection c w)) = timers w)
  /\ (forall a att w,
        attempts w !! a = Some att -> connected att = true ->
        timers (after (retry a w)) =
        filter (fun t => Some (timer_id t) ≠ interval att) (timers w))
  /\ (forall inbox n ev inbox' m,
        (forall t, Forall is_message (inbox t)) ->
        destructurable (data ev) = true ->
        accepts_reply target ev = true ->
        is_Some (method_list (prop "methods" (data ev))) ->
        REQUEST_INTERVAL <= m ->
        let w1 := after ((guest_connect sch target;; run_for n inbox) w0) in
        let w2 := after (deliver (guest_listeners target) ev w1) in
        retrying a (after (run_for m inbox' w2)) = false).
Proof.
  intros w0 a.
  assert (forall inbox n,
    (forall t, Forall is_message (inbox t)) ->
    listening a (after ((guest_connect sch target;; run_for n inbox) w0))
    = true) as Hlistening.
  { intros inbox n Hin. unfold mbind, M_bind. rewrite guest_connect_called.
    eapply subscribed_listening, run_for_subscribed;
      [apply guest_listeners_receiver|done|apply called_subscribed]. }
  split; [done|]. split; [|split; [|split]].
  - intros inbox n Hin w. split; [|split].
    + apply Hlistening. intros t.
      eapply Forall_impl; [apply Hin|]. by intros i [? _].
    + unfold w, mbind, M_bind. rewrite guest_connect_called.
      eapply retrying_for_retrying, run_for_retrying; [done|].
      apply called_retrying, reachable_allocated.
    + intros Hn. unfold w, mbind, M_bind. rewrite guest_connect_called.
      apply (run_for_times_out target (fresh w0) (1 + fresh w0) (4 + fresh w0)
               (now w0 + TIMEOUT_INTERVAL) (now w0)).
      * apply called_awaiting, reachable_allocated.
      * unfold TIMEOUT_INTERVAL in *. lia.
      * intros t _. eapply Forall_impl; [apply Hin|]. by intros i [_ ?].
  - apply close_connection_timers.
  - apply retry_connected.
  - intros inbox n ev inbox' m Hin Hd Hacc Hm HR w1 w2.
    set (j := 3 + fresh w0). set (k := n + now w0).
    assert (w1 = after (run_for n inbox (called sch target w0))) as Hw1.
    { unfold w1, mbind, M_bind. by rewrite guest_connect_called. }
    assert (armed target a j k w1) as Harmed.
    { rewrite Hw1. apply run_for_armed, called_armed, reachable_allocated. }
    assert (subscribed (Subscription (guest_listeners target) (2 + fresh w0)
                          (HandleHandshakeResponse a)) w1) as Hsub.
    { rewrite Hw1. apply run_for_subscribed;
        [apply guest_listeners_receiver|done|apply called_subscribed]. }
    apply (releasing_released target a j (k + REQUEST_INTERVAL) (m + k));
      [|lia].
    apply run_for_releasing. destruct Harmed as [(d & Hdue & Hst)|Hst].
    + left. exists d. split; [lia|].
      by eapply deliver_connects.
    + right. by apply deliver_state.
Qed.

End Guest_properties.

(** A guest that waits for the reply to its first [connect] calls
    [connect] again; only replies of another window arrive: after 3000 ms
    the second promise is rejected. *)
Lemma guest_connect_times_out_witness :
  exists promise w,
    (promise ← guest_connect Demo.demo_schema Demo.parent;
     run_for TIMEOUT_INTERVAL Demo.strays;; mret promise)
      (after (for_each Demo.earlier exec empty_realm))
    = Ok promise w
    /\ handshakes w !! promise = Some (Rejected (JStr "connection timeout")).
Proof.
  apply (guest_connect_times_out Demo.earlier Demo.demo_schema Demo.parent
           Demo.strays TIMEOUT_INTERVAL).
  - intros t _. by repeat constructor.
  - lia.
Defined.

(** C5 as the specification words it fails: the target answers at once,
    nobody calls [close()], and the tick at 600 ms clears the interval. *)
Lemma released_only_by_close_fails :
  ~ released_only_by_close Demo.demo_schema Demo.parent.
Proof.
  intros H. destruct (H Demo.answered REQUEST_INTERVAL) as (t & p & _ & Hin).
  { right. vm_compute. reflexivity. }
  unfold Demo.answered in Hin. case_bool_decide.
  - apply list_elem_of_singleton in Hin. discriminate.
  - by apply elem_of_nil in Hin.
Qed.

(** Only replies of another window arrive: after 3000 ms the listener and
    the interval are still there and the promise is rejected.  The parent
    replies after one millisecond: 600 ms later the interval is gone. *)
Lemma guest_release_witness :
  let w := after ((guest_connect Demo.demo_schema Demo.parent;;
                   run_for TIMEOUT_INTERVAL Demo.strays) empty_realm) in
  (listening 1 w = true /\ retrying 1 w = true
   /\ (TIMEOUT_INTERVAL <= TIMEOUT_INTERVAL ->
       handshakes w !! 0 = Some (Rejected (JStr "connection timeout"))))
  /\ let w1 := after ((guest_connect Demo.demo_schema Demo.parent;;
                       run_for 1 Demo.strays) empty_realm) in
     let w2 := after (deliver RSelf Demo.reply_event w1) in
     retrying 1 (after (run_for REQUEST_INTERVAL Demo.strays w2)) = false.
Proof.
  destruct (guest_release [] Demo.demo_schema Demo.parent)
    as (_ & Hstay & _ & _ & Hgo).
  split.
  - apply Hstay. intros t. by repeat constructor.
  - apply (Hgo Demo.strays 1 Demo.reply_event Demo.strays REQUEST_INTERVAL).
    + intros t. by repeat constructor.
    + reflexivity.
    + reflexivity.
    + by eexists.
    + lia.
Defined.

(** * Further properties of the code

    Error paths, round trips and the life of hosts, connections and
    listeners. *)

(** ** [rpc.ts]: errors, missing channels, correlation *)

Section Rpc_errors.
Context `{C : Collaborators}.





(** When a request or a response has no channel. *)
Lemma request_channel_none mr ev :
  request_channel mr ev = None <->
  adapter_postMessage mr = false /\ isWorker None = false /\ source ev = None.
Proof.
  unfold request_channel, adapter_postMessage.
  destruct mr as [r|]; [destruct (has_postMessage r)|];
    destruct (isWorker None), (source ev) as [s|];
    try destruct (is_window s); intuition congruence.
Qed.

Lemma response_channel_none mr ev :
  response_channel mr ev = None <->
  adapter_postMessage mr = false /\ isWorker None = false /\ source ev = None.
Proof.
  unfold response_channel, adapter_postMessage.
  destruct mr as [r|]; [destruct (has_postMessage r)|];
    destruct (isWorker None), (source ev) as [s|];
    try destruct (is_window s); intuition congruence.
Qed.

(** X3.  The event's source has disappeared (and there is no adapter with a
    [postMessage], and the context is not a worker).  A call of a proxy
    then sends nothing, yet its response listener is subscribed and its
    promise stays pending.  A request that arrives in this state is served:
    the bound function is invoked, but no response is sent. *)
Theorem vanished_source mr ev :
  adapter_postMessage mr = false -> isWorker None = false ->
  source ev = None ->
  (forall callName cid L args w,
     exists promise w',
       createRPC callName cid ev L mr args w = Ok promise w'
       /\ posted w' = posted w
       /\ calls w' = calls w
       /\ existsb (is_subscription (default RSelf mr) (S (fresh w)))
            (subscriptions w') = true)
  /\ (forall sch methodName cid f xs w,
        call_conditions methodName cid ev ->
        get sch methodName = Some f ->
        spread (call_args ev) = Some xs ->
        let w' := after (handleCall sch methodName cid mr ev w) in
        invocations w' = invocations w ++ [(methodName, xs)]
        /\ posted w' = posted w).
Proof.
  intros Ha Hw Hs. split.
  - intros callName cid L args w. do 2 eexists.
    split; [apply createRPC_run|].
    rewrite (proj2 (request_channel_none mr ev)) by done. cbn.
    split; [done|]. split; [done|].
    rewrite existsb_app. cbn. unfold is_subscription at 2. cbn.
    rewrite !bool_decide_eq_true_2 by done. by rewrite orb_true_r.
  - intros sch methodName cid f xs w Hc Hg Hx w'.
    apply accepts_call_spec in Hc. unfold w'.
    rewrite handleCall_accepts by done.
    rewrite (proj2 (response_channel_none mr ev)) by done.
    pose proof (run_method_after sch methodName (call_args ev) w) as Hr.
    rewrite Hx, Hg in Hr.
    unfold mbind, M_bind.
    destruct (run_method sch methodName (call_args ev) w) as [re w1|e w1];
      cbn in *; by subst w1.
Qed.

(** X4.  Two calls through a proxy draw two call identifiers and make two
    promises and two listeners; each listener ignores the response that
    carries the other call's identifier. *)
Theorem calls_told_apart `{!UuidFresh} callName cid ev0 L mr args1 args2 w :
  let id1 := uuidv4 (uuids w) in
  let id2 := uuidv4 (S (uuids w)) in
  let r := default RSelf mr in
  exists p1 p2 w1 w2,
    createRPC callName cid ev0 L mr args1 w = Ok p1 w1
    /\ createRPC callName cid ev0 L mr args2 w1 = Ok p2 w2
    /\ p1 <> p2 /\ id1 <> id2
    /\ Subscription r (S p1) (HandleResponse callName cid id1 p1)
         ∈ subscriptions w2
    /\ Subscription r (S p2) (HandleResponse callName cid id2 p2)
         ∈ subscriptions w2
    /\ forall ev v,
         (prop "callID" (data ev) = JStr id1 ->
          after (handleResponse callName cid id2 p2 ev v) = v)
         /\ (prop "callID" (data ev) = JStr id2 ->
             after (handleResponse callName cid id1 p1 ev v) = v).
Proof.
  intros id1 id2 r.
  assert (id1 <> id2) as Hid.
  { intros E. apply uuidv4_inj in E. lia. }
  do 4 eexists. split; [apply createRPC_run|].
  split; [apply createRPC_run|].
  split; [|split; [done|]].
  { destruct (request_channel mr ev0) as [[]|]; cbn; lia. }
  assert (forall id id' p ev v,
    id <> id' -> prop "callID" (data ev) = JStr id ->
    after (handleResponse callName cid id' p ev v) = v) as Hignore.
  { intros id id' p ev v Hne Hd. rewrite handleResponse_after.
    unfold accepts_response. rewrite Hd. cbn.
    rewrite (bool_decide_eq_false_2 (id = id')) by done.
    by rewrite !andb_false_r. }
  split; [|split].
  - destruct (request_channel mr ev0) as [[]|]; cbn;
      rewrite !elem_of_app, !list_elem_of_singleton; tauto.
  - destruct (request_channel mr ev0) as [[]|]; cbn;
      rewrite !elem_of_app, !list_elem_of_singleton; right;
      do 2 f_equal; done.
  - intros ev v. split; intros Hd; eapply Hignore; eauto.
Qed.

End Rpc_errors.

(** ** Registering and unregistering listeners; closing a connection *)

Section Registrations.
Context `{C : Collaborators}.

(** What [registerLocalMethods] subscribes and answers. *)
Lemma subscribe_calls_spec sch methods c mr ls w :
  exists subs,
    subscribe_calls sch methods c mr ls w =
    Ok (ls ++ map thunk subs)
       (upd_subscriptions (fun l => l ++ subs)
          (upd_fresh (fun n => length methods + n) w))
    /\ map run subs = map (fun m => HandleCall sch m c mr) methods
    /\ Forall (fun s => on s = default RSelf mr) subs
    /\ allocated_since (fresh w) subs
    /\ Forall (fun s => handler_id s < length methods + fresh w) subs.
Proof.
  revert ls w. induction methods as [|m ms IH]; intros ls w.
  - exists []. split; [|by repeat constructor]. simpl. unfold mret, M_ret.
    rewrite app_nil_r. f_equal.
    destruct w as [? ? ? ? ? ? ? ? ? ? ? ? ?]. unfold upd_subscriptions, upd_fresh.
    simpl. by rewrite app_nil_r.
  - simpl. unfold addEventListener, alloc, modify, mbind, M_bind, mret, M_ret.
    simpl.
    edestruct IH as (subs & -> & Hrun & Hon & Hid & Hup).
    exists (Subscription (default RSelf mr) (fresh w) (HandleCall sch m c mr)
              :: subs).
    split; [|split; [|split; [|split]]].
    + simpl. rewrite <- app_assoc. simpl. f_equal.
      destruct w as [? ? ? ? ? ? ? ? ? ? ? ? ?].
      unfold upd_subscriptions, upd_fresh. simpl.
      rewrite <- app_assoc. simpl. f_equal. lia.
    + simpl. by rewrite Hrun.
    + by constructor.
    + constructor; [simpl; lia|].
      eapply Forall_impl; [exact Hid|]. simpl. intros; lia.
    + constructor; [simpl; lia|].
      eapply Forall_impl; [exact Hup|]. simpl. intros; lia.
Qed.

(** A thunk unsubscribes its own listener; a listener with an older
    address is not touched by the thunks of younger ones. *)
Lemma unsubscribed_own subs s :
  s ∈ subs -> unsubscribed (map thunk subs) s = true.
Proof.
  intros Hs. apply existsb_exists. exists (thunk s).
  split; [by apply list_elem_of_In, list_elem_of_fmap_2|].
  unfold is_subscription, thunk. simpl. by rewrite !bool_decide_eq_true_2.
Qed.

Lemma unsubscribed_older n subs s :
  allocated_since n subs -> handler_id s < n ->
  unsubscribed (map thunk subs) s = false.
Proof.
  intros Hsubs Hs. apply not_true_is_false.
  intros (u & Hu & Hi)%existsb_exists.
  apply list_elem_of_In in Hu. apply list_elem_of_fmap in Hu as (s' & -> & Hs').
  pose proof (proj1 (Forall_forall _ _) Hsubs _ Hs') as Hge. simpl in Hge.
  unfold is_subscription, thunk in Hi. simpl in Hi.
  apply andb_true_iff in Hi as [_ Hi]. case_bool_decide; [lia|done].
Qed.

Lemma unsubscribed_younger n subs s :
  Forall (fun s' => handler_id s' < n) subs -> n <= handler_id s ->
  unsubscribed (map thunk subs) s = false.
Proof.
  intros Hsubs Hs. apply not_true_is_false.
  intros (u & Hu & Hi)%existsb_exists.
  apply list_elem_of_In in Hu. apply list_elem_of_fmap in Hu as (s' & -> & Hs').
  pose proof (proj1 (Forall_forall _ _) Hsubs _ Hs') as Hge. simpl in Hge.
  unfold is_subscription, thunk in Hi. simpl in Hi.
  apply andb_true_iff in Hi as [_ Hi]. case_bool_decide; [lia|done].
Qed.

(** Unsubscribing the younger listeners [subs] leaves the older ones. *)
Lemma unsubscribe_younger n old subs :
  Forall (fun s => handler_id s < n) old ->
  allocated_since n subs ->
  filter (fun s => unsubscribed (map thunk subs) s = false) (old ++ subs)
  = old.
Proof.
  intros Hold Hsubs. rewrite filter_app.
  rewrite (filter_keep _ old), (filter_none _ subs), app_nil_r; [done| |].
  - intros s Hs. by rewrite unsubscribed_own.
  - intros s Hs. eapply unsubscribed_older; [done|].
    by apply (proj1 (Forall_forall _ _) Hold).
Qed.

(** X5.  [registerLocalMethods] subscribes one [handleCall] listener per
    method name, in order, on the message receiver (or on [self]), and the
    function it returns unsubscribes exactly those: the listeners that were
    there before are there afterwards, and no others. *)
Theorem registerLocalMethods_round_trip sch methods cid mr w :
  listeners_allocated w ->
  exists unregisterLocal subs w1,
    registerLocalMethods sch methods cid mr w = Ok unregisterLocal w1
    /\ subscriptions w1 = subscriptions w ++ subs
    /\ map run subs = map (fun m => HandleCall sch m cid mr) methods
    /\ Forall (fun s => on s = default RSelf mr) subs
    /\ subscriptions (after (unregister unregisterLocal w1)) = subscriptions w.
Proof.
  intros Hw. unfold registerLocalMethods.
  destruct (subscribe_calls_spec sch methods cid mr [] w)
    as (subs & Hrun & Hh & Hon & Hid & _).
  do 3 eexists. split; [exact Hrun|]. split; [done|].
  split; [done|]. split; [done|].
  rewrite unregister_subscriptions. cbn [subscriptions upd_subscriptions].
  change (subscriptions (upd_fresh _ w)) with (subscriptions w).
  by apply (unsubscribe_younger (fresh w)).
Qed.


(** What [negotiateConnection] leaves. *)
Lemma negotiateConnection_spec guest h mr sch ev s ms w :
  source ev = Some s ->
  method_list (prop "methods" (data ev)) = Some ms ->
  let id := uuidv4 (uuids w) in
  let L := length (extractMethods sch) + fresh w in
  exists c w1 subs receiver,
    negotiateConnection guest h mr sch ev w = Ok c w1
    /\ close c = HostClose L (map thunk subs) h id
    /\ remote c
       = set_proxies (spread_object (prop "schema" (data ev))) ms (JStr id) ev
           L receiver
    /\ subscriptions w1 = subscriptions w ++ subs
    /\ map run subs
       = map (fun m => HandleCall sch m (JStr id) receiver) (extractMethods sch)
    /\ allocated_since (fresh w) subs
    /\ Forall (fun s => handler_id s < L) subs
    /\ arrays w1 = <[L := []]> (arrays w)
    /\ fresh w1 = S L
    /\ records w1 = alter (set_connections (assign id c)) h (records w)
    /\ (handshakes w1 = handshakes w /\ hosts w1 = hosts w
        /\ uuids w1 = S (uuids w))
    /\ (exists o,
          posted w1
          = posted w ++ [Post (ViaEndpoint s)
                           (handshake_reply id (extractMethods sch) sch) o]
          /\ (guest = None -> o = None)
          /\ (forall g, guest = Some g ->
               o = if bool_decide (Some s = guest_contentWindow g)
                   then Some "*" else None))
    /\ (guest = None -> receiver = mr).
Proof.
  intros Hs Hm id L. unfold negotiateConnection. rewrite Hs.
  unfold uuid, registerLocalMethods, mbind at 1, M_bind.
  unfold mbind at 1.
  match goal with
  | |- context [subscribe_calls ?a ?b ?c ?d ?e ?f] =>
      destruct (subscribe_calls_spec a b c d e f)
        as (subs & -> & Hrun & Hon & Hid & Hup)
  end.
  unfold registerRemoteMethods. rewrite Hm.
  unfold alloc, modify, postMessage, upd_host, mbind, M_bind, mret, M_ret.
  simpl.
  destruct guest as [g|]; [case_bool_decide|]; simpl;
    (do 4 eexists; split; [reflexivity|]; simpl;
     do 10 (split; [done|]);
     split; [eexists; split; [reflexivity|]|done];
     split; [done|]; intros g' [= <-];
     rewrite ?bool_decide_eq_true_2, ?bool_decide_eq_false_2 by done; done).
Qed.

(** What one call through a proxy leaves. *)
Lemma call_spec f args w :
  exists s w1,
    call f args w = Ok (fresh w) w1
    /\ subscriptions w1 = subscriptions w ++ [s]
    /\ run s = HandleResponse (rpc_callName f) (rpc_connectionID f)
                 (uuidv4 (uuids w)) (fresh w)
    /\ fresh w <= handler_id s
    /\ fresh w <= fresh w1
    /\ arrays w1
       = <[rpc_listeners f :=
             default [] (arrays w !! rpc_listeners f) ++ [thunk s]]> (arrays w)
    /\ records w1 = records w.
Proof.
  unfold call. rewrite createRPC_run. cbv zeta.
  exists (Subscription (default RSelf (rpc_messageReceiver f)) (S (fresh w))
            (HandleResponse (rpc_callName f) (rpc_connectionID f)
               (uuidv4 (uuids w)) (fresh w))).
  destruct (request_channel _ _) as [[c o]|]; eexists;
    (split; [reflexivity|]); cbn; (split; [done|]); (split; [done|]);
    (split; [lia|]); (split; [lia|]); done.
Qed.

(** What calls through the proxies of one [listeners] array leave. *)
Lemma call_each_spec L cs w :
  Forall (fun fa => rpc_listeners fa.1 = L) cs ->
  exists extra w',
    call_each cs w = Ok tt w'
    /\ subscriptions w' = subscriptions w ++ extra
    /\ length extra = length cs
    /\ allocated_since (fresh w) extra
    /\ default [] (arrays w' !! L) = default [] (arrays w !! L) ++ map thunk extra
    /\ records w' = records w.
Proof.
  intros Hcs. revert w. induction Hcs as [|[f args] cs Hf _ IH]; intros w.
  - exists [], w. rewrite !app_nil_r. repeat split. constructor.
  - unfold call_each. cbn [for_each]. cbn [fst snd] in *.
    destruct (call_spec f args w)
      as (s & w1 & Hc & Hs1 & _ & Hid1 & Hf1 & Ha1 & Hr1).
    erewrite bind_ok; [|erewrite bind_ok; [|exact Hc]; reflexivity].
    destruct (IH w1) as (extra & w' & Hrun & Hsubs & Hlen & Hid & Harr & Hrec).
    unfold call_each in Hrun. rewrite Hrun.
    exists (s :: extra), w'. split; [done|].
    rewrite Hsubs, Harr, Hrec, Hs1, Ha1, Hr1, Hf, lookup_insert_eq. cbn.
    rewrite <- !app_assoc. cbn. repeat split; [by rewrite Hlen|].
    constructor; [done|].
    eapply Forall_impl; [exact Hid|]. cbn. intros; lia.
Qed.

(** [unregister] only filters the subscriptions. *)
Lemma unregister_run l w :
  unregister l w =
  Ok tt (upd_subscriptions (filter (fun s => unsubscribed l s = false)) w).
Proof.
  revert w. induction l as [|[r id] l IH]; intros w.
  - cbn. unfold mret, M_ret. f_equal. destruct w. unfold upd_subscriptions.
    cbn. f_equal. symmetry. by apply filter_all.
  - unfold unregister in *. cbn [for_each].
    unfold mbind, M_bind, removeEventListener, modify. rewrite IH.
    f_equal. destruct w. unfold upd_subscriptions. cbn. f_equal.
    rewrite list_filter_filter. apply list_filter_iff.
    intros s. unfold unsubscribed. cbn.
    destruct (is_subscription r id s); cbn; intuition congruence.
Qed.

(** [close()] of a connection a host negotiated. *)
Lemma close_connection_host c L locals h id w :
  close c = HostClose L locals h id ->
  close_connection c w =
  Ok tt (upd_records (alter (set_connections (delete_key id)) h)
           (upd_subscriptions
              (fun l =>
                 filter (fun s => unsubscribed locals s = false)
                   (filter (fun s => unsubscribed
                                       (default [] (arrays w !! L)) s = false)
                           l))
              w)).
Proof.
  intros Hc. unfold close_connection. rewrite Hc.
  erewrite bind_ok; [|unfold unregisterRemote; rewrite bind_gets;
                      apply unregister_run].
  erewrite bind_ok; [|apply unregister_run].
  unfold upd_host, modify. f_equal.
Qed.

Lemma delete_key_fresh id l :
  connection_at id l = None -> delete_key id l = l.
Proof.
  unfold delete_key. induction l as [|[k x] l IH]; [done|].
  cbn [connection_at]. case_bool_decide; [done|]. intros Hl.
  rewrite filter_cons_True by done. f_equal. by apply IH.
Qed.

Lemma delete_key_assign id c l :
  connection_at id l = None -> delete_key id (assign id c l) = l.
Proof.
  unfold delete_key. induction l as [|[k x] l IH]; cbn [connection_at assign].
  - intros _. rewrite filter_cons_False; [done|]. cbn. tauto.
  - case_bool_decide; [done|]. intros Hl.
    rewrite filter_cons_True by done. f_equal. by apply IH.
Qed.

Lemma connection_at_assign id c l : connection_at id (assign id c l) = Some c.
Proof.
  induction l as [|[k x] l IH]; cbn [connection_at assign].
  - by rewrite bool_decide_eq_true_2.
  - case_bool_decide as Hk; cbn [connection_at].
    + by rewrite bool_decide_eq_true_2.
    + by rewrite bool_decide_eq_false_2.
Qed.

Lemma connection_at_delete_key id l : connection_at id (delete_key id l) = None.
Proof.
  unfold delete_key. induction l as [|[k x] l IH]; [done|].
  destruct (decide (k = id)) as [->|Hk].
  - rewrite filter_cons_False; [done|]. cbn. tauto.
  - rewrite filter_cons_True by done. cbn [connection_at].
    by rewrite bool_decide_eq_false_2.
Qed.

Lemma set_connections_restore id c r :
  connection_at id (connections r) = None ->
  set_connections (delete_key id) (set_connections (assign id c) r) = r.
Proof.
  intros Hl. destruct r as [t m p ls cs]. unfold set_connections.
  simpl in *. by rewrite delete_key_assign.
Qed.

Lemma alter_restore id c h (m : gmap nat host) :
  (forall r, m !! h = Some r -> connection_at id (connections r) = None) ->
  alter (set_connections (delete_key id)) h
    (alter (set_connections (assign id c)) h m) = m.
Proof.
  intros Hl. apply map_eq. intros i. destruct (decide (h = i)) as [->|Hne].
  - rewrite !lookup_alter_eq. destruct (m !! i) as [r|] eqn:Hr; [|done].
    cbn. f_equal. apply set_connections_restore. by apply Hl.
  - by rewrite !lookup_alter_ne.
Qed.

(** A negotiated connection, the calls made through its proxies, and its
    [close()]. *)
Lemma negotiated_closed guest h mr sch ev s ms cs w :
  source ev = Some s ->
  method_list (prop "methods" (data ev)) = Some ms ->
  listeners_allocated w ->
  exists c w1,
    negotiateConnection guest h mr sch ev w = Ok c w1
    /\ length (subscriptions w1)
       = length (subscriptions w) + length (extractMethods sch)
    /\ records w1
       = alter (set_connections (assign (uuidv4 (uuids w)) c)) h (records w)
    /\ (Forall (fun fa => proxy_of c fa.1) cs ->
        exists w2 w3,
          call_each cs w1 = Ok tt w2
          /\ close_connection c w2 = Ok tt w3
          /\ length (subscriptions w2) = length (subscriptions w1) + length cs
          /\ records w2 = records w1
          /\ subscriptions w3 = subscriptions w
          /\ records w3
             = alter (set_connections (delete_key (uuidv4 (uuids w)))) h
                 (records w1)).
Proof.
  intros Hs Hm Hw.
  destruct (negotiateConnection_spec guest h mr sch ev s ms w Hs Hm)
    as (c & w1 & subs & receiver & Hn & Hclose & Hremote & Hsubs & Hrun
        & Hsince & Hbelow & Harr & Hfresh & Hrec & _).
  exists c, w1. split; [done|]. split.
  { rewrite Hsubs, length_app. f_equal.
    by rewrite <- (length_map run subs), Hrun, length_map. }
  split; [done|]. intros Hcs.
  set (L := length (extractMethods sch) + fresh w) in *.
  destruct (call_each_spec L cs w1)
    as (extra & w2 & Hcalls & Hsubs2 & Hlen & Hsince2 & Harr2 & Hrec2).
  { eapply Forall_impl; [exact Hcs|]. intros [f args]. cbn.
    unfold proxy_of, connection_listeners. by rewrite Hclose. }
  exists w2. eexists. split; [done|].
  split; [by apply (close_connection_host c L (map thunk subs) h
                      (uuidv4 (uuids w)))|].
  split; [by rewrite Hsubs2, length_app, Hlen|]. split; [done|].
  cbn [subscriptions records upd_records upd_subscriptions].
  rewrite Hrec2. split; [|done].
  rewrite Harr2, Harr, lookup_insert_eq, Hsubs2, Hsubs.
  change (default [] (Some []) ++ map thunk extra) with (map thunk extra).
  rewrite (unsubscribe_younger (S L)).
  - by apply (unsubscribe_younger (fresh w)).
  - apply Forall_app. split.
    + eapply Forall_impl; [exact Hw|]. cbn. unfold L. intros; lia.
    + eapply Forall_impl; [exact Hbelow|]. cbn. intros; lia.
  - by rewrite <- Hfresh.
Qed.

(** X6.  [close()] of a connection the host negotiated undoes what the
    connection added.  Negotiation subscribes one listener per local method;
    every call through a proxy of the connection subscribes one response
    listener more.  [close()] removes all of them and no other listener, and
    deletes the connection from the record of its host: under a connection
    id that was not in use, the subscriptions and the host records are as
    they were before the handshake request was served. *)
Theorem close_undoes_negotiation guest h mr sch ev s ms cs w :
  source ev = Some s ->
  method_list (prop "methods" (data ev)) = Some ms ->
  listeners_allocated w ->
  (forall r, records w !! h = Some r ->
             connection_at (uuidv4 (uuids w)) (connections r) = None) ->
  exists c w1,
    negotiateConnection guest h mr sch ev w = Ok c w1
    /\ (Forall (fun fa => proxy_of c fa.1) cs ->
        exists w2 w3,
          call_each cs w1 = Ok tt w2
          /\ close_connection c w2 = Ok tt w3
          /\ length (subscriptions w2)
             = length (subscriptions w) + length (extractMethods sch)
               + length cs
          /\ subscriptions w3 = subscriptions w
          /\ records w3 = records w).
Proof.
  intros Hs Hm Hw Hid.
  destruct (negotiated_closed guest h mr sch ev s ms cs w Hs Hm Hw)
    as (c & w1 & Hn & Hlen & Hrec & Hcs).
  exists c, w1. split; [done|]. intros Hin.
  destruct (Hcs Hin) as (w2 & w3 & Hc & Hclose & Hlen2 & _ & Hsubs & Hrec3).
  exists w2, w3. split; [done|]. split; [done|].
  split; [by rewrite Hlen2, Hlen|]. split; [done|].
  rewrite Hrec3, Hrec. by apply alter_restore.
Qed.

(** X7.  [host.disconnect(id)] with the id of a connection of the host
    closes that connection: its listeners go and its entry is deleted.  A
    second [disconnect] with the same id finds nothing and changes
    nothing. *)
Theorem disconnect_closes_once guest h mr sch ev s ms cs w r :
  source ev = Some s ->
  method_list (prop "methods" (data ev)) = Some ms ->
  listeners_allocated w ->
  records w !! h = Some r ->
  connection_at (uuidv4 (uuids w)) (connections r) = None ->
  exists c w1,
    negotiateConnection guest h mr sch ev w = Ok c w1
    /\ (exists r1, records w1 !! h = Some r1
                   /\ connection_at (uuidv4 (uuids w)) (connections r1) = Some c)
    /\ (Forall (fun fa => proxy_of c fa.1) cs ->
        exists w2 w3,
          call_each cs w1 = Ok tt w2
          /\ disconnect h (uuidv4 (uuids w)) w2 = Ok tt w3
          /\ subscriptions w3 = subscriptions w
          /\ records w3 !! h = Some r
          /\ disconnect h (uuidv4 (uuids w)) w3 = Ok tt w3).
Proof.
  intros Hs Hm Hw Hr Hid.
  destruct (negotiated_closed guest h mr sch ev s ms cs w Hs Hm Hw)
    as (c & w1 & Hn & Hlen & Hrec & Hcs).
  exists c, w1. split; [done|].
  assert (records w1 !! h
          = Some (set_connections (assign (uuidv4 (uuids w)) c) r)) as Hr1.
  { by rewrite Hrec, lookup_alter_eq, Hr. }
  split.
  { eexists. split; [exact Hr1|]. destruct r. apply connection_at_assign. }
  intros Hin.
  destruct (Hcs Hin) as (w2 & w3 & Hc & Hclose & _ & Hrec2 & Hsubs & Hrec3).
  assert (records w3 !! h = Some r) as Hr3.
  { rewrite Hrec3, Hrec, alter_restore, Hr; [done|].
    intros r' Hr'. rewrite Hr in Hr'. by injection Hr' as <-. }
  exists w2, w3. split; [done|]. split; [|split; [done|split; [done|]]].
  - unfold disconnect. rewrite bind_gets, Hrec2, Hr1. cbn [mbind option_bind].
    destruct r. unfold set_connections. simpl.
    by rewrite connection_at_assign.
  - unfold disconnect. rewrite bind_gets, Hr3. cbn [mbind option_bind].
    by rewrite Hid.
Qed.

End Registrations.

(** ** A call through a proxy, from the caller to the peer and back *)

Section Round_trip.
Context `{C : Collaborators}.












End Round_trip.



(** ** Hosts *)

Section Hosts.
Context `{C : Collaborators}.

Lemma delete_key_head id c l :
  id ∉ map fst l -> delete_key id ((id, c) :: l) = l.
Proof.
  intros Hid. unfold delete_key.
  rewrite filter_cons_False by (simpl; tauto).
  apply filter_keep. intros [k x] Hk. simpl. intros ->.
  apply Hid. apply list_elem_of_fmap. by exists (id, x).
Qed.

(** Closing the connections of a record one after the other. *)
Lemma close_all h kcs w r :
  records w !! h = Some r ->
  connections r = kcs ->
  NoDup (map fst kcs) -> Forall (owned_by h) kcs ->
  exists w',
    for_each (map snd kcs) close_connection w = Ok tt w'
    /\ records w' = <[h := set_connections (fun _ => []) r]> (records w)
    /\ hosts w' = hosts w
    /\ arrays w' = arrays w
    /\ subscriptions w'
       = filter (fun s => Forall (fun kc => closes kc.2 w s = false) kcs)
           (subscriptions w).
Proof.
  revert w r. induction kcs as [|[id c] kcs IH]; intros w r Hr Hc Hnd Hown.
  - exists w. split; [done|]. split; [|split; [done|split; [done|]]].
    + apply map_eq. intros i. destruct (decide (h = i)) as [<-|Hne].
      * rewrite lookup_insert_eq, Hr. f_equal. destruct r. simpl in *.
        by subst.
      * by rewrite lookup_insert_ne.
    + symmetry. apply filter_keep. intros; constructor.
  - apply NoDup_cons in Hnd as [Hid Hnd].
    apply Forall_cons in Hown as [(L & locals & Hclose) Hown].
    simpl in Hclose.
    cbn [map for_each snd].
    erewrite bind_ok; [|by apply (close_connection_host c L locals h id)].
    match goal with |- context [for_each _ _ ?w1] => set (w1' := w1) end.
    destruct (IH w1' (set_connections (delete_key id) r)) as
      (w' & Hrun & Hrec & Hh & Harr & Hsubs); [| |done|done|].
    { unfold w1'. simpl. by rewrite lookup_alter_eq, Hr. }
    { destruct r. simpl in *. subst. by apply delete_key_head. }
    exists w'. split; [done|]. rewrite Hrec, Hh, Harr, Hsubs.
    split; [|split; [done|split; [done|]]].
    + unfold w1'. simpl. apply map_eq. intros i.
      destruct (decide (h = i)) as [<-|Hne].
      * rewrite !lookup_insert_eq. by destruct r.
      * by rewrite !lookup_insert_ne, lookup_alter_ne.
    + unfold w1'. simpl. rewrite !list_filter_filter.
      apply list_filter_iff. intros s0. rewrite Forall_cons.
      cbn [snd]. unfold closes at 2. rewrite Hclose, orb_false_iff. split.
      * intros [[HA HB] HC]. split; [done|exact HA].
      * intros [[HC HB] HA]. split; [split|]; [exact HA|done|done].
Qed.

(** X8.  [host.stop()] with [shouldCleanupConnections] (the default) closes
    every connection of the host, removes [mainListener] from the target and
    forgets the host: the record has no connection left, the target is no
    key of [hosts], and the listeners that stay are those that were
    subscribed, are not [mainListener] and belong to none of the closed
    connections. *)
Theorem stop_closes_connections h r w :
  records w !! h = Some r ->
  connections_wf h r ->
  exists w',
    stop h true w = Ok tt w'
    /\ hosts w' = delete (target r) (hosts w)
    /\ records w' !! h
       = Some (Host (target r) (mainListener_id r) (pendingConnections r)
                 (connectionListeners r) [])
    /\ forall s,
         s ∈ subscriptions w' <->
         s ∈ subscriptions w
         /\ is_subscription (RTarget (target r)) (mainListener_id r) s = false
         /\ Forall (fun kc => closes kc.2 w s = false) (connections r).
Proof.
  intros Hr [Hnd Hown].
  destruct (close_all h (connections r) w r Hr eq_refl Hnd Hown)
    as (w1 & Hrun & Hrec & Hh & _ & Hsubs).
  unfold stop. rewrite bind_gets, Hr.
  erewrite bind_ok; [|exact Hrun].
  unfold removeEventListener, modify, mbind, M_bind.
  eexists. split; [reflexivity|]. simpl. rewrite Hh, Hrec, Hsubs.
  split; [done|]. split; [by rewrite lookup_insert_eq|].
  intros s. rewrite !list_elem_of_filter. tauto.
Qed.

(** X9.  A host lives from [findOrCreateHostFor] to [stop]: while it lives,
    [findOrCreateHostFor] on its target answers the same host and subscribes
    nothing; [stop] takes the one listener away that creating the host
    subscribed and removes the target from [hosts]; after it
    [findOrCreateHostFor] makes another host. *)
Theorem host_lifecycle t b w :
  hosts w !! t = None ->
  listeners_allocated w ->
  exists h w1 w2 h' w3,
    findOrCreateHostFor t w = Ok h w1
    /\ length (subscriptions w1) = S (length (subscriptions w))
    /\ findOrCreateHostFor t w1 = Ok h w1
    /\ stop h b w1 = Ok tt w2
    /\ subscriptions w2 = subscriptions w
    /\ hosts w2 = hosts w
    /\ findOrCreateHostFor t w2 = Ok h' w3
    /\ h' <> h.
Proof.
  intros Ht Hw.
  set (w1 := upd_hosts <[t := fresh w]>
               (upd_records <[fresh w := Host t (S (fresh w)) 0 [] []]>
                  (upd_subscriptions
                     (fun l => l ++ [Subscription (RTarget t) (S (fresh w))
                                       (MainListener (fresh w))])
                     (upd_fresh (fun n => S (S n)) w)))).
  assert (records w1 !! fresh w = Some (Host t (S (fresh w)) 0 [] [])) as Hr.
  { apply lookup_insert_eq. }
  assert (stop (fresh w) b w1 = stop (fresh w) false w1) as Hb.
  { destruct b; [|done]. unfold stop. by rewrite !bind_gets, Hr. }
  exists (fresh w), w1. do 3 eexists.
  split; [by apply findOrCreateHostFor_new|].
  split; [unfold w1; cbn [subscriptions upd_hosts upd_records upd_subscriptions];
          rewrite length_app; simpl; lia|].
  split; [apply findOrCreateHostFor_found; apply lookup_insert_eq|].
  split; [rewrite Hb; by apply stop_run|].
  cbn [subscriptions hosts upd_hosts upd_records upd_subscriptions upd_fresh
       target mainListener_id].
  split; [|split].
  - change (subscriptions w1) with
      (subscriptions w ++ [Subscription (RTarget t) (S (fresh w))
                             (MainListener (fresh w))]).
    rewrite filter_app, filter_cons_False, filter_nil, app_nil_r.
    + apply filter_keep. intros s Hs.
      apply (proj1 (Forall_forall _ _) Hw) in Hs. simpl in Hs.
      unfold is_subscription. apply andb_false_iff. right.
      apply bool_decide_eq_false. lia.
    + unfold is_subscription. simpl.
      by rewrite !bool_decide_eq_true_2.
  - by apply delete_insert_id.
  - split; [apply findOrCreateHostFor_new; simpl; by rewrite delete_insert_id|].
    simpl. lia.
Qed.

Lemma bind_ret_tt (m : M unit) w : (m;; mret tt) w = m w.
Proof. unfold mbind, M_bind. by destruct (m w) as [[] ?|]. Qed.

(** A handshake request that finds one listener waiting. *)
Lemma handshake_served i h guest sch cb ev s w r c w1 :
  truthy (data ev) = true ->
  source ev = Some s ->
  origin ev <> "" ->
  strict_eq (prop "action" (data ev)) (JStr actions.HANDSHAKE_REQUEST) = true ->
  (forall f, guest = Some (GIframe f) -> isValidTarget f ev = true) ->
  records w !! h = Some r ->
  connectionListeners r = [(guest, [Listener i h guest sch cb])] ->
  negotiateConnection guest h (host_messageReceiver h (target r)) sch ev w
  = Ok c w1 ->
  records w1
  = alter (set_connections (assign (uuidv4 (uuids w)) c)) h (records w) ->
  mainListener h ev w
  = run_callback cb c
      (upd_records
         <[h := Host (target r) (mainListener_id r)
                  (Z.max (pendingConnections r - 1) 0) [(guest, [])]
                  (assign (uuidv4 (uuids w)) c (connections r))]> w1).
Proof.
  intros Hd Hs Ho Ha Hv Hr Hcl Hn Hrec.
  set (mr := host_messageReceiver h (target r)) in *.
  unfold mainListener. rewrite Hd, Hs. simpl.
  rewrite bool_decide_eq_false_2 by done. simpl.
  rewrite bind_gets, Hr, Ha, Hcl. cbn [map fst for_each].
  rewrite bind_ret_tt.
  assert (route h (host_messageReceiver h (target r)) ev guest =
          (ls ← gets (fun w => default []
                       (records w !! h ≫=
                        fun r => listeners_for guest (connectionListeners r)));
           for_each ls (fun l => listener l ev
                                   (negotiateConnection guest h mr)))) as ->.
  { unfold route. destruct (as_iframe guest) as [f|] eqn:Ef; [|done].
    rewrite Hv; [done|]. by destruct guest as [[]|]; simplify_eq/=. }
  rewrite bind_gets, Hr. simpl. rewrite Hcl. simpl.
  rewrite bool_decide_eq_true_2 by done.
  match goal with |- for_each _ ?b w = _ =>
    change (for_each _ b w) with
      ((b (Listener i h guest sch cb);; mret tt) w)
  end.
  rewrite bind_ret_tt. unfold listener. cbn [listener_schema listener_host
    listener_guest listener_id listener_callback].
  rewrite (bind_ok _ _ _ _ _ Hn).
  unfold upd_host, modify, mbind at 1 2, M_bind. f_equal.
  unfold upd_records. simpl. f_equal. rewrite Hrec.
  rewrite (alter_insert_at _ (records w) h r Hr).
  rewrite (alter_insert_at _ _ h _ (lookup_insert_eq _ _ _)).
  rewrite (alter_insert_at _ _ h _ (lookup_insert_eq _ _ _)).
  rewrite !insert_insert_eq. f_equal. unfold set_listeners, set_pending,
    set_connections. simpl. rewrite Hcl. simpl.
  rewrite bool_decide_eq_true_2 by done.
  rewrite filter_cons_False by (simpl; tauto). by rewrite filter_nil.
Qed.

(** The context after the public [connect] has made the host of [t]. *)
Lemma connect_new g sch w :
  let t := if isWorker (Some g) then TGuest g else TWindow in
  hosts w !! t = None ->
  connect (Some g) sch w =
  Ok (fresh w)
     (upd_records
        <[S (fresh w) :=
            Host t (S (S (fresh w))) 1
              [(Some g, [Listener (S (S (S (fresh w)))) (S (fresh w)) (Some g)
                           sch (ConnectCallback (S (fresh w)) (fresh w))])]
              []]>
        (upd_hosts <[t := S (fresh w)]>
           (upd_subscriptions
              (fun l => l ++ [Subscription (RTarget t) (S (S (fresh w)))
                                (MainListener (S (fresh w)))])
              (upd_fresh (fun n => S (S (S (S n)))) w)))).
Proof.
  intros t Ht. unfold connect. fold t.
  erewrite (bind_ok alloc); [|reflexivity].
  erewrite (bind_ok (findOrCreateHostFor t)); [|by apply findOrCreateHostFor_new].
  erewrite (bind_ok (host_connect _ _ _ _)); cycle 1.
  { apply host_connect_run. simpl. apply lookup_insert_eq. }
  unfold mret, M_ret. f_equal. simpl.
  rewrite bool_decide_eq_true_2 by done.
  unfold upd_records, upd_hosts. simpl. f_equal.
  by rewrite insert_insert_eq.
Qed.

(** X10.  The public [connect] stops its host when the last pending
    connection is made.  In a context with no host for the target, [connect]
    makes one; the handshake request of the guest then fulfils the promise,
    and since no other caller waits, the host is stopped without closing its
    connections: [mainListener] is unsubscribed and the target is no key of
    [hosts] any more, while the connection stays in the record and its
    [handleCall] listeners stay subscribed. *)
Theorem connect_stops_host g sch ev s ms w :
  let t := if isWorker (Some g) then TGuest g else TWindow in
  hosts w !! t = None ->
  listeners_allocated w ->
  handshakes w !! fresh w = None ->
  truthy (data ev) = true ->
  source ev = Some s ->
  origin ev <> "" ->
  strict_eq (prop "action" (data ev)) (JStr actions.HANDSHAKE_REQUEST) = true ->
  method_list (prop "methods" (data ev)) = Some ms ->
  (forall f, g = GIframe f -> isValidTarget f ev = true) ->
  exists p h w1 w2 c subs receiver,
    connect (Some g) sch w = Ok p w1
    /\ hosts w1 !! t = Some h
    /\ length (subscriptions w1) = S (length (subscriptions w))
    /\ mainListener h ev w1 = Ok tt w2
    /\ handshakes w2 !! p = Some (Fulfilled c)
    /\ hosts w2 !! t = None
    /\ subscriptions w2 = subscriptions w ++ subs
    /\ map run subs
       = map (fun m => HandleCall sch m (JStr (uuidv4 (uuids w))) receiver)
           (extractMethods sch)
    /\ connections <$> records w2 !! h = Some [(uuidv4 (uuids w), c)].
Proof.
  intros t Ht Hw Hp Hd Hs Ho Ha Hm Hv.
  pose proof (connect_new g sch w Ht) as Hc. fold t in Hc.
  match type of Hc with _ = Ok _ ?w1' => set (w1 := w1') in * end.
  set (h := S (fresh w)).
  set (r := Host t (S (S (fresh w))) 1
              [(Some g, [Listener (S (S (S (fresh w)))) h (Some g) sch
                           (ConnectCallback h (fresh w))])] []).
  assert (records w1 !! h = Some r) as Hr by apply lookup_insert_eq.
  destruct (negotiateConnection_spec (Some g) h
              (host_messageReceiver h (target r)) sch ev s ms w1 Hs Hm)
    as (c & w1' & subs & receiver & Hn & Hclose & _ & Hsubs & Hrun & Hsince
        & _ & _ & _ & Hrec & (Hh & Hhosts & _) & _).
  pose proof (handshake_served (S (S (S (fresh w)))) h (Some g) sch
                (ConnectCallback h (fresh w)) ev s w1 r c w1'
                Hd Hs Ho Ha) as Hrun1.
  specialize (Hrun1 ltac:(by intros f [= ->]; apply Hv) Hr eq_refl Hn Hrec).
  match type of Hrun1 with _ = run_callback _ _ ?w2' => set (w2 := w2') in * end.
  assert (records w2 !! h
          = Some (Host t (S (S (fresh w))) 0 [(Some g, [])]
                    [(uuidv4 (uuids w), c)])) as Hr2.
  { unfold w2. simpl. by rewrite lookup_insert_eq. }
  exists (fresh w), h, w1. eexists. exists c, subs, receiver.
  split; [done|]. split; [unfold w1; simpl; apply lookup_insert_eq|].
  split; [unfold w1; simpl; rewrite length_app; simpl; lia|].
  rewrite Hrun1.
  unfold run_callback. rewrite bind_gets, Hr2. cbn [pendingConnections].
  rewrite bool_decide_eq_true_2 by done.
  erewrite bind_ok; [|by apply stop_run].
  unfold settle_handshake, modify.
  split; [reflexivity|]. simpl. rewrite Hh, Hhosts, Hsubs, Hrec.
  split; [unfold settled; simpl; by rewrite Hp, lookup_insert_eq|].
  split; [apply lookup_delete_eq|].
  split; [|split; [done|by rewrite lookup_insert_eq]].
  change (subscriptions w1) with
    (subscriptions w ++ [Subscription (RTarget t) (S (S (fresh w)))
                           (MainListener (S (fresh w)))]).
  rewrite !filter_app, filter_cons_False, filter_nil, app_nil_r.
  - f_equal.
    + apply filter_keep. intros s0 Hs0.
      apply (proj1 (Forall_forall _ _) Hw) in Hs0. simpl in Hs0.
      unfold is_subscription. apply andb_false_iff. right.
      apply bool_decide_eq_false. lia.
    + apply filter_keep. intros s0 Hs0.
      apply (proj1 (Forall_forall _ _) Hsince) in Hs0. simpl in Hs0.
      unfold is_subscription. apply andb_false_iff. right.
      apply bool_decide_eq_false. lia.
  - unfold is_subscription. simpl. by rewrite !bool_decide_eq_true_2.
Qed.

(** The context after [serve] has made the host of [t] and the generator
    waits for a connection. *)
Lemma serve_new t sch w :
  hosts w !! t = None ->
  (h ← serve t; p ← next_connection h sch; mret (h, p)) w =
  Ok (fresh w, S (S (fresh w)))
     (upd_records
        <[fresh w :=
            Host t (S (fresh w)) 1
              [(None, [Listener (S (S (S (fresh w)))) (fresh w) None sch
                         (ServeResolve (S (S (fresh w))))])]
              []]>
        (upd_hosts <[t := fresh w]>
           (upd_subscriptions
              (fun l => l ++ [Subscription (RTarget t) (S (fresh w))
                                (MainListener (fresh w))])
              (upd_fresh (fun n => S (S (S (S n)))) w)))).
Proof.
  intros Ht. unfold serve, next_connection.
  erewrite (bind_ok (findOrCreateHostFor t)); [|by apply findOrCreateHostFor_new].
  erewrite bind_ok; cycle 1.
  { erewrite (bind_ok alloc); [|reflexivity].
    erewrite (bind_ok (host_connect _ _ _ _)); cycle 1.
    { apply host_connect_run. simpl. apply lookup_insert_eq. }
    reflexivity. }
  unfold mret, M_ret. f_equal. simpl.
  unfold upd_records, upd_hosts. simpl. f_equal.
  by rewrite insert_insert_eq.
Qed.

(** X11.  A host made by [serve] answers the handshake request of any
    sender.  Its listeners wait under the guest [null], for which
    [mainListener] checks neither the origin nor the source of the event:
    whatever they are, when the event loop delivers the request to the
    target (where no main listener of an earlier host is left), the request
    is served, the promise of the generator is fulfilled with a connection
    whose [remote] is the copy of the request's schema with a proxy set at
    each path the request names, and the reply is posted to the source of
    the event without a target origin.  The host keeps listening
    afterwards. *)
Theorem serve_accepts_any_source t sch ev s ms w :
  hosts w !! t = None ->
  handshakes w !! S (S (fresh w)) = None ->
  Forall (fun x => on x = RTarget t -> forall h, run x <> MainListener h)
    (subscriptions w) ->
  truthy (data ev) = true ->
  source ev = Some s ->
  origin ev <> "" ->
  strict_eq (prop "action" (data ev)) (JStr actions.HANDSHAKE_REQUEST) = true ->
  method_list (prop "methods" (data ev)) = Some ms ->
  exists h p w1 w2 c,
    (h ← serve t; p ← next_connection h sch; mret (h, p)) w = Ok (h, p) w1
    /\ deliver (RTarget t) ev w1 = Ok tt w2
    /\ handshakes w2 !! p = Some (Fulfilled c)
    /\ (exists L locals,
          close c = HostClose L locals h (uuidv4 (uuids w))
          /\ remote c
             = set_proxies (spread_object (prop "schema" (data ev))) ms
                 (JStr (uuidv4 (uuids w))) ev L
                 (host_messageReceiver h t))
    /\ posted w2
       = posted w ++ [Post (ViaEndpoint s)
                        (handshake_reply (uuidv4 (uuids w))
                           (extractMethods sch) sch) None]
    /\ hosts w2 !! t = Some h
    /\ Subscription (RTarget t) (S (fresh w)) (MainListener h)
       ∈ subscriptions w2
    /\ pendingConnections <$> records w2 !! h = Some 0%Z.
Proof.
  intros Ht Hp Hmain Hd Hs Ho Ha Hm.
  pose proof (serve_new t sch w Ht) as Hc.
  match type of Hc with _ = Ok _ ?w1' => set (w1 := w1') in * end.
  set (h := fresh w).
  set (r := Host t (S (fresh w)) 1
              [(None, [Listener (S (S (S (fresh w)))) h None sch
                         (ServeResolve (S (S (fresh w))))])] []).
  assert (records w1 !! h = Some r) as Hr by apply lookup_insert_eq.
  destruct (negotiateConnection_spec None h
              (host_messageReceiver h (target r)) sch ev s ms w1 Hs Hm)
    as (c & w1' & subs & receiver & Hn & Hclose & Hremote & Hsubs & _ & _
        & _ & _ & _ & Hrec & (Hh & Hhosts & _) & (o & Hposted & Hnone & _)
        & Hmr).
  rewrite (Hnone eq_refl) in Hposted. rewrite (Hmr eq_refl) in Hremote.
  pose proof (handshake_served (S (S (S (fresh w)))) h None sch
                (ServeResolve (S (S (fresh w)))) ev s w1 r c w1'
                Hd Hs Ho Ha) as Hrun1.
  specialize (Hrun1 ltac:(done) Hr eq_refl Hn Hrec).
  assert (deliver (RTarget t) ev w1 = mainListener h ev w1) as Hdel.
  { rewrite (deliver_last _ _
               (filter (fun x => on x = RTarget t) (subscriptions w))
               (Subscription (RTarget t) (S (fresh w)) (MainListener h))).
    - unfold dispatch_to, async. cbn [run]. by rewrite Hrun1.
    - unfold w1. cbn [subscriptions upd_records upd_hosts upd_subscriptions
                      upd_fresh]. rewrite filter_app.
      by rewrite filter_cons_True, filter_nil.
    - apply Forall_forall. intros x [Hon Hx]%list_elem_of_filter.
      apply dispatch_handshake_request; [done|].
      by apply (proj1 (Forall_forall _ _) Hmain x Hx). }
  exists h, (S (S (fresh w))), w1. eexists. exists c.
  split; [done|]. rewrite Hdel, Hrun1.
  unfold run_callback, settle_handshake, modify.
  split; [reflexivity|]. simpl. rewrite Hh, Hhosts, Hsubs, Hposted.
  split; [unfold settled; simpl; by rewrite Hp, lookup_insert_eq|].
  split; [by do 2 eexists|].
  split; [done|]. split; [apply lookup_insert_eq|].
  split; [|by rewrite lookup_insert_eq].
  apply elem_of_app. left. apply elem_of_app. right. left.
Qed.

(** The listeners of one connection, called on a request for [m]: only the
    listener of [m] answers. *)
Lemma downstream_calls sch cid mr ev m f xs v v' c o methods l w :
  call_conditions m cid ev ->
  get sch m = Some f ->
  spread (call_args ev) = Some xs ->
  f xs = Returned v ->
  json_clone v = Some v' ->
  response_channel mr ev = Some (c, o) ->
  NoDup methods ->
  map run l = map (fun m' => HandleCall sch m' cid mr) methods ->
  exists w',
    for_each l (fun x => downstream (run x) ev) w = Ok tt w'
    /\ (m ∈ methods ->
        invocations w' = invocations w ++ [(m, xs)]
        /\ posted w'
           = posted w
             ++ [Post c (resolve_payload (prop "callID" (data ev))
                           (prop "callName" (data ev))
                           (prop "connectionID" (data ev)) JNull v') o])
    /\ (m ∉ methods -> w' = w).
Proof.
  intros Hc Hg Hs Hf Hj Hch Hnd. revert l w.
  induction Hnd as [|m' methods Hm' Hnd IH]; intros l w Hl.
  - destruct l; [|done]. exists w. split; [done|].
    split; [by intros ?%elem_of_nil|done].
  - destruct l as [|x l]; [done|]. injection Hl as Hx Hl.
    cbn [for_each]. rewrite Hx. cbn [downstream].
    unfold mbind at 1, M_bind at 1, async.
    destruct (decide (m' = m)) as [->|Hne].
    + destruct (IH l (after (handleCall sch m cid mr ev w)) Hl)
        as (w' & Hrun & _ & Hsame).
      exists w'. split; [done|]. rewrite (Hsame Hm').
      split; [|intros Hn; exfalso; apply Hn; left].
      intros _. apply accepts_call_spec in Hc.
      rewrite handleCall_accepts by done.
      rewrite (bind_ok _ _ _ _ _
                 (run_method_returned _ _ _ _ _ _ _ w Hs Hg Hf Hj)).
      by rewrite Hch.
    + assert (after (handleCall sch m' cid mr ev w) = w) as ->.
      { apply handleCall_ignores. unfold accepts_call.
        destruct Hc as (_ & _ & _ & _ & Hn & _).
        apply strict_eq_str in Hn. rewrite Hn. simpl.
        rewrite (bool_decide_eq_false_2 (m = m')) by done.
        by rewrite !andb_false_r. }
      destruct (IH l w Hl) as (w' & Hrun & Hin & Hout).
      exists w'. split; [done|]. split.
      * intros [->|Hm]%elem_of_cons; [done|]. by apply Hin.
      * intros Hn. apply Hout. intros Hm. apply Hn. by right.
Qed.

(** X17.  A host on a service-worker scope forwards what is no handshake
    request to the listeners of its adapter.  When the [handleCall]
    listeners of a connection are the listeners of the adapter, a request
    for a method of that connection that arrives at the scope is passed on
    by [mainListener]: the function is invoked once and its result is
    posted back.  A host on another target leaves such a message alone. *)
Theorem service_worker_forwards h r sch cid ev s m f xs v v' c o methods w :
  records w !! h = Some r ->
  truthy (data ev) = true ->
  source ev = Some s ->
  origin ev <> "" ->
  call_conditions m cid ev ->
  get sch m = Some f ->
  spread (call_args ev) = Some xs ->
  f xs = Returned v ->
  json_clone v = Some v' ->
  response_channel (Some (RAdapter h)) ev = Some (c, o) ->
  NoDup methods -> m ∈ methods ->
  map run (filter (fun x => on x = RAdapter h) (subscriptions w))
  = map (fun m' => HandleCall sch m' cid (Some (RAdapter h))) methods ->
  (target r <> TServiceWorkerGlobalScope -> mainListener h ev w = Ok tt w)
  /\ (target r = TServiceWorkerGlobalScope ->
      exists w',
        mainListener h ev w = Ok tt w'
        /\ invocations w' = invocations w ++ [(m, xs)]
        /\ posted w'
           = posted w
             ++ [Post c (resolve_payload (prop "callID" (data ev))
                           (prop "callName" (data ev))
                           (prop "connectionID" (data ev)) JNull v') o]).
Proof.
  intros Hr Hd Hs Ho Hc Hg Hx Hf Hj Hch Hnd Hm Hl.
  assert (strict_eq (prop "action" (data ev)) (JStr actions.HANDSHAKE_REQUEST)
          = false) as Ha.
  { destruct Hc as (Ha & _). apply strict_eq_str in Ha. by rewrite Ha. }
  assert (mainListener h ev w
          = (if bool_decide (target r = TServiceWorkerGlobalScope)
             then
               subs ← gets (fun w => filter (fun s => on s = RAdapter h)
                                       (subscriptions w));
               for_each subs (fun s => downstream (run s) ev)
             else mret tt) w) as ->.
  { unfold mainListener. rewrite Hd, Hs. simpl.
    rewrite bool_decide_eq_false_2 by done. simpl.
    by rewrite bind_gets, Hr, Ha. }
  split.
  - intros Ht. by rewrite bool_decide_eq_false_2.
  - intros Ht. rewrite bool_decide_eq_true_2 by done. rewrite bind_gets.
    destruct (downstream_calls sch cid (Some (RAdapter h)) ev m f xs v v' c o
                methods _ w Hc Hg Hx Hf Hj Hch Hnd Hl)
      as (w' & Hrun & Hin & _).
    exists w'. split; [done|]. by apply Hin.
Qed.

(** X19.  The handshake reply to an iframe is posted to every origin.  The
    request of an iframe guest is served only if its origin is that of the
    iframe's [src] and its source is the iframe's window; the reply then
    goes to that window with the target origin ["*"], not with the origin
    that was checked.  The reply to a worker has no target origin. *)
Theorem reply_to_iframe_unscoped guest h mr sch ev s ms w :
  source ev = Some s ->
  method_list (prop "methods" (data ev)) = Some ms ->
  let reply := handshake_reply (uuidv4 (uuids w)) (extractMethods sch) sch in
  let w' := after (negotiateConnection guest h mr sch ev w) in
  (forall f, guest = Some (GIframe f) -> isValidTarget f ev = true ->
             posted w' = posted w ++ [Post (ViaEndpoint s) reply (Some "*")])
  /\ (forall n, guest = Some (GWorker n) ->
                posted w' = posted w ++ [Post (ViaEndpoint s) reply None]).
Proof.
  intros Hs Hm reply w'.
  destruct (negotiateConnection_spec guest h mr sch ev s ms w Hs Hm)
    as (c & w1 & subs & receiver & Hn & _ & _ & _ & _ & _
        & _ & _ & _ & _ & _ & (o & Hposted & _ & Ho) & _).
  unfold w'. rewrite Hn. cbn [after]. rewrite Hposted. split.
  - intros f -> Hv. rewrite (Ho _ eq_refl). cbn [guest_contentWindow].
    unfold isValidTarget in Hv. apply andb_true_iff in Hv as [_ Hv].
    apply bool_decide_eq_true in Hv. rewrite <- Hv, Hs.
    by rewrite bool_decide_eq_true_2.
  - intros n ->. by rewrite (Ho _ eq_refl).
Qed.

End Hosts.

(** ** The guest's side of the handshake *)

Section Guests.
Context `{C : Collaborators}.

(** What [registerRemoteMethods] leaves. *)
Lemma registerRemoteMethods_run sch methods cid ev mr ms w :
  method_list methods = Some ms ->
  registerRemoteMethods sch methods cid ev mr w =
  Ok (set_proxies (spread_object sch) ms cid ev (fresh w) mr, fresh w)
     (upd_arrays <[fresh w := []]> (upd_fresh S w)).
Proof.
  intros Hm. unfold registerRemoteMethods. rewrite Hm. reflexivity.
Qed.

Lemma registerRemoteMethods_throws sch methods cid ev mr w :
  method_list methods = None ->
  registerRemoteMethods sch methods cid ev mr w =
  Thrown "TypeError" (upd_arrays <[fresh w := []]> (upd_fresh S w)).
Proof.
  intros Hm. unfold registerRemoteMethods. rewrite Hm. reflexivity.
Qed.

(** The reply is accepted. *)
Lemma handleHandshakeResponse_accepted a att ev ms w :
  attempts w !! a = Some att ->
  destructurable (data ev) = true ->
  accepts_reply (attempt_target att) ev = true ->
  method_list (prop "methods" (data ev)) = Some ms ->
  let sch := attempt_schema att in
  let cid := prop "connectionID" (data ev) in
  let mr := guest_messageReceiver (attempt_target att) in
  let L := length (extractMethods sch) + fresh w in
  exists subs w1,
    handleHandshakeResponse a ev w = Ok tt w1
    /\ subscriptions w1 = subscriptions w ++ subs
    /\ map run subs = map (fun m => HandleCall sch m cid mr) (extractMethods sch)
    /\ allocated_since (fresh w) subs
    /\ Forall (fun s => handler_id s < L) subs
    /\ arrays w1 = <[L := []]> (arrays w)
    /\ fresh w1 = S L
    /\ attempts w1 = alter (set_connected true) a (attempts w)
    /\ timers w1 = timers w /\ posted w1 = posted w
    /\ handshakes w1
       = settled (attempt_promise att)
           (Fulfilled
              (Connection
                 (set_proxies (spread_object (prop "schema" (data ev))) ms cid
                    ev L mr)
                 (GuestClose (guest_listeners (attempt_target att))
                    (attempt_listener att) L (map thunk subs))
                 JUndefined))
           (handshakes w).
Proof.
  intros Ha Hd Hacc Hm sch cid mr L.
  unfold handleHandshakeResponse. rewrite bind_gets, Ha, Hd, Hacc.
  cbn [negb]. unfold registerLocalMethods.
  destruct (subscribe_calls_spec sch (extractMethods sch) cid mr [] w)
    as (subs & Hrun & Hh & Hon & Hid & Hup).
  fold sch cid mr.
  erewrite bind_ok; [|exact Hrun].
  erewrite bind_ok; [|by apply registerRemoteMethods_run].
  unfold settle_handshake, modify, mbind, M_bind.
  exists subs. eexists. split; [reflexivity|]. simpl.
  by repeat split.
Qed.

Lemma settled_new {A} p (x : settlement A) m :
  m !! p = None -> settled p x m !! p = Some x.
Proof. intros Hp. unfold settled. by rewrite Hp, lookup_insert_eq. Qed.

Lemma settled_old {A} p (x y : settlement A) m :
  m !! p = Some y -> settled p x m = m.
Proof. intros Hp. unfold settled. by rewrite Hp. Qed.

(** [close()] of a connection a guest was given. *)
Lemma close_connection_guest c r id L locals w :
  close c = GuestClose r id L locals ->
  close_connection c w =
  Ok tt (upd_subscriptions
           (fun l =>
              filter (fun s => unsubscribed locals s = false)
                (filter (fun s => unsubscribed
                                    (default [] (arrays w !! L)) s = false)
                   (filter (fun s => is_subscription r id s = false) l)))
           w).
Proof.
  intros Hc. unfold close_connection. rewrite Hc.
  unfold removeEventListener, modify.
  unfold mbind at 1, M_bind at 1.
  erewrite bind_ok; [|unfold unregisterRemote; rewrite bind_gets;
                      apply unregister_run].
  rewrite unregister_run. f_equal.
Qed.


(** X13.  The handshake, end to end.  The tick of the guest's interval
    posts the handshake request to the target.  A host that negotiates a
    connection on that request names the guest's methods in its proxies and
    posts the reply to the source of the request.  The guest accepts that
    reply when it comes from its target: the promise of [connect] is
    fulfilled with a connection whose proxies are the host's methods.  Both
    sides file the connection under the identifier the host drew: the
    proxies and the [handleCall] listeners of both carry it. *)
Theorem handshake_round_trip guest h mr host_sch a att req rep s wh wg :
  attempts wg !! a = Some att ->
  connected att = false ->
  handshakes wg !! attempt_promise att = None ->
  let guest_sch := attempt_schema att in
  let request := handshake_request (extractMethods guest_sch) guest_sch in
  let id := JStr (uuidv4 (uuids wh)) in
  let reply := handshake_reply (uuidv4 (uuids wh)) (extractMethods host_sch)
                 host_sch in
  data req = request -> source req = Some s ->
  data rep = reply -> source rep = Some (attempt_target att) ->
  (exists o, posted (after (retry a wg))
             = posted wg ++ [Post (ViaEndpoint (attempt_target att)) request o])
  /\ exists ch wh1 cg wg1 o,
       negotiateConnection guest h mr host_sch req wh = Ok ch wh1
       /\ posted wh1 = posted wh ++ [Post (ViaEndpoint s) reply o]
       /\ handleHandshakeResponse a rep wg = Ok tt wg1
       /\ handshakes wg1 !! attempt_promise att = Some (Fulfilled cg)
       /\ (exists r,
             remote ch
             = set_proxies (spread_object (schema_json guest_sch))
                 (map JStr (extractMethods guest_sch)) id req
                 (connection_listeners ch) r)
       /\ remote cg
          = set_proxies (spread_object (schema_json host_sch))
              (map JStr (extractMethods host_sch)) id rep
              (connection_listeners cg)
              (guest_messageReceiver (attempt_target att))
       /\ Forall (fun x => exists m r,
                    run x = HandleCall host_sch m id r
                    \/ run x = HandleCall guest_sch m id r)
            (drop (length (subscriptions wh)) (subscriptions wh1)
             ++ drop (length (subscriptions wg)) (subscriptions wg1)).
Proof.
  intros Ha Hc Hp guest_sch request id reply Hreq Hs Hrep Hsrc.
  split.
  { unfold retry. rewrite bind_gets, Ha, Hc.
    destruct (is_window (attempt_target att)); by eexists. }
  assert (method_list (prop "methods" (data req))
          = Some (map JStr (extractMethods guest_sch))) as Hm by by rewrite Hreq.
  destruct (negotiateConnection_spec guest h mr host_sch req s
              (map JStr (extractMethods guest_sch)) wh Hs Hm)
    as (ch & wh1 & subs & receiver & Hn & Hclose & Hremote & Hsubs & Hrun & _
        & _ & _ & _ & _ & _ & (o & Hposted & _) & _).
  assert (method_list (prop "methods" (data rep))
          = Some (map JStr (extractMethods host_sch))) as Hm' by by rewrite Hrep.
  assert (prop "connectionID" (data rep) = id) as Hid by by rewrite Hrep.
  destruct (handleHandshakeResponse_accepted a att rep
              (map JStr (extractMethods host_sch)) wg Ha) as
    (subs' & wg1 & Hrun' & Hsubs' & Hruns' & _ & _ & _ & _ & _ & _ & _ & Hh);
    [by rewrite Hrep| |exact Hm'|].
  { unfold accepts_reply. rewrite Hrep, Hsrc. simpl.
    by rewrite !bool_decide_eq_true_2. }
  exists ch, wh1. eexists. exists wg1, o.
  split; [done|]. split; [done|]. split; [done|].
  split; [rewrite Hh; by apply settled_new|].
  split.
  { exists receiver. unfold connection_listeners.
    by rewrite Hremote, Hclose, Hreq. }
  split; [unfold connection_listeners; cbn [remote close]; by rewrite Hid, Hrep|].
  rewrite Hsubs, Hsubs', !drop_app_length. apply Forall_app. split.
  - apply Forall_forall. intros x Hx.
    assert (run x ∈ map run subs) as Hin by by apply list_elem_of_fmap_2.
    rewrite Hrun in Hin. apply list_elem_of_fmap in Hin as (m & -> & _).
    exists m, receiver. by left.
  - apply Forall_forall. intros x Hx.
    assert (run x ∈ map run subs') as Hin by by apply list_elem_of_fmap_2.
    rewrite Hruns' in Hin. apply list_elem_of_fmap in Hin as (m & -> & _).
    exists m. eexists. right. by rewrite Hid.
Qed.

(** X14.  A handshake reply whose [methods] is no array leaves the guest
    unconnected.  [registerRemoteMethods] throws out of
    [handleHandshakeResponse] after the local methods have been registered:
    their listeners stay subscribed, the promise is not settled and
    [connected] stays false, so the timeout rejects the promise. *)
Theorem malformed_reply_times_out a att ev w :
  attempts w !! a = Some att ->
  connected att = false ->
  handshakes w !! attempt_promise att = None ->
  destructurable (data ev) = true ->
  accepts_reply (attempt_target att) ev = true ->
  method_list (prop "methods" (data ev)) = None ->
  exists e w1 subs,
    handleHandshakeResponse a ev w = Thrown e w1
    /\ subscriptions w1 = subscriptions w ++ subs
    /\ length subs = length (extractMethods (attempt_schema att))
    /\ handshakes w1 = handshakes w
    /\ attempts w1 = attempts w
    /\ handshakes (after (timeout a w1)) !! attempt_promise att
       = Some (Rejected (JStr "connection timeout")).
Proof.
  intros Ha Hc Hp Hd Hacc Hm.
  unfold handleHandshakeResponse. rewrite bind_gets, Ha, Hd, Hacc.
  cbn [negb]. unfold registerLocalMethods.
  destruct (subscribe_calls_spec (attempt_schema att)
              (extractMethods (attempt_schema att))
              (prop "connectionID" (data ev))
              (guest_messageReceiver (attempt_target att)) [] w)
    as (subs & Hrun & Hh & Hon & Hid & Hup).
  erewrite bind_ok; [|exact Hrun].
  erewrite bind_thrown; [|by apply registerRemoteMethods_throws].
  do 2 eexists. exists subs. split; [reflexivity|]. simpl.
  split; [done|].
  split; [by rewrite <- (length_map run subs), Hh, length_map|].
  split; [done|]. split; [done|].
  unfold timeout. rewrite bind_gets. simpl. rewrite Ha, Hc. simpl.
  by apply settled_new.
Qed.

(** X15.  Nothing guards [handleHandshakeResponse] against a second reply.
    A second reply of the target registers the local methods once more and
    allocates another array of listeners; the promise stays fulfilled with
    the connection of the first reply, and [close()] of that connection
    leaves the listeners of the second registration subscribed. *)
Theorem second_reply_registers_again a att ev1 ev2 ms1 ms2 w :
  attempts w !! a = Some att ->
  handshakes w !! attempt_promise att = None ->
  listeners_allocated w ->
  attempt_listener att < fresh w ->
  destructurable (data ev1) = true ->
  accepts_reply (attempt_target att) ev1 = true ->
  method_list (prop "methods" (data ev1)) = Some ms1 ->
  destructurable (data ev2) = true ->
  accepts_reply (attempt_target att) ev2 = true ->
  method_list (prop "methods" (data ev2)) = Some ms2 ->
  exists c w1 w2 w3 subs2,
    handleHandshakeResponse a ev1 w = Ok tt w1
    /\ handshakes w1 !! attempt_promise att = Some (Fulfilled c)
    /\ handleHandshakeResponse a ev2 w1 = Ok tt w2
    /\ handshakes w2 = handshakes w1
    /\ subscriptions w2 = subscriptions w1 ++ subs2
    /\ map run subs2
       = map (fun m => HandleCall (attempt_schema att) m
                         (prop "connectionID" (data ev2))
                         (guest_messageReceiver (attempt_target att)))
           (extractMethods (attempt_schema att))
    /\ close_connection c w2 = Ok tt w3
    /\ Forall (fun s => s ∈ subscriptions w3) subs2.
Proof.
  intros Ha Hp Hw Hl Hd1 Hacc1 Hm1 Hd2 Hacc2 Hm2.
  destruct (handleHandshakeResponse_accepted a att ev1 ms1 w Ha Hd1 Hacc1 Hm1)
    as (subs1 & w1 & Hrun1 & Hsubs1 & Hruns1 & Hsince1 & Hbelow1 & Harr1
        & Hfresh1 & Hatt1 & _ & _ & Hh1).
  assert (attempts w1 !! a = Some (set_connected true att)) as Ha1.
  { by rewrite Hatt1, lookup_alter_eq, Ha. }
  destruct (handleHandshakeResponse_accepted a _ ev2 ms2 w1 Ha1 Hd2 Hacc2 Hm2)
    as (subs2 & w2 & Hrun2 & Hsubs2 & Hruns2 & Hsince2 & Hbelow2 & Harr2
        & Hfresh2 & _ & _ & _ & Hh2).
  eexists. exists w1, w2. eexists. exists subs2.
  split; [done|]. split; [rewrite Hh1; by apply settled_new|].
  split; [done|].
  split.
  { rewrite Hh2. eapply settled_old. cbn [attempt_promise set_connected].
    rewrite Hh1. by apply settled_new. }
  split; [done|]. split; [done|].
  split; [by eapply close_connection_guest|].
  cbn [subscriptions upd_subscriptions].
  apply Forall_forall. intros s Hs.
  pose proof (proj1 (Forall_forall _ _) Hsince2 s Hs) as Hge. simpl in Hge.
  rewrite Hfresh1 in Hge.
  apply list_elem_of_filter. split.
  { eapply unsubscribed_younger; [exact Hbelow1|]. lia. }
  apply list_elem_of_filter. split.
  { rewrite Harr2. cbn [attempt_schema set_connected].
    rewrite lookup_insert_ne, Harr1, lookup_insert_eq by (rewrite Hfresh1; lia).
    done. }
  apply list_elem_of_filter. split.
  { unfold is_subscription. apply andb_false_iff. right.
    apply bool_decide_eq_false. lia. }
  rewrite Hsubs2. apply elem_of_app. by right.
Qed.

(** X16.  [close()] of the connection a guest was given removes what the
    handshake and the calls subscribed: the listener of the handshake reply,
    the [handleCall] listeners of the local methods and the response
    listener of every call made through a proxy of the connection.  No
    other listener goes. *)
Theorem guest_close_unsubscribes a att ev ms cs w :
  attempts w !! a = Some att ->
  handshakes w !! attempt_promise att = None ->
  listeners_allocated w ->
  destructurable (data ev) = true ->
  accepts_reply (attempt_target att) ev = true ->
  method_list (prop "methods" (data ev)) = Some ms ->
  exists c w1,
    handleHandshakeResponse a ev w = Ok tt w1
    /\ handshakes w1 !! attempt_promise att = Some (Fulfilled c)
    /\ (Forall (fun fa => proxy_of c fa.1) cs ->
        exists w2 w3,
          call_each cs w1 = Ok tt w2
          /\ length (subscriptions w2)
             = length (subscriptions w)
               + length (extractMethods (attempt_schema att)) + length cs
          /\ close_connection c w2 = Ok tt w3
          /\ subscriptions w3
             = filter (fun s => is_subscription
                                  (guest_listeners (attempt_target att))
                                  (attempt_listener att) s = false)
                 (subscriptions w)).
Proof.
  intros Ha Hp Hw Hd Hacc Hm.
  destruct (handleHandshakeResponse_accepted a att ev ms w Ha Hd Hacc Hm)
    as (subs & w1 & Hrun & Hsubs & Hruns & Hsince & Hbelow & Harr
        & Hfresh & _ & _ & _ & Hh).
  eexists. exists w1. split; [done|].
  split; [rewrite Hh; by apply settled_new|]. intros Hcs.
  set (L := length (extractMethods (attempt_schema att)) + fresh w) in *.
  destruct (call_each_spec L cs w1)
    as (extra & w2 & Hcalls & Hsubs2 & Hlen & Hsince2 & Harr2 & Hrec2).
  { eapply Forall_impl; [exact Hcs|]. by intros [f args]. }
  exists w2. eexists. split; [done|].
  split.
  { rewrite Hsubs2, Hsubs, !length_app, Hlen. f_equal. f_equal.
    by rewrite <- (length_map run subs), Hruns, length_map. }
  split; [by eapply close_connection_guest|].
  cbn [subscriptions upd_subscriptions].
  rewrite Harr2, Harr, lookup_insert_eq, Hsubs2, Hsubs.
  change (default [] (Some []) ++ map thunk extra) with (map thunk extra).
  rewrite !list_filter_filter, !filter_app.
  rewrite (filter_none _ subs), (filter_none _ extra), !app_nil_r.
  - apply filter_iff_in. intros s Hs.
    pose proof (proj1 (Forall_forall _ _) Hw s Hs) as Hlt. simpl in Hlt.
    assert (unsubscribed (map thunk subs) s = false) as H1.
    { eapply unsubscribed_older; [exact Hsince|done]. }
    assert (unsubscribed (map thunk extra) s = false) as H2.
    { eapply unsubscribed_older; [exact Hsince2|]. rewrite Hfresh. lia. }
    tauto.
  - intros s Hs Hall.
    assert (unsubscribed (map thunk extra) s = true) as H1
      by by apply unsubscribed_own.
    intuition congruence.
  - intros s Hs Hall.
    assert (unsubscribed (map thunk subs) s = true) as H1
      by by apply unsubscribed_own.
    intuition congruence.
Qed.

End Guests.

(** ** The schedule of the guest's requests *)

Section Schedule.
Context `{C : Collaborators}.

Lemma div_step R n :
  R <> 0 ->
  (S n / R = S (n / R) /\ S n = R * S (n / R))
  \/ (S n / R = n / R /\ S n < R * S (n / R)).
Proof.
  intros Hnz.
  pose proof (Nat.div_mod_eq n R) as Hn.
  pose proof (Nat.mod_upper_bound n R Hnz) as Hlt.
  set (q := n / R) in *.
  set (m := n mod R) in *.
  destruct (decide (S m = R)) as [Hm|Hm].
  - left. split; [|lia].
    symmetry. apply (Nat.div_unique _ _ _ 0); lia.
  - right. split; [|lia].
    symmetry. apply (Nat.div_unique _ _ _ (S m)); lia.
Qed.

Lemma retry_posts sch target p a w :
  attempts w !! a = Some (Attempt sch target (2 + p) (Some (3 + p)) false p) ->
  retry a w = Ok tt (upd_posted (fun l => l ++ [request_post sch target]) w).
Proof.
  intros Ha. unfold retry. rewrite bind_gets, Ha. simpl.
  unfold request_post. by destruct (is_window target).
Qed.

Lemma advance_run w :
  advance w
  = for_each (filter (fun t => due t = S (now w)) (timers w)) fire
      (upd_now S w).
Proof. reflexivity. Qed.

Lemma quiet_run w : millisecond (fun _ => []) w = advance w.
Proof.
  unfold millisecond, mbind, M_bind. by destruct (advance w) as [[] ?|].
Qed.

(** The interval ticks. *)
Lemma fire_tick sch target p d R rest w :
  attempts w !! (1 + p)
  = Some (Attempt sch target (2 + p) (Some (3 + p)) false p) ->
  timers w = Timer (3 + p) d (Some R) (RetryHandshake (1 + p)) :: rest ->
  Forall (fun t => timer_id t <> 3 + p) rest ->
  fire (Timer (3 + p) d (Some R) (RetryHandshake (1 + p))) w
  = Ok tt
      (upd_posted (fun l => l ++ [request_post sch target])
         (upd_timers
            (fun _ => Timer (3 + p) (d + R) (Some R) (RetryHandshake (1 + p))
                      :: rest) w)).
Proof.
  intros Ha Ht Hrest. unfold fire. rewrite bind_gets, Ht.
  cbn [existsb timer_id]. rewrite bool_decide_eq_true_2 by done.
  cbn [orb]. unfold modify, run_job, async.
  unfold mbind, M_bind. cbn [job].
  rewrite (retry_posts sch target p) by done. cbn [after]. f_equal.
  unfold upd_timers. rewrite Ht. f_equal. f_equal.
  unfold reschedule. cbn [every map timer_id due job].
  rewrite bool_decide_eq_true_2 by done. f_equal.
  clear Ht. induction Hrest as [|t rest Hne _ IH]; [done|]. cbn [map].
  simpl in Hne. rewrite bool_decide_eq_false_2 by done. by rewrite IH.
Qed.

Lemma timeout_rejects sch target p a w :
  attempts w !! a = Some (Attempt sch target (2 + p) (Some (3 + p)) false p) ->
  handshakes w !! p = None ->
  timeout a w
  = Ok tt (upd_handshakes <[p := Rejected (JStr "connection timeout")]> w).
Proof.
  intros Ha Hp. unfold timeout. rewrite bind_gets, Ha.
  cbn [connected negb attempt_promise].
  unfold settle_handshake, modify, upd_handshakes, settled. by rewrite Hp.
Qed.

(** The timeout fires. *)
Lemma fire_timeout sch target p d first w :
  attempts w !! (1 + p)
  = Some (Attempt sch target (2 + p) (Some (3 + p)) false p) ->
  timers w = [first; timeout_timer (1 + p) (4 + p) d] ->
  timer_id first <> 4 + p ->
  handshakes w !! p = None ->
  fire (timeout_timer (1 + p) (4 + p) d) w
  = Ok tt
      (upd_handshakes <[p := Rejected (JStr "connection timeout")]>
         (upd_timers (fun _ => [first]) w)).
Proof.
  intros Ha Ht Hne Hp. unfold fire. rewrite bind_gets, Ht.
  cbn [existsb timer_id timeout_timer].
  rewrite (bool_decide_eq_true_2 (4 + p = 4 + p)) by done.
  rewrite orb_true_r. cbn [orb]. unfold modify, run_job, async.
  unfold mbind, M_bind. unfold timeout_timer at 1. cbn [job].
  rewrite (timeout_rejects sch target p) by done. cbn [after]. f_equal.
  unfold upd_timers. rewrite Ht. do 2 f_equal.
  unfold reschedule, timeout_timer. cbn [every timer_id].
  rewrite filter_cons_True by done.
  rewrite filter_cons_False by (cbn; tauto). done.
Qed.

Lemma repeat_snoc {A} (x : A) n : repeat x n ++ [x] = repeat x (S n).
Proof. induction n as [|n IH]; [done|]. simpl. by rewrite IH. Qed.

Lemma quiet_millisecond sch target p t0 R T n w0 w :
  R <> 0 ->
  unanswered sch target p t0 R T n w0 w ->
  exists w',
    millisecond (fun _ => []) w = Ok tt w'
    /\ unanswered sch target p t0 R T (S n) w0 w'.
Proof.
  intros HR [Hnow Hatt Htimers Hp Hposted].
  rewrite quiet_run, advance_run, Hnow, Htimers.
  set (ti := Timer (3 + p) (t0 + R * S (n / R)) (Some R)
               (RetryHandshake (1 + p))).
  set (tt' := timeout_timer (1 + p) (4 + p) (t0 + T)).
  set (w1 := upd_now S w).
  assert (R * S (S (n / R)) = R * S (n / R) + R) as Hmul by lia.
  destruct (div_step R n HR) as [[Hq Hdue]|[Hq Hlt]].
  - (* the interval is due *)
    rewrite filter_cons_True by (cbn; lia).
    assert (forall rest,
              Forall (fun t => timer_id t <> 3 + p) rest ->
              timers w = ti :: rest ->
              fire ti w1
              = Ok tt (upd_posted (fun l => l ++ [request_post sch target])
                         (upd_timers
                            (fun _ => Timer (3 + p) (t0 + R * S (S n / R))
                                        (Some R) (RetryHandshake (1 + p))
                                      :: rest) w1))) as Hfire.
    { intros rest Hrest Ht. rewrite Hq, Hmul, Nat.add_assoc.
      by apply fire_tick. }
    case_bool_decide as HT.
    + destruct (decide (S n = T)) as [HnT|HnT].
      * rewrite filter_cons_True by (cbn; lia). rewrite filter_nil.
        cbn [for_each].
        erewrite bind_ok; [|apply Hfire; [|by rewrite Htimers,
                                              ?bool_decide_eq_true_2 by lia]].
        2:{ constructor; [cbn; lia|constructor]. }
        erewrite bind_ok; [|eapply (fire_timeout sch target p);
                            [done|reflexivity|cbn; lia|done]].
        eexists. split; [reflexivity|].
        split; cbn;
          rewrite ?(bool_decide_eq_true_2 (S n < T)) by lia;
          rewrite ?(bool_decide_eq_false_2 (S n < T)) by lia.
        -- lia.
        -- done.
        -- done.
        -- by rewrite lookup_insert_eq.
        -- by rewrite Hposted, Hq, <- app_assoc, repeat_snoc.
      * rewrite filter_cons_False by (cbn; lia). rewrite filter_nil.
        cbn [for_each].
        erewrite bind_ok; [|apply Hfire; [|by rewrite Htimers,
                                              ?bool_decide_eq_true_2 by lia]].
        2:{ constructor; [cbn; lia|constructor]. }
        eexists. split; [reflexivity|].
        split; cbn;
          rewrite ?(bool_decide_eq_true_2 (S n < T)) by lia;
          rewrite ?(bool_decide_eq_false_2 (S n < T)) by lia.
        -- lia.
        -- done.
        -- done.
        -- by rewrite Hp, ?bool_decide_eq_true_2 by lia.
        -- by rewrite Hposted, Hq, <- app_assoc, repeat_snoc.
    + rewrite filter_nil. cbn [for_each].
      erewrite bind_ok; [|apply Hfire; [|by rewrite Htimers,
                                            ?bool_decide_eq_false_2 by lia]].
      2:{ constructor. }
      eexists. split; [reflexivity|].
      split; cbn;
          rewrite ?(bool_decide_eq_true_2 (S n < T)) by lia;
          rewrite ?(bool_decide_eq_false_2 (S n < T)) by lia.
      * lia.
      * done.
      * done.
      * by rewrite Hp, ?bool_decide_eq_false_2 by lia.
      * by rewrite Hposted, Hq, <- app_assoc, repeat_snoc.
  - (* the interval is not due *)
    rewrite filter_cons_False by (cbn; lia).
    case_bool_decide as HT.
    + destruct (decide (S n = T)) as [HnT|HnT].
      * rewrite filter_cons_True by (cbn; lia). rewrite filter_nil.
        cbn [for_each].
        erewrite bind_ok; [|apply (fire_timeout sch target p (t0 + T) ti);
                            [done| |cbn; lia|done]].
        2:{ unfold w1. cbn [timers upd_now]. rewrite Htimers.
            by rewrite ?bool_decide_eq_true_2 by lia. }
        eexists. split; [reflexivity|].
        split; cbn;
          rewrite ?(bool_decide_eq_true_2 (S n < T)) by lia;
          rewrite ?(bool_decide_eq_false_2 (S n < T)) by lia.
        -- lia.
        -- done.
        -- by rewrite ?Hq.
        -- by rewrite lookup_insert_eq.
        -- by rewrite Hposted, ?Hq.
      * rewrite filter_cons_False by (cbn; lia). rewrite filter_nil.
        eexists. split; [reflexivity|].
        split; cbn;
          rewrite ?(bool_decide_eq_true_2 (S n < T)) by lia;
          rewrite ?(bool_decide_eq_false_2 (S n < T)) by lia.
        -- lia.
        -- done.
        -- by rewrite Htimers, ?Hq, ?bool_decide_eq_true_2 by lia.
        -- by rewrite Hp, ?bool_decide_eq_true_2 by lia.
        -- by rewrite Hposted, ?Hq.
    + rewrite filter_nil.
      eexists. split; [reflexivity|].
      split; cbn;
          rewrite ?(bool_decide_eq_true_2 (S n < T)) by lia;
          rewrite ?(bool_decide_eq_false_2 (S n < T)) by lia.
      * lia.
      * done.
      * by rewrite Htimers, ?Hq, ?bool_decide_eq_false_2 by lia.
      * by rewrite Hp, ?bool_decide_eq_false_2 by lia.
      * by rewrite Hposted, ?Hq.
Qed.

Lemma quiet_run_for sch target p t0 R T n w0 w :
  R <> 0 ->
  unanswered sch target p t0 R T 0 w0 w ->
  exists w',
    run_for n (fun _ => []) w = Ok tt w'
    /\ unanswered sch target p t0 R T n w0 w'.
Proof.
  intros HR Hw. induction n as [|n (w1 & Hrun & Hw1)]; [by exists w|].
  destruct (quiet_millisecond sch target p t0 R T n w0 w1 HR Hw1)
    as (w' & Hms & Hw').
  exists w'. split; [|done].
  rewrite run_for_S. by rewrite (bind_ok _ _ _ _ _ Hrun).
Qed.

Lemma called_unanswered sch target w0 :
  timers w0 = [] ->
  handshakes w0 !! fresh w0 = None ->
  unanswered sch target (fresh w0) (now w0) REQUEST_INTERVAL TIMEOUT_INTERVAL
    0 w0 (called sch target w0).
Proof.
  intros Ht Hp.
  assert (0 / REQUEST_INTERVAL = 0) as Hz.
  { apply Nat.div_small. unfold REQUEST_INTERVAL. lia. }
  assert (bool_decide (0 < TIMEOUT_INTERVAL) = true) as Hb.
  { apply bool_decide_eq_true_2. unfold TIMEOUT_INTERVAL. lia. }
  split; unfold called; cbn [now attempts timers handshakes posted];
    rewrite ?Hz, ?Hb.
  - lia.
  - by rewrite lookup_alter_eq, lookup_insert_eq.
  - rewrite Ht, Nat.mul_1_r. done.
  - done.
  - by rewrite app_nil_r.
Qed.

(** X18.  The schedule of the guest's handshake requests.  While nothing
    arrives, [connect] posts no request when it is called and none before
    600 ms have passed; from then on it posts one request to the target
    every 600 ms, and it goes on doing so after the promise has been
    rejected at 3000 ms: [n] milliseconds after the call, [n / 600]
    requests have been posted. *)
Theorem requests_every_interval sch target n w0 :
  timers w0 = [] ->
  handshakes w0 !! fresh w0 = None ->
  exists p w,
    (p ← guest_connect sch target; run_for n (fun _ => []);; mret p) w0
    = Ok p w
    /\ posted w
       = posted w0 ++ repeat (request_post sch target) (n / REQUEST_INTERVAL)
    /\ handshakes w !! p
       = if bool_decide (n < TIMEOUT_INTERVAL) then None
         else Some (Rejected (JStr "connection timeout")).
Proof.
  intros Ht Hp.
  destruct (quiet_run_for sch target (fresh w0) (now w0) REQUEST_INTERVAL
              TIMEOUT_INTERVAL n w0 (called sch target w0))
    as (w & Hrun & Hw).
  { unfold REQUEST_INTERVAL. lia. }
  { by apply called_unanswered. }
  exists (fresh w0), w. split.
  - rewrite (bind_ok _ _ _ _ _ (guest_connect_called sch target w0)).
    by rewrite (bind_ok _ _ _ _ _ Hrun).
  - by destruct Hw.
Qed.

End Schedule.

(** ** The guest once it has been answered *)

Section Answered.
Context `{C : Collaborators}.

Ltac answered_step :=
  eexists; split; [reflexivity|];
  split; cbn; unfold REQUEST_INTERVAL, TIMEOUT_INTERVAL in *;
  try match goal with
      | H : timers ?w = _ |- timers ?w = _ => rewrite H
      end;
  repeat first [rewrite bool_decide_eq_true_2 by lia
               |rewrite bool_decide_eq_false_2 by lia];
  (done || lia).

Lemma answered_millisecond sch target p t0 c n w0 w :
  answered sch target p t0 c n w0 w ->
  exists w',
    millisecond (fun _ => []) w = Ok tt w'
    /\ answered sch target p t0 c (S n) w0 w'.
Proof.
  intros [Hnow Hatt Htimers Hp Hposted].
  rewrite quiet_run, advance_run, Hnow, Htimers.
  set (w1 := upd_now S w).
  assert (attempts w1 !! (1 + p)
          = Some (Attempt sch target (2 + p) (Some (3 + p)) true p)) as Hatt1
    by done.
  assert (forall rest,
            timers w1 = tick_timer (1 + p) (3 + p) (t0 + REQUEST_INTERVAL) :: rest ->
            Forall (fun t => timer_id t <> 3 + p) rest ->
            fire (tick_timer (1 + p) (3 + p) (t0 + REQUEST_INTERVAL)) w1
            = Ok tt (upd_timers (fun _ => rest) w1)) as Htick.
  { intros rest Ht Hrest. unfold fire. rewrite bind_gets, Ht.
    cbn [existsb timer_id tick_timer]. rewrite bool_decide_eq_true_2 by done.
    cbn [orb]. erewrite bind_ok; [|reflexivity].
    unfold run_job, async. cbn [job tick_timer timeout_timer]. f_equal.
    unfold retry. rewrite bind_gets. cbn [attempts upd_timers].
    rewrite Hatt1. cbn [connected interval]. unfold clearInterval, modify.
    cbn [after]. unfold upd_timers. cbn.
    f_equal. change (timers w) with (timers w1). rewrite Ht.
    cbn [map tick_timer timer_id].
    rewrite bool_decide_eq_true_2 by done.
    rewrite filter_cons_False by (cbn; intros H; by apply H).
    rewrite (filter_map_fixed _ _ rest).
    - apply filter_keep. intros x Hx.
      pose proof (proj1 (Forall_forall _ _) Hrest x Hx) as Hne. cbn in Hne.
      congruence.
    - intros x _. destruct (bool_decide (timer_id x = _)); reflexivity.
    - intros x Hx _. rewrite bool_decide_eq_false_2; [done|].
      by apply (proj1 (Forall_forall _ _) Hrest x Hx). }
  assert (timers w1 = [timeout_timer (1 + p) (4 + p) (t0 + TIMEOUT_INTERVAL)] ->
          fire (timeout_timer (1 + p) (4 + p) (t0 + TIMEOUT_INTERVAL)) w1
          = Ok tt (upd_timers (fun _ => []) w1)) as Hout.
  { intros Ht. unfold fire. rewrite bind_gets, Ht.
    cbn [existsb timer_id timeout_timer]. rewrite bool_decide_eq_true_2 by done.
    cbn [orb]. erewrite bind_ok; [|reflexivity].
    unfold run_job, async. cbn [job tick_timer timeout_timer]. f_equal.
    unfold timeout. rewrite bind_gets. cbn [attempts upd_timers].
    rewrite Hatt1. cbn [connected negb]. unfold mret, M_ret. cbn [after].
    unfold upd_timers. cbn. f_equal. change (timers w) with (timers w1).
    rewrite Ht.
    rewrite filter_cons_False, filter_nil; [done|]. cbn. tauto. }
  unfold REQUEST_INTERVAL, TIMEOUT_INTERVAL in *.
  destruct (decide (S n < 600)) as [H1|H1].
  - rewrite !bool_decide_eq_true_2 by lia. cbn [app].
    rewrite !filter_cons_False, filter_nil by (cbn; lia).
    answered_step.
  - destruct (decide (S n = 600)) as [H2|H2].
    + rewrite !bool_decide_eq_true_2 by lia. cbn [app].
      rewrite filter_cons_True by (cbn; lia).
      rewrite filter_cons_False, filter_nil by (cbn; lia).
      cbn [for_each]. erewrite bind_ok; cycle 1.
      { apply Htick.
        - unfold w1. cbn [timers upd_now]. rewrite Htimers.
          by rewrite !bool_decide_eq_true_2 by lia.
        - constructor; [cbn; lia|constructor]. }
      answered_step.
    + destruct (decide (S n < 3000)) as [H3|H3].
      * rewrite (bool_decide_eq_false_2 (n < 600)) by lia.
        rewrite bool_decide_eq_true_2 by lia. cbn [app].
        rewrite !filter_cons_False, filter_nil by (cbn; lia).
        answered_step.
      * destruct (decide (S n = 3000)) as [H4|H4].
        -- rewrite (bool_decide_eq_false_2 (n < 600)) by lia.
           rewrite bool_decide_eq_true_2 by lia. cbn [app].
           rewrite filter_cons_True, filter_nil by (cbn; lia).
           cbn [for_each]. erewrite bind_ok; cycle 1.
           { apply Hout. unfold w1. cbn [timers upd_now]. rewrite Htimers.
             rewrite (bool_decide_eq_false_2 (n < 600)) by lia.
             by rewrite bool_decide_eq_true_2 by lia. }
           answered_step.
        -- rewrite !bool_decide_eq_false_2 by lia. cbn [app].
           rewrite filter_nil.
           answered_step.
Qed.

(** The reply listener leaves the clock alone. *)
Lemma handleHandshakeResponse_now a ev w :
  now (after (handleHandshakeResponse a ev w)) = now w.
Proof.
  unfold handleHandshakeResponse. rewrite bind_gets.
  destruct (attempts w !! a) as [att|]; [|done].
  destruct (negb (destructurable _)); [done|].
  destruct (negb (accepts_reply _ _)); [done|].
  cbv zeta. unfold registerLocalMethods.
  match goal with
  | |- context [subscribe_calls ?a ?b ?c ?d ?e] =>
      destruct (subscribe_calls_run a b c d e w) as (ls & subs & Hrun)
  end.
  erewrite bind_ok; [|exact Hrun].
  unfold registerRemoteMethods, alloc, modify, settle_handshake, throw.
  unfold mbind, M_bind, mret, M_ret.
  by destruct (method_list _).
Qed.

Lemma answered_run_for sch target p t0 c n w0 w :
  answered sch target p t0 c 0 w0 w ->
  exists w',
    run_for n (fun _ => []) w = Ok tt w'
    /\ answered sch target p t0 c n w0 w'.
Proof.
  intros Hw. induction n as [|n (w1 & Hrun & Hw1)]; [by exists w|].
  destruct (answered_millisecond sch target p t0 c n w0 w1 Hw1)
    as (w' & Hms & Hw').
  exists w'. split; [|done].
  rewrite run_for_S. by rewrite (bind_ok _ _ _ _ _ Hrun).
Qed.

(** X12.  The handshake reply of the target connects the guest.  When the
    reply listener of [connect] is the only listener on its receiver and no
    other timer runs, the event loop gives a well-formed reply to that
    listener: the promise of [connect] is fulfilled with a connection whose
    [remote] is the copy of the reply's schema with a proxy set at each
    path the reply names, all of them under the connection id of the reply,
    and one [handleCall] listener per local method is subscribed under that
    id.  From then on, while nothing else arrives, no request is posted:
    the interval that [connect] set is cleared by its first tick, 600 ms
    after the call, and the timeout, when it is due, leaves the promise as
    it is. *)
Theorem reply_connects_guest sch target ev ms w0 :
  timers w0 = [] ->
  handshakes w0 !! fresh w0 = None ->
  Forall (fun s => on s <> guest_listeners target) (subscriptions w0) ->
  destructurable (data ev) = true ->
  accepts_reply target ev = true ->
  method_list (prop "methods" (data ev)) = Some ms ->
  let p := fresh w0 in
  let cid := prop "connectionID" (data ev) in
  let mr := guest_messageReceiver target in
  exists w1 c L subs,
    (guest_connect sch target;; deliver (guest_listeners target) ev) w0
    = Ok tt w1
    /\ handshakes w1 !! p = Some (Fulfilled c)
    /\ remote c
       = set_proxies (spread_object (prop "schema" (data ev))) ms cid ev L mr
    /\ close c
       = GuestClose (guest_listeners target) (2 + p) L (map thunk subs)
    /\ subscriptions w1
       = subscriptions w0
         ++ Subscription (guest_listeners target) (2 + p)
              (HandleHandshakeResponse (1 + p)) :: subs
    /\ map run subs = map (fun m => HandleCall sch m cid mr) (extractMethods sch)
    /\ forall n, exists w2,
         run_for n (fun _ => []) w1 = Ok tt w2
         /\ posted w2 = posted w0
         /\ handshakes w2 !! p = Some (Fulfilled c)
         /\ timers w2
            = (if bool_decide (n < REQUEST_INTERVAL)
               then [tick_timer (1 + p) (3 + p) (now w0 + REQUEST_INTERVAL)]
               else [])
              ++ (if bool_decide (n < TIMEOUT_INTERVAL)
                  then [timeout_timer (1 + p) (4 + p)
                          (now w0 + TIMEOUT_INTERVAL)]
                  else []).
Proof.
  intros Ht Hp Hsubs Hd Hacc Hm p cid mr.
  set (wc := called sch target w0).
  set (att := Attempt sch target (2 + p) (Some (3 + p)) false p).
  assert (attempts wc !! (1 + p) = Some att) as Ha.
  { unfold wc. cbn [attempts called]. fold p.
    by rewrite lookup_alter_eq, lookup_insert_eq. }
  destruct (handleHandshakeResponse_accepted (1 + p) att ev ms wc Ha Hd Hacc Hm)
    as (subs & w1 & Hrun & Hs1 & Hruns & _ & _ & _ & _ & Hatt & Htim & Hpost
        & Hh).
  cbn [attempt_schema attempt_target attempt_promise attempt_listener att]
    in Hruns, Hh.
  assert (deliver (guest_listeners target) ev wc = Ok tt w1) as Hdel.
  { rewrite (deliver_last _ _ []
               (Subscription (guest_listeners target) (2 + p)
                  (HandleHandshakeResponse (1 + p)))).
    - unfold dispatch_to, async. cbn [run]. by rewrite Hrun.
    - unfold wc. cbn [subscriptions called]. fold p. rewrite filter_app.
      rewrite (filter_none _ (subscriptions w0)).
      + by rewrite filter_cons_True, filter_nil.
      + intros s Hin. by apply (proj1 (Forall_forall _ _) Hsubs s).
    - constructor. }
  assert (now w1 = now w0) as Hnow.
  { pose proof (handleHandshakeResponse_now (1 + p) ev wc) as Hn.
    by rewrite Hrun in Hn. }
  match type of Hh with
  | _ = settled _ (Fulfilled ?x) _ => set (conn := x) in *
  end.
  exists w1, conn, (length (extractMethods sch) + fresh wc), subs.
  split.
  { by rewrite (bind_ok _ _ _ _ _ (guest_connect_called sch target w0)). }
  split; [rewrite Hh; by apply settled_new|].
  split; [reflexivity|]. split; [reflexivity|].
  split; [by rewrite Hs1; unfold wc; cbn [subscriptions called];
          rewrite <- app_assoc|].
  split; [done|].
  intros n.
  destruct (answered_run_for sch target p (now w0) conn n w0 w1)
    as (w2 & Hrun2 & [_ _ Ht2 Hp2 Hposted2]).
  { split.
    - lia.
    - rewrite Hatt, lookup_alter_eq, Ha. reflexivity.
    - rewrite Htim. unfold wc. cbn [timers called]. rewrite Ht.
      unfold REQUEST_INTERVAL, TIMEOUT_INTERVAL.
      by rewrite !bool_decide_eq_true_2 by lia.
    - rewrite Hh. by apply settled_new.
    - by rewrite Hpost. }
  by exists w2.
Qed.

End Answered.

(** ** A host nobody waits on *)

Section Idle.
Context `{C : Collaborators}.

Lemma listeners_for_empty guest m :
  Forall (fun e : Guest * list ConnectionListener => e.2 = []) m ->
  default [] (listeners_for guest m) = [].
Proof.
  induction 1 as [|[g ls] m Hls _ IH]; [done|]. cbn [listeners_for].
  case_bool_decide; [exact Hls|exact IH].
Qed.

Lemma route_idle h r mr ev guest w :
  records w !! h = Some r ->
  Forall (fun e : Guest * list ConnectionListener => e.2 = [])
    (connectionListeners r) ->
  route h mr ev guest w = Ok tt w.
Proof.
  intros Hr Hidle.
  assert ((ls ← gets (fun w => default []
                        (records w !! h ≫=
                         fun r => listeners_for guest (connectionListeners r)));
           for_each ls (fun l => listener l ev
                                   (negotiateConnection guest h mr))) w
          = Ok tt w) as Hserve.
  { rewrite bind_gets, Hr. cbn [mbind option_bind].
    by rewrite listeners_for_empty. }
  unfold route. destruct (as_iframe guest) as [f|]; [|exact Hserve].
  destruct (negb (isValidTarget f ev)); [done|exact Hserve].
Qed.

(** X20.  A handshake request that arrives while no caller waits is
    dropped.  When every set of pending listeners of the host is empty - the
    callers of [connect] have been served, or the generator of [serve] has
    not asked for the next connection - [mainListener] registers nothing,
    posts no reply and keeps nothing of the request: the context is as it
    was. *)
Theorem unawaited_request_dropped h r ev w :
  records w !! h = Some r ->
  Forall (fun e : Guest * list ConnectionListener => e.2 = [])
    (connectionListeners r) ->
  strict_eq (prop "action" (data ev)) (JStr actions.HANDSHAKE_REQUEST) = true ->
  after (mainListener h ev w) = w.
Proof.
  intros Hr Hidle Ha. unfold mainListener.
  destruct (negb (truthy (data ev)) || negb (bool_decide (is_Some (source ev)))
            || negb (truthy (JStr (origin ev)))); [done|].
  rewrite bind_gets, Hr, Ha.
  generalize (map fst (connectionListeners r)). intros guests.
  induction guests as [|g guests IH]; [done|]. cbn [for_each].
  by rewrite (bind_ok _ _ _ _ _
                (route_idle h r (host_messageReceiver h (target r)) ev g w
                   Hr Hidle)).
Qed.

End Idle.

(** ** The further properties on the demo *)



(** The request for [add(2, 3)] whose source is gone: [add] runs, nothing
    is posted. *)
Lemma vanished_source_witness :
  let w' := after (handleCall Demo.demo_schema "add" (JStr "uuid-0") None
                     Demo.orphan_call empty_realm) in
  invocations w' = [("add", [JNum 2; JNum 3])] /\ posted w' = [].
Proof.
  apply (proj2 (vanished_source (C := Demo.collaborators) None
                  Demo.orphan_call eq_refl eq_refl eq_refl)
           Demo.demo_schema "add" (JStr "uuid-0") Demo.add [JNum 2; JNum 3]
           empty_realm).
  - repeat split; reflexivity.
  - reflexivity.
  - reflexivity.
Defined.

(** Two calls of the proxy of [add]. *)
Lemma calls_told_apart_witness :
  exists p1 p2 w1 w2,
    createRPC (JStr "add") (JStr "conn-1") Demo.reply_event 0 None
      [JNum 2; JNum 3] empty_realm = Ok p1 w1
    /\ createRPC (JStr "add") (JStr "conn-1") Demo.reply_event 0 None
         [JNum 4] w1 = Ok p2 w2
    /\ p1 <> p2.
Proof.
  destruct (@calls_told_apart Demo.collaborators demo_uuid_fresh (JStr "add")
              (JStr "conn-1") Demo.reply_event 0 None [JNum 2; JNum 3]
              [JNum 4] empty_realm)
    as (p1 & p2 & w1 & w2 & H1 & H2 & Hne & _).
  by exists p1, p2, w1, w2.
Defined.

(** The two methods of the demo, registered beside the listener of a host
    and unregistered again. *)
Lemma registerLocalMethods_round_trip_witness :
  exists unregisterLocal w1,
    registerLocalMethods Demo.demo_schema ["add"; "fail"] (JStr "uuid-0") None
      Demo.listening_host = Ok unregisterLocal w1
    /\ length (subscriptions w1) = 3
    /\ subscriptions (after (unregister unregisterLocal w1))
       = subscriptions Demo.listening_host.
Proof.
  destruct (registerLocalMethods_round_trip Demo.demo_schema ["add"; "fail"]
              (JStr "uuid-0") None Demo.listening_host)
    as (u & subs & w1 & Hr & Hs & Hrun & _ & Hback).
  { unfold listeners_allocated. vm_compute. repeat constructor. }
  exists u, w1. split; [exact Hr|]. split; [|exact Hback].
  rewrite Hs, length_app, <- (length_map run subs), Hrun. reflexivity.
Defined.

(** In the flat objects of the demo, the proxies that [set_proxies] leaves in
    an object are those that were there and proxies over the [listeners]
    array; a copy of a schema holds none, so every proxy in the [remote] of a
    connection is a proxy of that connection. *)
Lemma flat_put_at o name f k g :
  (k, inr g) ∈ Demo.put_at o name f -> (k, inr g) ∈ o \/ g = f.
Proof.
  induction o as [|[k' x] o IH]; cbn [Demo.put_at].
  - intros [= _ ->]%list_elem_of_singleton. by right.
  - case_bool_decide.
    + intros [[= _ ->]|Hin]%elem_of_cons; [by right|]. left. by right.
    + intros [->|Hin]%elem_of_cons; [left; left|].
      destruct (IH Hin) as [Ho| ->]; [left; by right|by right].
Qed.

Lemma flat_set_proxies o ms cid ev L mr k g :
  (k, inr g) ∈ set_proxies (C := Demo.collaborators) o ms cid ev L mr ->
  (k, inr g) ∈ o \/ rpc_listeners g = L.
Proof.
  unfold set_proxies. revert o. induction ms as [|m ms IH]; intros o;
    cbn [fold_left]; [by left|].
  intros Hin. destruct (IH _ Hin) as [Ho|HL]; [|by right].
  destruct m; cbn [set Demo.collaborators Demo.put] in Ho; try by left.
  destruct (flat_put_at _ _ _ _ _ Ho) as [Ho'| ->]; [by left|by right].
Qed.

Lemma flat_proxies_over sch ms cid ev L mr k g :
  (k, inr g)
  ∈ set_proxies (C := Demo.collaborators) (spread_object sch) ms cid ev L mr ->
  rpc_listeners g = L.
Proof.
  intros [Ho|HL]%flat_set_proxies; [|done].
  cbn [spread_object Demo.collaborators] in Ho. unfold Demo.own_properties in Ho.
  destruct sch; try by apply elem_of_nil in Ho.
  by apply list_elem_of_fmap in Ho as (kv & [=] & _).
Qed.

(** The host serves the guest's request, calls [add] through the proxy and
    closes the connection. *)
Lemma close_undoes_negotiation_witness :
  exists c w1 w2 w3,
    negotiateConnection (Some (GIframe Demo.child_frame)) 0 None
      Demo.demo_schema Demo.guest_request Demo.listening_host = Ok c w1
    /\ remote c = [("add", inr Demo.add_proxy)]
    /\ call_each [(Demo.add_proxy, [JNum 2; JNum 3])] w1 = Ok tt w2
    /\ close_connection c w2 = Ok tt w3
    /\ length (subscriptions w2) = 4
    /\ subscriptions w3 = subscriptions Demo.listening_host
    /\ records w3 = records Demo.listening_host.
Proof.
  destruct (close_undoes_negotiation (Some (GIframe Demo.child_frame)) 0 None
              Demo.demo_schema Demo.guest_request Demo.child [JStr "add"]
              [(Demo.add_proxy, [JNum 2; JNum 3])] Demo.listening_host)
    as (c & w1 & Hn & Hcs).
  - reflexivity.
  - reflexivity.
  - unfold listeners_allocated. vm_compute. repeat constructor.
  - intros r Hr. vm_compute in Hr. injection Hr as <-. reflexivity.
  - destruct Hcs as (w2 & w3 & H1 & H2 & H3 & H4 & H5).
    { assert (proxy_of c Demo.add_proxy) as Hproxy.
      { pose proof (f_equal (fun x => match x with
                                      | Ok c _ => connection_listeners c
                                      | Thrown _ _ => 0
                                      end) Hn) as Hl.
        vm_compute in Hl. exact Hl. }
      constructor; [exact Hproxy|constructor]. }
    assert (remote c = [("add", inr Demo.add_proxy)]) as Hremote.
    { pose proof (f_equal (fun x => match x with
                                    | Ok c _ => remote c
                                    | Thrown _ _ => []
                                    end) Hn) as Hr.
      vm_compute in Hr. symmetry. exact Hr. }
    exists c, w1, w2, w3. repeat split; assumption.
Defined.

(** The same connection, disconnected by its identifier, twice. *)
Lemma disconnect_closes_once_witness :
  exists c w1 w2 w3,
    negotiateConnection (Some (GIframe Demo.child_frame)) 0 None
      Demo.demo_schema Demo.guest_request Demo.listening_host = Ok c w1
    /\ call_each [(Demo.add_proxy, [JNum 2; JNum 3])] w1 = Ok tt w2
    /\ disconnect 0 "uuid-0" w2 = Ok tt w3
    /\ subscriptions w3 = subscriptions Demo.listening_host
    /\ disconnect 0 "uuid-0" w3 = Ok tt w3.
Proof.
  destruct (disconnect_closes_once (Some (GIframe Demo.child_frame)) 0 None
              Demo.demo_schema Demo.guest_request Demo.child [JStr "add"]
              [(Demo.add_proxy, [JNum 2; JNum 3])] Demo.listening_host
              (Host TWindow 1 0 [] []))
    as (c & w1 & Hn & _ & Hcs).
  - reflexivity.
  - reflexivity.
  - unfold listeners_allocated. vm_compute. repeat constructor.
  - reflexivity.
  - reflexivity.
  - destruct Hcs as (w2 & w3 & H1 & H2 & H3 & _ & H5).
    { assert (proxy_of c Demo.add_proxy) as Hproxy.
      { pose proof (f_equal (fun x => match x with
                                      | Ok c _ => connection_listeners c
                                      | Thrown _ _ => 0
                                      end) Hn) as Hl.
        vm_compute in Hl. exact Hl. }
      constructor; [exact Hproxy|constructor]. }
    exists c, w1, w2, w3. repeat split; assumption.
Defined.

(** The host that has one connection is stopped. *)
Lemma stop_closes_connections_witness :
  exists w',
    stop 0 true Demo.connected_host = Ok tt w'
    /\ hosts w' = delete TWindow (hosts Demo.connected_host)
    /\ connections <$> records w' !! 0 = Some [].
Proof.
  assert (exists r, records Demo.connected_host !! 0 = Some r
                    /\ connections_wf 0 r /\ target r = TWindow)
    as (r & Hr & Hwf & Ht).
  { eexists. split; [vm_compute; reflexivity|]. split; [split|reflexivity].
    - apply NoDup_singleton.
    - constructor; [|constructor]. do 2 eexists. reflexivity. }
  destruct (stop_closes_connections 0 r Demo.connected_host Hr Hwf)
    as (w' & Hs & Hh & Hr' & _).
  exists w'. split; [exact Hs|]. split; [by rewrite Hh, Ht|]. by rewrite Hr'.
Defined.

(** A host on the window, from its creation to the next one. *)
Lemma host_lifecycle_witness :
  exists h w1 w2 h' w3,
    findOrCreateHostFor TWindow empty_realm = Ok h w1
    /\ length (subscriptions w1) = 1
    /\ findOrCreateHostFor TWindow w1 = Ok h w1
    /\ stop h true w1 = Ok tt w2
    /\ subscriptions w2 = []
    /\ hosts w2 = ∅
    /\ findOrCreateHostFor TWindow w2 = Ok h' w3
    /\ h' <> h.
Proof.
  apply (host_lifecycle TWindow true empty_realm); [reflexivity|constructor].
Defined.

(** The iframe of the demo answers the only caller of [connect]. *)
Lemma connect_stops_host_witness :
  exists p h w1 w2 c,
    connect (Some (GIframe Demo.child_frame)) Demo.demo_schema empty_realm
    = Ok p w1
    /\ mainListener h Demo.guest_request w1 = Ok tt w2
    /\ handshakes w2 !! p = Some (Fulfilled c)
    /\ hosts w2 !! TWindow = None
    /\ length (subscriptions w2) = 2.
Proof.
  destruct (connect_stops_host (GIframe Demo.child_frame) Demo.demo_schema
              Demo.guest_request Demo.child [JStr "add"] empty_realm)
    as (p & h & w1 & w2 & c & subs & receiver & H1 & H2 & H3 & H4 & H5 & H6
        & H7 & H8 & H9); try reflexivity.
  - constructor.
  - discriminate.
  - intros f [= <-]. reflexivity.
  - exists p, h, w1, w2, c. repeat split; try assumption.
    rewrite H7. change (length subs = 2).
    rewrite <- (length_map run subs), H8. reflexivity.
Defined.

(** A server on the window is sent a request that claims another origin
    than the guest's. *)
Lemma serve_accepts_any_source_witness :
  exists h p w1 w2 c,
    (h ← serve TWindow; p ← next_connection h Demo.demo_schema; mret (h, p))
      empty_realm = Ok (h, p) w1
    /\ deliver (RTarget TWindow) Demo.stray_request w1 = Ok tt w2
    /\ handshakes w2 !! p = Some (Fulfilled c)
    /\ hosts w2 !! TWindow = Some h.
Proof.
  destruct (serve_accepts_any_source TWindow Demo.demo_schema
              Demo.stray_request Demo.child [JStr "add"] empty_realm)
    as (h & p & w1 & w2 & c & H1 & H2 & H3 & _ & _ & H6 & _);
    try reflexivity.
  - constructor.
  - discriminate.
  - exists h, p, w1, w2, c. repeat split; assumption.
Defined.

(** The guest of the demo gets the reply of its parent at once; the tick at
    600 ms clears the interval. *)
Lemma reply_connects_guest_witness :
  exists w1 c w2,
    (guest_connect Demo.demo_schema Demo.parent;;
     deliver RSelf Demo.reply_event) empty_realm = Ok tt w1
    /\ handshakes w1 !! 0 = Some (Fulfilled c)
    /\ run_for REQUEST_INTERVAL (fun _ => []) w1 = Ok tt w2
    /\ posted w2 = []
    /\ timers w2 = [timeout_timer 1 4 TIMEOUT_INTERVAL].
Proof.
  destruct (reply_connects_guest Demo.demo_schema Demo.parent Demo.reply_event
              [JStr "add"] empty_realm)
    as (w1 & c & L & subs & H1 & H2 & _ & _ & _ & _ & Hquiet);
    try reflexivity; [constructor|].
  destruct (Hquiet REQUEST_INTERVAL) as (w2 & H3 & H4 & _ & H5).
  exists w1, c, w2. split; [exact H1|]. split; [exact H2|].
  split; [exact H3|]. split; [exact H4|exact H5].
Defined.

(** The guest and the host of the demo shake hands. *)
Lemma handshake_round_trip_witness :
  exists ch wh1 cg wg1,
    negotiateConnection (Some (GIframe Demo.child_frame)) 0 None
      Demo.demo_schema Demo.full_request Demo.listening_host = Ok ch wh1
    /\ handleHandshakeResponse 1 Demo.full_reply Demo.waiting_guest
       = Ok tt wg1
    /\ handshakes wg1 !! 0 = Some (Fulfilled cg).
Proof.
  destruct (handshake_round_trip (Some (GIframe Demo.child_frame)) 0 None
              Demo.demo_schema 1 Demo.waiting Demo.full_request
              Demo.full_reply Demo.child Demo.listening_host
              Demo.waiting_guest)
    as (_ & ch & wh1 & cg & wg1 & o & H1 & _ & H3 & H4 & _);
    try reflexivity.
  exists ch, wh1, cg, wg1. repeat split; assumption.
Defined.

(** A reply whose [methods] is a string. *)
Lemma malformed_reply_times_out_witness :
  exists e w1,
    handleHandshakeResponse 1 Demo.bad_reply Demo.waiting_guest = Thrown e w1
    /\ length (subscriptions w1) = 3
    /\ handshakes (after (timeout 1 w1)) !! 0
       = Some (Rejected (JStr "connection timeout")).
Proof.
  destruct (malformed_reply_times_out 1 Demo.waiting Demo.bad_reply
              Demo.waiting_guest)
    as (e & w1 & subs & H1 & H2 & H3 & _ & _ & H6); try reflexivity.
  exists e, w1. split; [exact H1|]. split; [|exact H6].
  rewrite H2, length_app, H3. reflexivity.
Defined.

(** The parent replies twice. *)
Lemma second_reply_registers_again_witness :
  exists c w1 w2 w3 subs2,
    handleHandshakeResponse 1 Demo.reply_event Demo.waiting_guest = Ok tt w1
    /\ handshakes w1 !! 0 = Some (Fulfilled c)
    /\ handleHandshakeResponse 1 Demo.full_reply w1 = Ok tt w2
    /\ handshakes w2 = handshakes w1
    /\ close_connection c w2 = Ok tt w3
    /\ length subs2 = 2
    /\ Forall (fun s => s ∈ subscriptions w3) subs2.
Proof.
  destruct (second_reply_registers_again 1 Demo.waiting Demo.reply_event
              Demo.full_reply [JStr "add"] [JStr "add"; JStr "fail"]
              Demo.waiting_guest)
    as (c & w1 & w2 & w3 & subs2 & H1 & H2 & H3 & H4 & _ & H6 & H7 & H8);
    try reflexivity.
  - unfold listeners_allocated. vm_compute. repeat constructor.
  - vm_compute. lia.
  - exists c, w1, w2, w3, subs2. repeat split; try assumption.
    rewrite <- (length_map run subs2), H6. reflexivity.
Defined.

(** The guest of the demo is connected, calls [add] and closes. *)
Lemma guest_close_unsubscribes_witness :
  exists c w1 w2 w3,
    handleHandshakeResponse 1 Demo.reply_event Demo.waiting_guest = Ok tt w1
    /\ call_each [(Rpc (JStr "add") (JStr "conn-1") Demo.reply_event 7 None,
                   [JNum 2; JNum 3])] w1 = Ok tt w2
    /\ length (subscriptions w2) = 4
    /\ close_connection c w2 = Ok tt w3
    /\ subscriptions w3 = [].
Proof.
  destruct (guest_close_unsubscribes 1 Demo.waiting Demo.reply_event
              [JStr "add"]
              [(Rpc (JStr "add") (JStr "conn-1") Demo.reply_event 7 None,
                [JNum 2; JNum 3])] Demo.waiting_guest)
    as (c & w1 & H1 & H2 & Hcs); try reflexivity.
  - unfold listeners_allocated. vm_compute. repeat constructor.
  - destruct Hcs as (w2 & w3 & H3 & H4 & H5 & H6).
    { pose proof (f_equal after H1) as Hw1. cbn [after] in Hw1.
      rewrite <- Hw1 in H2.
      assert (proxy_of c
                (Rpc (JStr "add") (JStr "conn-1") Demo.reply_event 7 None))
        as Hproxy.
      { pose proof (f_equal (fun x => match x with
                                      | Some (Fulfilled c) =>
                                          connection_listeners c
                                      | _ => 0
                                      end) H2) as Hl.
        vm_compute in Hl. exact Hl. }
      constructor; [exact Hproxy|constructor]. }
    exists c, w1, w2, w3. split; [exact H1|]. split; [exact H3|].
    split; [exact H4|]. split; [exact H5|]. rewrite H6. reflexivity.
Defined.

(** A client of the service worker calls [add(2, 3)]. *)
Lemma service_worker_forwards_witness :
  exists w',
    mainListener 0 Demo.client_call Demo.worker_host = Ok tt w'
    /\ invocations w' = [("add", [JNum 2; JNum 3])]
    /\ posted w'
       = posted Demo.worker_host
         ++ [Post (ViaEndpoint Demo.client)
               (resolve_payload (JStr "call-1") (JStr "add") (JStr "uuid-0")
                  JNull (JNum 5))
               None].
Proof.
  assert (exists r, records Demo.worker_host !! 0 = Some r
                    /\ target r = TServiceWorkerGlobalScope)
    as (r & Hr & Ht).
  { eexists. split; [vm_compute; reflexivity|reflexivity]. }
  destruct (service_worker_forwards 0 r Demo.demo_schema (JStr "uuid-0")
              Demo.client_call Demo.client "add" Demo.add [JNum 2; JNum 3]
              (JNum 5) (JNum 5) (ViaEndpoint Demo.client) None
              ["add"; "fail"] Demo.worker_host) as [_ H].
  - exact Hr.
  - reflexivity.
  - reflexivity.
  - discriminate.
  - repeat split; reflexivity.
  - reflexivity.
  - reflexivity.
  - reflexivity.
  - reflexivity.
  - reflexivity.
  - apply NoDup_cons. split; [|apply NoDup_singleton].
    rewrite list_elem_of_singleton. discriminate.
  - left.
  - vm_compute. reflexivity.
  - apply H. exact Ht.
Defined.

(** Twelve hundred milliseconds of silence: two requests. *)
Lemma requests_every_interval_witness :
  exists p w,
    (p ← guest_connect Demo.demo_schema Demo.parent;
     run_for 1200 (fun _ => []);; mret p) empty_realm = Ok p w
    /\ posted w
       = [] ++ repeat (request_post Demo.demo_schema Demo.parent)
                 (1200 / REQUEST_INTERVAL)
    /\ handshakes w !! p
       = if bool_decide (1200 < TIMEOUT_INTERVAL) then None
         else Some (Rejected (JStr "connection timeout")).
Proof.
  apply (requests_every_interval Demo.demo_schema Demo.parent 1200
           empty_realm); reflexivity.
Defined.

(** The reply to the iframe of the demo. *)
Lemma reply_to_iframe_unscoped_witness :
  posted (after (negotiateConnection (Some (GIframe Demo.child_frame)) 0 None
                   Demo.demo_schema Demo.guest_request Demo.listening_host))
  = [] ++ [Post (ViaEndpoint Demo.child)
             (handshake_reply "uuid-0" ["add"; "fail"] Demo.demo_schema)
             (Some "*")].
Proof.
  apply (proj1 (reply_to_iframe_unscoped (C := Demo.collaborators)
                  (Some (GIframe Demo.child_frame)) 0
                  None Demo.demo_schema Demo.guest_request Demo.child
                  [JStr "add"] Demo.listening_host eq_refl eq_refl)
           Demo.child_frame eq_refl).
  reflexivity.
Defined.

(** The server of the demo has served one request; the guest's next request
    finds nobody waiting. *)
Lemma unawaited_request_dropped_witness :
  let w := after ((h ← serve TWindow; next_connection h Demo.demo_schema;;
                   mainListener h Demo.guest_request) empty_realm) in
  length (posted w) = 1
  /\ after (mainListener 0 Demo.guest_request w) = w.
Proof.
  intros w. split; [reflexivity|].
  assert (exists r, records w !! 0 = Some r
                    /\ connectionListeners r = [(None, [])]) as (r & Hr & Hl).
  { eexists. split; [vm_compute; reflexivity|reflexivity]. }
  apply (unawaited_request_dropped 0 r Demo.guest_request w Hr).
  - rewrite Hl. repeat constructor.
  - reflexivity.
Defined.
